(** * CommBlock: block communication and cycle synchronisation

    A shallow embedding of [src/Cello/comm_CommBlock.cpp] (the CHARM++
    entry points of the [CommBlock] chare: [prepare], [p_output],
    [p_compute], [refresh], [x_refresh], [count_refresh_], [compute],
    together with [determine_boundary_], [update_boundary_] and
    [is_on_boundary]).

    Conventions of the embedding.
    - A C++ [int] is a [Z]; [%] is the truncating remainder [Z.rem].
      Block counts, block indices and cycle numbers stay far below the
      range of [int], where signed arithmetic is the arithmetic of [Z].
    - A C++ [double] is the rational [Q] it denotes: comparisons of
      finite doubles are exact on rationals.  The sum and the
      difference of two doubles are rounded: the code's [a + b] is
      [round_double (a + b)], where [round_double], the arithmetic of
      the machine, is a parameter of the model.  Infinities and NaN
      are outside the model.
    - A member function that reads and writes the chare and calls
      collaborators is a computation in the monad [M]: it threads the
      [CommBlock] and records, in program order, every call that leaves
      the object (the TRACE points, [Boundary::enforce], the
      [x_refresh] sends on the chare array, [contribute], the Method
      hooks, the calls on the Simulation), each stamped with the value
      of [cycle_] at the time of the call. *)

From Stdlib Require Import ZArith QArith List Bool String Lia.
From Stdlib Require Import Strings.Byte.
From Stdlib Require Import Floats.PrimFloat Floats.SpecFloat Floats.FloatOps.
Import ListNotations.
Open Scope Z_scope.

(** ** Enumerations and small arrays *)

Inductive axis_enum : Type := axis_x | axis_y | axis_z.
Inductive face_enum : Type := face_lower | face_upper.

(** [int v[3]] *)
Definition int3 : Type := (Z * Z * Z)%type.

Definition at3 {A : Type} (v : A * A * A) (a : axis_enum) : A :=
  let '(x, y, z) := v in
  match a with axis_x => x | axis_y => y | axis_z => z end.

(** [bool f3[3]] read at a C index; the loops of [refresh] only read
    indices 0, 1 and 2. *)
Definition get3 {A : Type} (d : A) (v : A * A * A) (i : Z) : A :=
  let '(x, y, z) := v in
  if i =? 0 then x else if i =? 1 then y else if i =? 2 then z else d.

Definition buffer : Type := list byte.

(** [#define MIN(a,b) ((a) < (b) ? (a) : (b))] *)
Definition Qltb (a b : Q) : bool :=
  match (a ?= b)%Q with Lt => true | _ => false end.

Definition MIN (a b : Q) : Q := if Qltb a b then a else b.

(** ** The arrival counter *)

Record Sync : Type := mkSync { index_stop_ : Z; index_curr_ : Z }.

(** Modelled from the spec: class [Sync] (the type of
    [sync_refresh_]) is declared outside [src/].  [done()] increments
    the arrival counter and reports whether it has reached the stopping
    value (the quorum); the counter then starts again for the next
    round. *)
Definition Sync_done (s : Sync) : bool * Sync :=
  let c := index_curr_ s + 1 in
  if c =? index_stop_ s
  then (true, mkSync (index_stop_ s) 0)
  else (false, mkSync (index_stop_ s) c).

(** ** Calls that leave the object *)

Inductive Effect : Type :=
| Trace (msg : string)
| Enforce (face : face_enum) (axis : axis_enum)
| XRefresh (index : int3) (n : Z) (array : buffer) (fx fy fz : Z)
| Contribute (min_reduce0 min_reduce1 : Q)
| ComputeBlock (index_method : nat)
| UpdateState (cycle : Z) (time dt : Q) (stop : bool)
| SimulationPOutput.

Record Entry : Type := mkEntry { at_cycle : Z; what : Effect }.

Section CommBlock.

(** The field data of a block is opaque to the protocol. *)
Context {FieldData : Type}.

(** [block_]: the field block with its local cell counts. *)
Record Block : Type := mkBlock {
  nx_ : Z; ny_ : Z; nz_ : Z;
  field_data : FieldData
}.

Record CommBlock : Type := mkCommBlock {
  block_ : Block;
  thisIndex : int3;        (* index of the element in the chare array *)
  index_ : int3;
  size_ : int3;
  cycle_ : Z;
  time_ : Q;
  dt_ : Q;
  sync_refresh_ : Sync
}.

(** What a chare reaches through [proxy_simulation.ckLocalBranch()]:
    the collaborators of the protocol, none of them under [src/];
    with them, the floating-point arithmetic of the machine the chare
    runs on. *)
Record Simulation : Type := mkSimulation {
  (* simulation->problem()->boundary() *)
  is_periodic : bool;
  enforce : face_enum -> axis_enum -> CommBlock -> FieldData;
  (* simulation->field_descr() *)
  refresh_face : Z -> bool;
  (* FieldFace with set_face(fx,fy,fz), set_ghost(false,false,false) *)
  load : int3 -> Block -> Z * buffer;
  store : int3 -> Z -> buffer -> Block -> FieldData;
  (* simulation->problem()->timestep() *)
  evaluate : CommBlock -> Q;
  (* problem->output(i)->schedule()->update_timestep, i = 0, 1, ... *)
  output : list (Q -> Q -> Q);
  (* simulation->problem()->stopping() *)
  stop_time : Q;
  complete : Z -> Q -> bool;
  (* simulation->problem()->method(i)->compute_block, i = 0, 1, ... *)
  method : list (CommBlock -> FieldData);
  (* the double that the exact sum or difference of two doubles is
     rounded to *)
  round_double : Q -> Q
}.

Variable simulation : Simulation.

(** ** The monad of member functions *)

Definition M (A : Type) : Type := CommBlock -> A * CommBlock * list Entry.

Definition ret {A : Type} (a : A) : M A := fun b => (a, b, []).

Definition bind {A B : Type} (m : M A) (k : A -> M B) : M B :=
  fun b =>
    let '(a, b1, l1) := m b in
    let '(r, b2, l2) := k a b1 in
    (r, b2, l1 ++ l2).

Definition get : M CommBlock := fun b => (b, b, []).
Definition emit (e : Effect) : M unit :=
  fun b => (tt, b, [mkEntry (cycle_ b) e]).

Definition state_of {A : Type} (r : A * CommBlock * list Entry) : CommBlock :=
  snd (fst r).
Definition log_of {A : Type} (r : A * CommBlock * list Entry) : list Entry :=
  snd r.

Notation "x <- m ;; k" := (bind m (fun x => k))
  (at level 61, m at next level, right associativity).
Notation "m ;; k" := (bind m (fun _ => k))
  (at level 61, right associativity).

Definition when (c : bool) (m : M unit) : M unit :=
  if c then m else ret tt.

(** [for (int i = ...; ...; i++) body] over the values of [i], in order *)
Fixpoint for_ {A : Type} (l : list A) (body : A -> M unit) : M unit :=
  match l with
  | [] => ret tt
  | i :: l' => body i ;; for_ l' body
  end.

(** the values [lo, lo+1, ..., hi] of [for (int i = lo; i <= hi; i++)] *)
Definition range (lo hi : Z) : list Z :=
  map (fun k => lo + Z.of_nat k) (seq 0 (Z.to_nat (hi - lo + 1))).

Definition TRACE (msg : string) : M unit := emit (Trace msg).

(** setters of the chare *)
Definition set_cycle (c : Z) : M unit :=
  fun b => (tt, mkCommBlock (block_ b) (thisIndex b) (index_ b) (size_ b)
                  c (time_ b) (dt_ b) (sync_refresh_ b), []).
Definition set_time (t : Q) : M unit :=
  fun b => (tt, mkCommBlock (block_ b) (thisIndex b) (index_ b) (size_ b)
                  (cycle_ b) t (dt_ b) (sync_refresh_ b), []).
Definition set_dt (d : Q) : M unit :=
  fun b => (tt, mkCommBlock (block_ b) (thisIndex b) (index_ b) (size_ b)
                  (cycle_ b) (time_ b) d (sync_refresh_ b), []).
Definition set_sync (s : Sync) : M unit :=
  fun b => (tt, mkCommBlock (block_ b) (thisIndex b) (index_ b) (size_ b)
                  (cycle_ b) (time_ b) (dt_ b) s, []).
(** a collaborator rewrites the field data of [block_] *)
Definition set_field_data (d : FieldData) : M unit :=
  fun b => (tt, mkCommBlock
                  (mkBlock (nx_ (block_ b)) (ny_ (block_ b)) (nz_ (block_ b)) d)
                  (thisIndex b) (index_ b) (size_ b)
                  (cycle_ b) (time_ b) (dt_ b) (sync_refresh_ b), []).

(** [sync_refresh_.done()] *)
Definition sync_done : M bool :=
  b <- get ;;
  let '(r, s) := Sync_done (sync_refresh_ b) in
  set_sync s ;;
  ret r.

(** ** [CommBlock::is_on_boundary] *)

Definition is_on_boundary (b : CommBlock) : axis_enum -> face_enum -> bool :=
  fun a f =>
    match f with
    | face_lower => at3 (index_ b) a =? 0
    | face_upper => at3 (index_ b) a =? at3 (size_ b) a - 1
    end.

(** ** [CommBlock::determine_boundary_]

    Every caller passes six non-null pointers; the result is the
    [is_boundary] array and the six flags. *)

Definition determine_boundary_ (b : CommBlock)
  : (axis_enum -> face_enum -> bool) * (bool * bool * bool * bool * bool * bool) :=
  let is_boundary := is_on_boundary b in
  let nx := nx_ (block_ b) in
  let ny := ny_ (block_ b) in
  let nz := nz_ (block_ b) in
  (is_boundary, (nx >? 1, nx >? 1, ny >? 1, ny >? 1, nz >? 1, nz >? 1)).

(** ** [CommBlock::update_boundary_] *)

(** [boundary->enforce(field_descr,this,face,axis)] *)
Definition boundary_enforce (face : face_enum) (axis : axis_enum) : M unit :=
  emit (Enforce face axis) ;;
  b <- get ;;
  set_field_data (enforce simulation face axis b).

Definition update_boundary_ : M unit :=
  b <- get ;;
  let '(is_boundary, (fxm, fxp, fym, fyp, fzm, fzp)) := determine_boundary_ b in
  when (fxm && is_boundary axis_x face_lower) (boundary_enforce face_lower axis_x) ;;
  when (fxp && is_boundary axis_x face_upper) (boundary_enforce face_upper axis_x) ;;
  when (fym && is_boundary axis_y face_lower) (boundary_enforce face_lower axis_y) ;;
  when (fyp && is_boundary axis_y face_upper) (boundary_enforce face_upper axis_y) ;;
  when (fzm && is_boundary axis_z face_lower) (boundary_enforce face_lower axis_z) ;;
  when (fzp && is_boundary axis_z face_upper) (boundary_enforce face_upper axis_z).

(** ** [CommBlock::prepare] *)

(** the local timestep of [prepare], read off the chare after the
    boundary conditions were enforced *)
Definition dt_block_of (b : CommBlock) : Q :=
  let dt_block := evaluate simulation b in
  (* Reduce timestep to coincide with scheduled output if needed *)
  let dt_block :=
    fold_left (fun dt update_timestep => update_timestep (time_ b) dt)
              (output simulation) dt_block in
  (* Reduce timestep to not overshoot final time from stopping criteria *)
  let time_stop := stop_time simulation in
  let time_curr := time_ b in
  MIN dt_block (round_double simulation (time_stop - time_curr)%Q).

Definition prepare : M unit :=
  TRACE "CommBlock::prepare() %p" ;;
  update_boundary_ ;;
  b <- get ;;
  let dt_block := dt_block_of b in
  let stop_block := complete simulation (cycle_ b) (time_ b) in
  let min_reduce0 := dt_block in
  let min_reduce1 := if stop_block then 1%Q else 0%Q in
  TRACE "Calling contribute %d" ;;
  emit (Contribute min_reduce0 min_reduce1).

(** ** [CommBlock::x_refresh] *)

(** [field_face.store (n, buffer)] on the face [(fx,fy,fz)] *)
Definition field_face_store (n : Z) (buf : buffer) (fx fy fz : Z) : M unit :=
  b <- get ;;
  set_field_data (store simulation (fx, fy, fz) n buf (block_ b)).

Definition x_refresh (n : Z) (buf : buffer) (fx fy fz : Z) : M unit :=
  TRACE "CommBlock::x_refresh()" ;;
  when (negb (n =? 0)) (field_face_store n buf fx fy fz) ;;
  done <- sync_done ;;
  when done (TRACE "CommBlock::x_refresh() calling prepare()" ;; prepare).

(** ** [CommBlock::refresh] *)

(** [field_face.load(&n,&array)] on the face [(fx,fy,fz)], followed by
    [thisProxy[index].x_refresh (n,array,-fx,-fy,-fz)] *)
Definition send_face (index : int3) (fx fy fz : Z) : M unit :=
  b <- get ;;
  let '(n, array) := load simulation (fx, fy, fz) (block_ b) in
  emit (XRefresh index n array (- fx) (- fy) (- fz)).

Definition refresh : M unit :=
  TRACE "CommBlock::refresh()" ;;
  b <- get ;;
  let periodic := is_periodic simulation in
  let '(ibx, iby, ibz) := thisIndex b in
  let '(nbx, nby, nbz) := size_ b in
  let '(is_boundary, (fxm, fxp, fym, fyp, fzm, fzp)) := determine_boundary_ b in
  let fx3 := (fxm && (periodic || negb (is_boundary axis_x face_lower)), true,
              fxp && (periodic || negb (is_boundary axis_x face_upper))) in
  let fy3 := (fym && (periodic || negb (is_boundary axis_y face_lower)), true,
              fyp && (periodic || negb (is_boundary axis_y face_upper))) in
  let fz3 := (fzm && (periodic || negb (is_boundary axis_z face_lower)), true,
              fzp && (periodic || negb (is_boundary axis_z face_upper))) in
  let ix3 := (Z.rem (ibx - 1 + nbx) nbx, ibx, Z.rem (ibx + 1) nbx) in
  let iy3 := (Z.rem (iby - 1 + nby) nby, iby, Z.rem (iby + 1) nby) in
  let iz3 := (Z.rem (ibz - 1 + nbz) nbz, ibz, Z.rem (ibz + 1) nbz) in
  (* Refresh face ghost zones *)
  let fxl := 1 in
  let fyl := if (nby =? 1) && negb periodic then 0 else 1 in
  let fzl := if (nbz =? 1) && negb periodic then 0 else 1 in
  for_ (range (- fxl) fxl) (fun fx =>
    for_ (range (- fyl) fyl) (fun fy =>
      for_ (range (- fzl) fzl) (fun fz =>
        let sum := Z.abs fx + Z.abs fy + Z.abs fz in
        when ((get3 false fx3 (fx + 1) && get3 false fy3 (fy + 1)
                 && get3 false fz3 (fz + 1)) &&
              (((sum =? 1) && refresh_face simulation 2) ||
               ((sum =? 2) && refresh_face simulation 1) ||
               ((sum =? 3) && refresh_face simulation 0)))
          (send_face (get3 0 ix3 (fx + 1), get3 0 iy3 (fy + 1), get3 0 iz3 (fz + 1))
                     fx fy fz)))) ;;
  (* every block also calls x_refresh() itself with a null array *)
  x_refresh 0 [] 0 0 0.

(** ** [CommBlock::count_refresh_] *)

(** [if (c) ++count;] *)
Definition incr_if (c : bool) (count : Z) : Z := if c then count + 1 else count.

Definition count_refresh_ (b : CommBlock) : Z :=
  let nx := nx_ (block_ b) in
  let ny := ny_ (block_ b) in
  let nz := nz_ (block_ b) in
  (* Determine axes that may be neighbors *)
  let fxm := nx >? 1 in
  let fxp := nx >? 1 in
  let fym := ny >? 1 in
  let fyp := ny >? 1 in
  let fzm := nz >? 1 in
  let fzp := nz >? 1 in
  (* Adjust for boundary faces *)
  let periodic := is_periodic simulation in
  let is_boundary := is_on_boundary b in
  let fxm := fxm && (periodic || negb (is_boundary axis_x face_lower)) in
  let fxp := fxp && (periodic || negb (is_boundary axis_x face_upper)) in
  let fym := fym && (periodic || negb (is_boundary axis_y face_lower)) in
  let fyp := fyp && (periodic || negb (is_boundary axis_y face_upper)) in
  let fzm := fzm && (periodic || negb (is_boundary axis_z face_lower)) in
  let fzp := fzp && (periodic || negb (is_boundary axis_z face_upper)) in
  (* count self *)
  let count := 1 in
  (* count faces *)
  let count :=
    if refresh_face simulation 2 then
      let count := incr_if fxm count in
      let count := incr_if fxp count in
      let count := incr_if fym count in
      let count := incr_if fyp count in
      let count := incr_if fzm count in
      let count := incr_if fzp count in
      count
    else count in
  (* count edges *)
  let count :=
    if refresh_face simulation 1 then
      let count := incr_if (fxm && fym) count in
      let count := incr_if (fxm && fyp) count in
      let count := incr_if (fxp && fym) count in
      let count := incr_if (fxp && fyp) count in
      let count := incr_if (fym && fzm) count in
      let count := incr_if (fym && fzp) count in
      let count := incr_if (fyp && fzm) count in
      let count := incr_if (fyp && fzp) count in
      let count := incr_if (fzm && fxm) count in
      let count := incr_if (fzm && fxp) count in
      let count := incr_if (fzp && fxm) count in
      let count := incr_if (fzp && fxp) count in
      count
    else count in
  (* count corners *)
  let count :=
    if refresh_face simulation 0 then
      let count := incr_if (fxm && fym && fzm) count in
      let count := incr_if (fxm && fym && fzp) count in
      let count := incr_if (fxm && fyp && fzm) count in
      let count := incr_if (fxm && fyp && fzp) count in
      let count := incr_if (fxp && fym && fzm) count in
      let count := incr_if (fxp && fym && fzp) count in
      let count := incr_if (fxp && fyp && fzm) count in
      let count := incr_if (fxp && fyp && fzp) count in
      count
    else count in
  count.

(** ** [CommBlock::compute] and [CommBlock::p_compute] *)

(** [while (Method * method = simulation->problem()->method(index_method++))
      method -> compute_block (field_descr,this);] *)
Fixpoint compute_methods (index_method : nat)
    (methods : list (CommBlock -> FieldData)) : M unit :=
  match methods with
  | [] => ret tt
  | compute_block :: rest =>
      emit (ComputeBlock index_method) ;;
      b <- get ;;
      set_field_data (compute_block b) ;;
      compute_methods (S index_method) rest
  end.

Definition compute : M unit :=
  TRACE "CommBlock::compute()" ;;
  compute_methods 0 (method simulation) ;;
  (* Update CommBlock cycle and time to Simulation time and cycle *)
  b <- get ;;
  set_cycle (cycle_ b + 1) ;;
  b <- get ;;
  set_time (round_double simulation (time_ b + dt_ b)%Q) ;;
  (* prepare for next cycle: Timestep, Stopping, Monitor, Output *)
  TRACE "CommBlock::compute() calling refresh()" ;;
  refresh.

Definition p_compute (cycle : Z) (time dt : Q) : M unit :=
  TRACE "CommBlock::p_compute() cycle %d time %f dt %f" ;;
  compute.

(** ** [CommBlock::p_output] *)

(** the data of the reduction message: [double min_reduce[2]] *)
Definition p_output (min_reduce : Q * Q) : M unit :=
  TRACE "CommBlock::p_output()" ;;
  let dt_forest := fst min_reduce in
  let stop_forest := Qeq_bool (snd min_reduce) 1 in
  set_dt dt_forest ;;
  TRACE "CommBlock::p_output(): dt=%f  stop=%d" ;;
  b <- get ;;
  emit (UpdateState (cycle_ b) (time_ b) dt_forest stop_forest) ;;
  (* Wait for all blocks to check in before calling Simulation::p_output() *)
  TRACE "CommBlock::p_output() calling SimulationCharm::p_output" ;;
  emit SimulationPOutput.

(** ** [CommBlock::CommBlock]

    The constructor stores the forest index and size, builds the block
    with its local cell counts, starts at cycle 0, time 0, dt 0 and
    sets the stopping value of the arrival counter:
    [sync_refresh_.stop() = count_refresh_()]. *)
Definition CommBlock_new (this_index : int3)
    (ibx iby ibz nbx nby nbz nx ny nz : Z) (data : FieldData) : CommBlock :=
  let b := mkCommBlock (mkBlock nx ny nz data) this_index
             (ibx, iby, ibz) (nbx, nby, nbz) 0 0%Q 0%Q (mkSync 0 0) in
  mkCommBlock (block_ b) (thisIndex b) (index_ b) (size_ b)
    (cycle_ b) (time_ b) (dt_ b) (mkSync (count_refresh_ b) 0).

(** ** The chare as a reactive object

    A chare runs one entry method at a time, to completion.  The
    messages a [CommBlock] reacts to are the ghost messages
    ([x_refresh]), the callback of the reduction ([p_output]) and the
    order to compute ([p_compute]). *)

Inductive Msg : Type :=
| MsgXRefresh (n : Z) (buf : buffer) (fx fy fz : Z)
| MsgPOutput (min_reduce : Q * Q)
| MsgPCompute (cycle : Z) (time dt : Q).

Definition entry_method (m : Msg) : M unit :=
  match m with
  | MsgXRefresh n buf fx fy fz => x_refresh n buf fx fy fz
  | MsgPOutput min_reduce => p_output min_reduce
  | MsgPCompute cycle time dt => p_compute cycle time dt
  end.

(** A chare together with everything it has done so far. *)
Record Actor : Type := mkActor {
  chare : CommBlock;
  history : list Entry
}.

Definition is_contribute (e : Entry) : bool :=
  match what e with Contribute _ _ => true | _ => false end.
Definition is_check_in (e : Entry) : bool :=
  match what e with SimulationPOutput => true | _ => false end.
Definition is_send (e : Entry) : bool :=
  match what e with XRefresh _ _ _ _ _ _ => true | _ => false end.
Definition is_trace (msg : string) (e : Entry) : bool :=
  match what e with Trace s => String.eqb s msg | _ => false end.
(** the arrival counter reached the quorum *)
Definition is_quorum : Entry -> bool :=
  is_trace "CommBlock::x_refresh() calling prepare()".
(** the reduction result was delivered *)
Definition is_result : Entry -> bool := is_trace "CommBlock::p_output()".
(** the Methods are about to run and the cycle counter to advance *)
Definition is_compute : Entry -> bool := is_trace "CommBlock::compute()".

Definition count (p : Entry -> bool) (h : list Entry) : nat :=
  List.length (filter p h).

(** CHARM++ calls the callback of a reduction once per reduction, and
    a reduction completes only after this chare contributed to it: a
    result can be delivered when a contribution of the chare is not
    answered yet. *)
Definition reduction_pending (h : list Entry) : bool :=
  (count is_result h <? count is_contribute h)%nat.

(** Modelled from the spec: [SimulationCharm::p_output] and the caller
    of [p_compute] are outside [src/].  The blocks check in with the
    Simulation from [p_output]; afterwards the Simulation orders each
    of them to compute, once per check-in, so that no actor computes
    before the Reduction Result of the cycle was delivered to it. *)
Definition compute_ordered (h : list Entry) : bool :=
  (count is_compute h <? count is_check_in h)%nat.

(** What the environment may deliver, and when: ghost messages arrive
    at any time and in any number, a reduction result when one is
    pending, the order to compute when the Simulation gives it. *)
Definition deliverable (a : Actor) (m : Msg) : bool :=
  match m with
  | MsgXRefresh _ _ _ _ _ => true
  | MsgPOutput _ => reduction_pending (history a)
  | MsgPCompute _ _ _ => compute_ordered (history a)
  end.

Definition step (a : Actor) (m : Msg) : option Actor :=
  if deliverable a m then
    let r := entry_method m (chare a) in
    Some (mkActor (state_of r) (history a ++ log_of r))
  else None.

Fixpoint run (a : Actor) (ms : list Msg) : option Actor :=
  match ms with
  | [] => Some a
  | m :: ms' =>
      match step a m with
      | Some a' => run a' ms'
      | None => None
      end
  end.

(** ** The reduction

    [contribute(2*sizeof(double), min_reduce, CkReduction::min_double,
    callback)]: the CHARM++ runtime combines the arrays of all
    contributors element by element with [min] and hands the result to
    [p_output] of every element of the chare array. *)

Definition min_double (a b : Q * Q) : Q * Q :=
  (MIN (fst a) (fst b), MIN (snd a) (snd b)).

(** the result of a reduction over the contributed arrays; there is no
    result without a contribution *)
Definition reduction (contributions : list (Q * Q)) : option (Q * Q) :=
  match contributions with
  | [] => None
  | c :: cs => Some (fold_left min_double cs c)
  end.

(** the array a log shows to have been contributed *)
Definition contributed (l : list Entry) : list (Q * Q) :=
  flat_map (fun e => match what e with
                     | Contribute m0 m1 => [(m0, m1)]
                     | _ => []
                     end) l.

(** the pair [{candidate_dt, stop}] behind a contributed array:
    [min_reduce[0] = dt_block; min_reduce[1] = stop_block ? 1.0 : 0.0] *)
Definition min_reduce_of (c : Q * bool) : Q * Q :=
  (fst c, if snd c then 1%Q else 0%Q).

(** what [p_output] reads off the reduced array *)
Definition dt_forest_of (min_reduce : Q * Q) : Q := fst min_reduce.
Definition stop_forest_of (min_reduce : Q * Q) : bool :=
  Qeq_bool (snd min_reduce) 1.

(** ** The vocabulary of the specification *)

(** The 27 offsets [{-1,0,1}^3] in the order of the loops of [refresh]. *)
Definition directions : list int3 :=
  flat_map (fun fx =>
    flat_map (fun fy =>
      map (fun fz => (fx, fy, fz)) [-1; 0; 1]) [-1; 0; 1]) [-1; 0; 1].

(** Manhattan weight: 1 for a face, 2 for an edge, 3 for a corner *)
Definition weight (d : int3) : Z :=
  let '(dx, dy, dz) := d in Z.abs dx + Z.abs dy + Z.abs dz.

(** the refresh class of the direction is switched on:
    [refresh_face(2)] faces, [refresh_face(1)] edges,
    [refresh_face(0)] corners *)
Definition class_enabled (d : int3) : bool :=
  ((weight d =? 1) && refresh_face simulation 2) ||
  ((weight d =? 2) && refresh_face simulation 1) ||
  ((weight d =? 3) && refresh_face simulation 0).

(** local cell count of the block along an axis *)
Definition cells (b : CommBlock) (a : axis_enum) : Z :=
  match a with
  | axis_x => nx_ (block_ b)
  | axis_y => ny_ (block_ b)
  | axis_z => nz_ (block_ b)
  end.

(** Conditions (a) and (b) of the specification for one component [d]
    of a direction: nothing is asked of a zero component; a nonzero
    one needs more than one cell along the axis, and a periodic domain
    or a block that is not on the domain boundary on the side [d]
    points to. *)
Definition component_active (b : CommBlock) (a : axis_enum) (d : Z) : bool :=
  if d =? 0 then true
  else (cells b a >? 1) &&
       (is_periodic simulation ||
        negb (is_on_boundary b a (if d <? 0 then face_lower else face_upper))).

(** The active-direction set [A] as the specification defines it. *)
Definition active (b : CommBlock) (d : int3) : bool :=
  let '(dx, dy, dz) := d in
  component_active b axis_x dx && component_active b axis_y dy &&
  component_active b axis_z dz && class_enabled d.

Definition active_directions (b : CommBlock) : list int3 :=
  filter (active b) directions.

(** [neighbor(index, direction)]: the block index plus the direction,
    wrapped modulo the block count along every axis *)
Definition neighbor (b : CommBlock) (d : int3) : int3 :=
  let '(dx, dy, dz) := d in
  let '(ibx, iby, ibz) := index_ b in
  let '(nbx, nby, nbz) := size_ b in
  ((ibx + dx) mod nbx, (iby + dy) mod nby, (ibz + dz) mod nbz).

(** the ghost messages in a log, in the order they were sent *)
Definition ghost_messages (l : list Entry) : list Effect :=
  map what (filter is_send l).

(** the faces [Boundary::enforce] was called on, in call order *)
Definition enforced (l : list Entry) : list (face_enum * axis_enum) :=
  flat_map (fun e => match what e with
                     | Enforce f a => [(f, a)]
                     | _ => []
                     end) l.

(** The invariant of the data model: the block index lies inside the
    forest, and the chare sits in the chare array at its block index. *)
Definition well_formed (b : CommBlock) : Prop :=
  thisIndex b = index_ b /\
  (forall a, 0 <= at3 (index_ b) a < at3 (size_ b) a).

End CommBlock.

(** ** Auxiliary views of the code, used by the proofs *)

Section Views.

Context {FieldData : Type}.
Variable simulation : @Simulation FieldData.
Implicit Types b : @CommBlock FieldData.

(** the flag of one face after the adjustment for boundary faces, as
    [count_refresh_] and [refresh] compute it *)
Definition face_flag b (a : axis_enum) (f : face_enum) : bool :=
  (cells b a >? 1) &&
  (is_periodic simulation || negb (is_on_boundary b a f)).

Definition flag_of (m p : bool) (d : Z) : bool :=
  if d =? 0 then true else if d <? 0 then m else p.

(** a direction is active, read off the three switches of the refresh
    classes and the six face flags *)
Definition active_of (r0 r1 r2 xm xp ym yp zm zp : bool) (d : int3) : bool :=
  let '(dx, dy, dz) := d in
  flag_of xm xp dx && flag_of ym yp dy && flag_of zm zp dz &&
  (((weight d =? 1) && r2) || ((weight d =? 2) && r1) || ((weight d =? 3) && r0)).

(** [fx3], [fy3], [fz3] of [refresh] *)
Definition refresh_f3 b (a : axis_enum) : bool * bool * bool :=
  (face_flag b a face_lower, true, face_flag b a face_upper).

(** [ix3], [iy3], [iz3] of [refresh] *)
Definition refresh_i3 b (a : axis_enum) : int3 :=
  let i := at3 (thisIndex b) a in
  let n := at3 (size_ b) a in
  (Z.rem (i - 1 + n) n, i, Z.rem (i + 1) n).

(** [fxl], [fyl], [fzl] of [refresh] *)
Definition refresh_limit b (a : axis_enum) : Z :=
  match a with
  | axis_x => 1
  | _ => if (at3 (size_ b) a =? 1) && negb (is_periodic simulation) then 0 else 1
  end.

(** the values of [(fx,fy,fz)] the loops of [refresh] run through *)
Definition loop_directions b : list int3 :=
  flat_map (fun fx =>
    flat_map (fun fy =>
      map (fun fz => (fx, fy, fz))
          (range (- refresh_limit b axis_z) (refresh_limit b axis_z)))
      (range (- refresh_limit b axis_y) (refresh_limit b axis_y)))
    (range (- refresh_limit b axis_x) (refresh_limit b axis_x)).

(** the condition of the loop body of [refresh] *)
Definition sends_face b (d : int3) : bool :=
  let '(fx, fy, fz) := d in
  (get3 false (refresh_f3 b axis_x) (fx + 1) &&
   get3 false (refresh_f3 b axis_y) (fy + 1) &&
   get3 false (refresh_f3 b axis_z) (fz + 1)) &&
  class_enabled simulation d.

(** the message the loop body of [refresh] sends for [(fx,fy,fz)] *)
Definition face_message b (d : int3) : Effect :=
  let '(fx, fy, fz) := d in
  XRefresh (get3 0 (refresh_i3 b axis_x) (fx + 1),
            get3 0 (refresh_i3 b axis_y) (fy + 1),
            get3 0 (refresh_i3 b axis_z) (fz + 1))
           (fst (load simulation d (block_ b)))
           (snd (load simulation d (block_ b)))
           (- fx) (- fy) (- fz).

(** the message the specification asks for in an active direction *)
Definition ghost_message b (d : int3) : Effect :=
  let '(dx, dy, dz) := d in
  XRefresh (neighbor b d)
           (fst (load simulation d (block_ b)))
           (snd (load simulation d (block_ b)))
           (- dx) (- dy) (- dz).

(** a computation that leaves the chare alone and only logs *)
Definition emits (m : M unit) (g : @CommBlock FieldData -> list Entry) : Prop :=
  forall b, m b = (tt, b, g b).

(** the chare with the field data of its block replaced *)
Definition with_data b (d : FieldData) : @CommBlock FieldData :=
  mkCommBlock (mkBlock (nx_ (block_ b)) (ny_ (block_ b)) (nz_ (block_ b)) d)
    (thisIndex b) (index_ b) (size_ b)
    (cycle_ b) (time_ b) (dt_ b) (sync_refresh_ b).

(** the chare with its arrival counter replaced *)
Definition with_sync b (s : Sync) : @CommBlock FieldData :=
  mkCommBlock (block_ b) (thisIndex b) (index_ b) (size_ b)
    (cycle_ b) (time_ b) (dt_ b) s.

(** the six faces in the order [update_boundary_] goes through them *)
Definition faces : list (face_enum * axis_enum) :=
  [(face_lower, axis_x); (face_upper, axis_x);
   (face_lower, axis_y); (face_upper, axis_y);
   (face_lower, axis_z); (face_upper, axis_z)].

(** the condition of the [if] of [update_boundary_] for a face *)
Definition updates_face b (fa : face_enum * axis_enum) : bool :=
  (cells b (snd fa) >? 1) && is_on_boundary b (snd fa) (fst fa).

(** the chare after [Boundary::enforce] ran on the listed faces *)
Definition enforce_all b (l : list (face_enum * axis_enum)) : @CommBlock FieldData :=
  fold_left (fun b' fa => with_data b' (enforce simulation (fst fa) (snd fa) b')) l b.

(** the chare just before [prepare] evaluates the timestep *)
Definition after_boundary b : @CommBlock FieldData :=
  enforce_all b (filter (updates_face b) faces).

(** the chare after the arrival was stored and counted by [x_refresh] *)
Definition arrived b (n : Z) (buf : buffer) (fx fy fz : Z) : @CommBlock FieldData :=
  with_sync
    (if n =? 0 then b
     else with_data b (store simulation (fx, fy, fz) n buf (block_ b)))
    (snd (Sync_done (sync_refresh_ b))).

(** the log of [prepare] on a chare *)
Definition prepare_log b : list Entry :=
  mkEntry (cycle_ b) (Trace "CommBlock::prepare() %p") ::
  map (fun fa => mkEntry (cycle_ b) (Enforce (fst fa) (snd fa)))
      (filter (updates_face b) faces) ++
  [mkEntry (cycle_ b) (Trace "Calling contribute %d");
   mkEntry (cycle_ b)
     (Contribute (dt_block_of simulation (after_boundary b))
        (if complete simulation (cycle_ b) (time_ b) then 1%Q else 0%Q))].

(** the chare with its timestep replaced *)
Definition with_dt b (d : Q) : @CommBlock FieldData :=
  mkCommBlock (block_ b) (thisIndex b) (index_ b) (size_ b)
    (cycle_ b) (time_ b) d (sync_refresh_ b).

(** the chare after the listed Methods ran on it, in order *)
Definition after_methods b (ms : list (@CommBlock FieldData -> FieldData))
  : @CommBlock FieldData :=
  fold_left (fun b' compute_block => with_data b' (compute_block b')) ms b.

(** the chare after the Methods ran and cycle and time were advanced *)
Definition advanced b : @CommBlock FieldData :=
  let b' := after_methods b (method simulation) in
  mkCommBlock (block_ b') (thisIndex b) (index_ b) (size_ b)
    (cycle_ b + 1) (round_double simulation (time_ b + dt_ b)%Q) (dt_ b)
    (sync_refresh_ b).

Definition is_enforce (e : Entry) : bool :=
  match what e with Enforce _ _ => true | _ => false end.

(** a predicate on entries that tells protocol events apart and does
    not look at the calls on the Boundary, the Methods or the ghost
    messages *)
Definition quiet (p : Entry -> bool) : Prop :=
  (forall c f a, p (mkEntry c (Enforce f a)) = false) /\
  (forall c k, p (mkEntry c (ComputeBlock k)) = false) /\
  (forall c i n arr x y z, p (mkEntry c (XRefresh i n arr x y z)) = false).

(** the log of [x_refresh] without the calls on the Boundary *)
Definition x_refresh_events b (n : Z) (buf : buffer) (fx fy fz : Z) : list Entry :=
  if fst (Sync_done (sync_refresh_ b))
  then [mkEntry (cycle_ b) (Trace "CommBlock::x_refresh()");
        mkEntry (cycle_ b) (Trace "CommBlock::x_refresh() calling prepare()");
        mkEntry (cycle_ b) (Trace "CommBlock::prepare() %p");
        mkEntry (cycle_ b) (Trace "Calling contribute %d");
        mkEntry (cycle_ b)
          (Contribute
             (dt_block_of simulation
                (after_boundary (arrived b n buf fx fy fz)))
             (if complete simulation (cycle_ b) (time_ b) then 1%Q else 0%Q))]
  else [mkEntry (cycle_ b) (Trace "CommBlock::x_refresh()")].

(** the log of [p_compute] without the calls on the Methods and the
    Boundary and without the ghost messages *)
Definition p_compute_events b : list Entry :=
  [mkEntry (cycle_ b) (Trace "CommBlock::p_compute() cycle %d time %f dt %f");
   mkEntry (cycle_ b) (Trace "CommBlock::compute()");
   mkEntry (cycle_ b + 1) (Trace "CommBlock::compute() calling refresh()");
   mkEntry (cycle_ b + 1) (Trace "CommBlock::refresh()")] ++
  x_refresh_events (advanced b) 0 [] 0 0 0.

(** the chares and histories a run from a fresh history can lead to *)
Definition reachable (b0 : @CommBlock FieldData) (a : @Actor FieldData) : Prop :=
  exists ms, run simulation (mkActor b0 []) ms = Some a.

(** what holds of a chare and its history between two entry methods;
    [c0] is the cycle the history started at *)
Definition balanced (c0 : Z) (a : @Actor FieldData) : Prop :=
  count is_quorum (history a) = count is_contribute (history a) /\
  (count is_result (history a) <= count is_contribute (history a))%nat /\
  count is_check_in (history a) = count is_result (history a) /\
  (count is_compute (history a) <= count is_check_in (history a))%nat /\
  cycle_ (chare a) = c0 + Z.of_nat (count is_compute (history a)) /\
  Forall (fun e => at_cycle e <= cycle_ (chare a)) (history a).

(** [Q] holds of every entry of [l] and of what precedes it, [l]
    coming after [pre] *)
Definition each_from (Q : list Entry -> Entry -> Prop)
    (pre l : list Entry) : Prop :=
  forall l1 e l2, l = l1 ++ e :: l2 -> Q (pre ++ l1) e.

Definition is_method (e : Entry) : bool :=
  match what e with ComputeBlock _ => true | _ => false end.

(** when [compute] starts, in a history that began at cycle [c0]: it
    is the compute of the cycle the counter shows, and more reduction
    results were delivered and more ghost quorums reached than
    computes were run *)
Definition compute_is_due (c0 : Z) (h1 : list Entry) (e : Entry) : Prop :=
  is_compute e = true ->
  at_cycle e = c0 + Z.of_nat (count is_compute h1) /\
  (count is_compute h1 < count is_result h1)%nat /\
  (count is_compute h1 < count is_quorum h1)%nat.

(** when a ghost message of cycle [c] is sent: [compute] of cycle
    [c - 1] has started, and nothing was contributed to, or delivered
    by, the reduction of cycle [c] yet *)
Definition sends_open_cycle (h1 : list Entry) (e : Entry) : Prop :=
  is_send e = true ->
  (exists e', In e' h1 /\ is_compute e' = true /\ at_cycle e' = at_cycle e - 1) /\
  (forall e', In e' h1 -> is_contribute e' = true \/ is_result e' = true ->
              at_cycle e' < at_cycle e).

(** when [prepare] enforces a boundary or contributes: the arrival
    counter has reached a quorum that no [prepare] has answered yet *)
Definition prepare_at_quorum (h1 : list Entry) (e : Entry) : Prop :=
  is_enforce e = true \/ is_contribute e = true ->
  (count is_contribute h1 < count is_quorum h1)%nat.

(** when [compute] starts, and when it calls a Method: a reduction
    result was delivered that no earlier [compute] has used *)
Definition compute_after_result (h1 : list Entry) (e : Entry) : Prop :=
  (is_compute e = true -> (count is_compute h1 < count is_result h1)%nat) /\
  (is_method e = true ->
   (0 < count is_compute h1 <= count is_result h1)%nat).

(** the order of the protocol events in a history that began at
    cycle [c0] *)
Definition ordered (c0 : Z) (a : @Actor FieldData) : Prop :=
  balanced c0 a /\
  each_from (compute_is_due c0) [] (history a) /\
  each_from sends_open_cycle [] (history a) /\
  each_from prepare_at_quorum [] (history a) /\
  each_from compute_after_result [] (history a).

(** The order of the state machine of the specification, cycles being
    told apart by the cycle counter: the Reduction Result of a cycle is
    delivered before the ghost messages of that cycle are sent, and the
    ghost quorum of a cycle is reached before [compute] of that cycle
    starts. *)
Definition claimed_order (h : list Entry) : Prop :=
  forall h1 e h2, h = h1 ++ e :: h2 ->
    (is_send e = true ->
     exists r, In r h1 /\ is_result r = true /\ at_cycle r = at_cycle e) /\
    (is_compute e = true ->
     exists q, In q h1 /\ is_quorum q = true /\ at_cycle q = at_cycle e).

End Views.

(** ** Example configurations

    A forest whose blocks carry no field data, with a Boundary, a
    FieldFace and a Timestep that do nothing of interest: ghost buffers
    of one byte, a candidate timestep of 1/2, a stop at time 10 or
    cycle 3, no Output and no Method.  Its times and timesteps are
    multiples of 1/2 below 10, whose sums and differences are doubles:
    no sum or difference is rounded. *)

Definition example_simulation (periodic face edge corner : bool)
  : @Simulation unit :=
  mkSimulation periodic
    (fun _ _ _ => tt)
    (fun i => if i =? 2 then face else if i =? 1 then edge
              else if i =? 0 then corner else false)
    (fun _ _ => (1, [x00]))
    (fun _ _ _ _ => tt)
    (fun _ => 1 # 2)
    []
    10%Q
    (fun cycle time => 3 <=? cycle)
    []
    (fun q => q).

(** the block at [index] of a forest of [size] blocks with [cells]
    local cells, as its constructor leaves it *)
Definition example_block (sim : @Simulation unit) (index size cells : int3)
  : @CommBlock unit :=
  let '(ibx, iby, ibz) := index in
  let '(nbx, nby, nbz) := size in
  let '(nx, ny, nz) := cells in
  CommBlock_new sim index ibx iby ibz nbx nby nbz nx ny nz tt.

(** a periodic forest of a single block of 8 x 8 x 8 cells with
    face-only refresh: the block is its own neighbour in six
    directions *)
Definition periodic_simulation : @Simulation unit :=
  example_simulation true true false false.
Definition periodic_block : @CommBlock unit :=
  example_block periodic_simulation (0, 0, 0) (1, 1, 1) (8, 8, 8).

(** the first cycle of that block: six ghost messages and the empty
    message arrive, the reduction delivers [dt = 1/2] and no stop, and
    the Simulation orders the block to compute *)
Definition periodic_messages : list Msg :=
  [MsgXRefresh 1 [x00] 1 0 0; MsgXRefresh 1 [x00] (-1) 0 0;
   MsgXRefresh 1 [x00] 0 1 0; MsgXRefresh 1 [x00] 0 (-1) 0;
   MsgXRefresh 1 [x00] 0 0 1; MsgXRefresh 1 [x00] 0 0 (-1);
   MsgXRefresh 0 [] 0 0 0;
   MsgPOutput (1 # 2, 0%Q);
   MsgPCompute 0 0 (1 # 2)].

(** a forest of a single block that is not periodic: no direction is
    active *)
Definition lonely_simulation : @Simulation unit :=
  example_simulation false true true true.
Definition lonely_block : @CommBlock unit :=
  example_block lonely_simulation (0, 0, 0) (1, 1, 1) (8, 8, 8).

(** a block of 8 x 8 x 1 cells in the middle of a periodic forest of
    3 x 3 x 3 blocks, face-only refresh *)
Definition flat_block : @CommBlock unit :=
  example_block periodic_simulation (1, 1, 1) (3, 3, 3) (8, 8, 1).

(** a block in the lower corner of a periodic forest of 3 x 3 x 3
    blocks *)
Definition corner_block : @CommBlock unit :=
  example_block periodic_simulation (0, 0, 0) (3, 3, 3) (8, 8, 8).

(** what is left of a run that the environment did not allow *)
Definition run_or (a : @Actor unit) (o : option (@Actor unit)) : @Actor unit :=
  match o with Some a' => a' | None => a end.

(** the actor of the periodic block after its first cycle *)
Definition periodic_actor : @Actor unit :=
  Eval vm_compute in
    run_or (mkActor periodic_block [])
      (run periodic_simulation (mkActor periodic_block []) periodic_messages).

(** ** The forest around a block *)

(** ** Double arithmetic at work

    IEEE 754 binary64 rounding to nearest, ties to even, of a rational
    whose magnitude is that of a normal double: the significand
    [m] has 53 bits, [2^52 <= m < 2^53], and the result is
    [m * 2^e]. *)
Definition binary64 (q : Q) : Q :=
  let n := Qnum q in
  let d := Z.pos (Qden q) in
  if n =? 0 then 0%Q
  else
    let a := Z.abs n in
    (* a / d / 2^e as a fraction *)
    let scaled (e : Z) : Z * Z :=
      if 0 <=? e then (a, d * 2 ^ e) else (a * 2 ^ (- e), d) in
    (* 2^51 < a / d / 2^e0 < 2^53 *)
    let e0 := Z.log2 a - Z.log2 d - 52 in
    let e := if fst (scaled e0) / snd (scaled e0) <? 2 ^ 52
             then e0 - 1 else e0 in
    let '(num, den) := scaled e in
    let m := num / den in
    let r := num mod den in
    let m' := match 2 * r ?= den with
              | Lt => m
              | Gt => m + 1
              | Eq => if Z.even m then m else m + 1
              end in
    let v := if 0 <=? e then inject_Z (m' * 2 ^ e)
             else Qred (m' # Z.to_pos (2 ^ (- e))) in
    if n <? 0 then Qopp v else v.

(** the rational a double of the proof assistant denotes *)
Definition Q_of_float (f : float) : Q :=
  match Prim2SF f with
  | S754_finite s m e =>
      let v := if 0 <=? e then inject_Z (Z.pos m * 2 ^ e)
               else Qred (Z.pos m # Z.to_pos (2 ^ (- e))) in
      if s then Qopp v else v
  | _ => 0%Q
  end.

(** a forest of a single block, not periodic, on a machine with
    binary64 arithmetic: a Timestep that always answers 100 and a stop
    at the time 0.9 *)
Definition double_simulation : @Simulation unit :=
  mkSimulation false
    (fun _ _ _ => tt)
    (fun _ => true)
    (fun _ _ => (1, [x00]))
    (fun _ _ _ _ => tt)
    (fun _ => 100%Q)
    []
    (binary64 (9 # 10))
    (fun cycle time => false)
    []
    binary64.

(** its block at the time 0.3 *)
Definition late_block : @CommBlock unit :=
  mkCommBlock (mkBlock 8 8 8 tt) (0, 0, 0) (0, 0, 0) (1, 1, 1)
    0 (binary64 (3 # 10)) 0%Q (mkSync 1 0).

(** ** A Boundary that leaves a mark

    A forest of a single block, not periodic, whose field data is a
    counter: [Boundary::enforce] adds one to it, [FieldFace::store]
    leaves it alone. *)
Definition counting_simulation : @Simulation Z :=
  mkSimulation false
    (fun _ _ b => field_data (block_ b) + 1)
    (fun _ => true)
    (fun _ _ => (1, [x00]))
    (fun _ _ _ block => field_data block)
    (fun _ => 1 # 2)
    []
    10%Q
    (fun cycle time => 3 <=? cycle)
    []
    (fun q => q).

Definition counting_block : @CommBlock Z :=
  CommBlock_new counting_simulation (0, 0, 0) 0 0 0 1 1 1 8 8 8 0.

Section Forest.

Context {FieldData : Type}.
Variable simulation : @Simulation FieldData.
Implicit Types b : @CommBlock FieldData.

(** the opposite direction *)
Definition opposite (d : int3) : int3 :=
  let '(dx, dy, dz) := d in (- dx, - dy, - dz).

Definition eqb3 (i j : int3) : bool :=
  let '(ix, iy, iz) := i in
  let '(jx, jy, jz) := j in
  (ix =? jx) && (iy =? jy) && (iz =? jz).

(** the ghost message is addressed to the element [j] of the chare
    array *)
Definition addressed_to (j : int3) (e : Effect) : bool :=
  match e with
  | XRefresh index _ _ _ _ _ => eqb3 index j
  | _ => false
  end.

(** the indices of a forest of [size] blocks *)
Definition forest_indices (size : int3) : list int3 :=
  let '(nbx, nby, nbz) := size in
  flat_map (fun ix =>
    flat_map (fun iy =>
      map (fun iz => (ix, iy, iz)) (range 0 (nbz - 1)))
      (range 0 (nby - 1)))
    (range 0 (nbx - 1)).

(** two blocks of one forest: the same number of blocks and the same
    local cell counts along every axis *)
Definition same_forest b b' : Prop :=
  size_ b = size_ b' /\ forall a, cells b a = cells b' a.

(** a forest of [size] blocks with [ncells] local cells each: the
    chare at every index holds the block of that index *)
Definition uniform_forest (F : int3 -> @CommBlock FieldData)
    (size ncells : int3) : Prop :=
  forall i, In i (forest_indices size) ->
    thisIndex (F i) = i /\ index_ (F i) = i /\ size_ (F i) = size /\
    forall a, cells (F i) a = at3 ncells a.

(** the ghost messages the element [j] is sent when every block of the
    forest runs [refresh] once *)
Definition received (F : int3 -> @CommBlock FieldData) (size j : int3)
  : list Effect :=
  flat_map (fun i =>
    filter (addressed_to j)
           (ghost_messages (log_of (refresh simulation (F i)))))
    (forest_indices size).

(** the offsets [-1, 0, 1] along an axis that a block may exchange
    ghost zones in *)
Definition admissible_offsets b (a : axis_enum) : list Z :=
  filter (component_active simulation b a) [-1; 0; 1].

End Forest.

(** a ghost message, as opposed to the callbacks of the reduction and
    of the Simulation *)
Definition is_ghost (m : Msg) : bool :=
  match m with MsgXRefresh _ _ _ _ _ => true | _ => false end.

(** the ghost messages and the empty message of the first cycle of the
    periodic block *)
Definition periodic_arrivals : list Msg := firstn 7 periodic_messages.

(** the periodic forest of 3 x 3 x 3 blocks of 8 x 8 x 8 cells *)
Definition example_forest (i : int3) : @CommBlock unit :=
  example_block periodic_simulation i (3, 3, 3) (8, 8, 8).

(** the neighbour of the corner block in the direction (1, 0, 0) *)
Definition east_block : @CommBlock unit := example_forest (1, 0, 0).

(** * ParticleDescr: particle types, attributes and their layout

    A shallow embedding of [src/Cello/data_ParticleDescr.cpp].

    Conventions of the embedding.
    - A [std::vector] is a list; [v[i]] outside the vector is
      undefined behaviour, [v.at(i)] outside the vector throws.
    - A [std::map<std::string,int>] is a partial function on strings:
      [find] is application, [m[key] = value] is [assign].
    - [Aborts m] is the failure of an [ASSERT] whose message is [m];
      a [WARNING] only prints.
    - The checks under [#ifdef CELLO_CHECK] are switched by the
      parameter [cello_check].
    - An [int] is a [Z].  Counts, sizes and offsets stay far below the
      range of [int]; the division of [index], whose operands are
      arguments, is undefined where the division of [int] is. *)

Module ParticleDescr.

(** how a call ends *)
Inductive outcome (A : Type) : Type :=
| Returns (a : A)
| Aborts (message : string)
| Throws
| Undefined.
Arguments Returns {A} a.
Arguments Aborts {A} message.
Arguments Throws {A}.
Arguments Undefined {A}.

Definition map_string_int : Type := string -> option Z.

Definition assign (m : map_string_int) (key : string) (value : Z)
  : map_string_int :=
  fun k => if String.eqb k key then Some value else m k.

(** [v[i]], where it is defined *)
Definition element {A : Type} (v : list A) (i : Z) : option A :=
  if i <? 0 then None else nth_error v (Z.to_nat i).

(** [v[i] = x] inside the vector *)
Fixpoint store_at {A : Type} (v : list A) (i : nat) (x : A) : list A :=
  match v, i with
  | [], _ => []
  | _ :: v', O => x :: v'
  | y :: v', S i' => y :: store_at v' i' x
  end.

(** [v.resize(n)] with the default value [x] *)
Definition resize {A : Type} (v : list A) (n : nat) (x : A) : list A :=
  firstn n v ++ repeat x (n - List.length v).

(** an [int] stored in a [char] of the vector of attribute sizes *)
Definition to_char (z : Z) : Z := (z + 128) mod 256 - 128.

Record descr : Type := mkDescr {
  type_name_ : list string;
  type_index_ : map_string_int;
  attribute_name_ : list (list string);
  attribute_index_ : list map_string_int;
  attribute_bytes_ : list (list Z);
  attribute_offset_ : list (list Z);
  attribute_interleaved_ : list bool;
  batch_size_ : Z
}.

(** [ParticleDescr::ParticleDescr] *)
Definition new_descr : descr :=
  mkDescr [] (fun _ => None) [] [] [] [] [] 1.

(** [ParticleDescr::num_types] *)
Definition num_types (d : descr) : Z := Z.of_nat (List.length (type_name_ d)).

(** [ParticleDescr::new_type] *)
Definition new_type (cello_check : bool) (d : descr) (type_name : string)
  : outcome (Z * descr) :=
  let nt := num_types d in
  if cello_check && existsb (String.eqb type_name) (type_name_ d)
  then Aborts "Particle type %s already exists"
  else
    Returns (nt,
      mkDescr (type_name_ d ++ [type_name])
              (assign (type_index_ d) type_name nt)
              (resize (attribute_name_ d) (Z.to_nat (nt + 1)) [])
              (resize (attribute_index_ d) (Z.to_nat (nt + 1)) (fun _ => None))
              (resize (attribute_bytes_ d) (Z.to_nat (nt + 1)) [])
              (resize (attribute_offset_ d) (Z.to_nat (nt + 1)) [])
              (attribute_interleaved_ d ++ [false])
              (batch_size_ d)).

(** [ParticleDescr::type_index]; the value [-1] comes with a WARNING *)
Definition type_index (d : descr) (type_name : string) : Z :=
  match type_index_ d type_name with
  | Some i => i
  | None => -1
  end.

(** [ParticleDescr::type_name] *)
Definition type_name (d : descr) (it : Z) : outcome string :=
  if (0 <=? it) && (it <? Z.of_nat (List.length (type_name_ d)))
  then match element (type_name_ d) it with
       | Some s => Returns s
       | None => Undefined
       end
  else Aborts "Trying to access unknown particle index %d".

(** [ParticleDescr::num_attributes] *)
Definition num_attributes (d : descr) (it : Z) : outcome Z :=
  match element (attribute_name_ d) it with
  | Some names => Returns (Z.of_nat (List.length names))
  | None => Undefined
  end.

(** [ParticleDescr::set_interleaved] *)
Definition set_interleaved (d : descr) (it : Z) (interleaved : bool)
  : outcome descr :=
  match element (attribute_interleaved_ d) it with
  | Some _ =>
      Returns (mkDescr (type_name_ d) (type_index_ d) (attribute_name_ d)
                 (attribute_index_ d) (attribute_bytes_ d)
                 (attribute_offset_ d)
                 (store_at (attribute_interleaved_ d) (Z.to_nat it) interleaved)
                 (batch_size_ d))
  | None => Undefined
  end.

(** [ParticleDescr::interleaved] *)
Definition interleaved (d : descr) (it : Z) : outcome bool :=
  match element (attribute_interleaved_ d) it with
  | Some i => Returns i
  | None => Throws
  end.

(** the offset [new_attribute] computes for an attribute of
    [attribute_bytes] bytes that follows one at [previous] *)
Definition aligned_offset (previous : option (Z * Z)) (attribute_bytes : Z)
  : outcome Z :=
  let offset := match previous with
                | Some (offset_prev, bytes_prev) => offset_prev + bytes_prev
                | None => 0
                end in
  if attribute_bytes =? 0 then Undefined
  else
    let align := Z.rem offset attribute_bytes in
    Returns (if negb (align =? 0) then offset + (attribute_bytes - align)
             else offset).

(** [ParticleDescr::new_attribute], built without [CELLO_CHECK] *)
Definition new_attribute (d : descr) (it : Z) (attribute_name : string)
    (attribute_bytes : Z) : outcome (Z * descr) :=
  match element (attribute_name_ d) it, element (attribute_index_ d) it,
        element (attribute_bytes_ d) it, element (attribute_offset_ d) it,
        element (attribute_interleaved_ d) it with
  | Some names, Some index, Some bytes, Some offsets, Some is_interleaved =>
      let ia := Z.of_nat (List.length names) in
      let names' := names ++ [attribute_name] in
      let index' := assign index attribute_name ia in
      let bytes' := bytes ++ [to_char attribute_bytes] in
      if is_interleaved then
        let previous :=
          if ia >? 0
          then match element offsets (ia - 1), element bytes' (ia - 1) with
               | Some o, Some s => Returns (Some (o, s))
               | _, _ => Undefined
               end
          else Returns None in
        match previous with
        | Returns prev =>
            match aligned_offset prev attribute_bytes with
            | Returns offset =>
                Returns (ia,
                  mkDescr (type_name_ d) (type_index_ d)
                    (store_at (attribute_name_ d) (Z.to_nat it) names')
                    (store_at (attribute_index_ d) (Z.to_nat it) index')
                    (store_at (attribute_bytes_ d) (Z.to_nat it) bytes')
                    (store_at (attribute_offset_ d) (Z.to_nat it)
                       (offsets ++ [offset]))
                    (attribute_interleaved_ d) (batch_size_ d))
            | Aborts m => Aborts m
            | Throws => Throws
            | Undefined => Undefined
            end
        | Aborts m => Aborts m
        | Throws => Throws
        | Undefined => Undefined
        end
      else Aborts "Non-interleaved particles not implemented"
  | _, _, _, _, _ => Undefined
  end.

(** [ParticleDescr::attribute_index]; [-1] comes with a WARNING *)
Definition attribute_index (d : descr) (it : Z) (attribute_name : string)
  : outcome Z :=
  match element (attribute_index_ d) it with
  | Some index =>
      Returns (match index attribute_name with Some i => i | None => -1 end)
  | None => Undefined
  end.

(** [ParticleDescr::attribute_name] *)
Definition attribute_name (d : descr) (it ia : Z) : outcome string :=
  if (0 <=? it) && (it <? Z.of_nat (List.length (type_name_ d)))
  then match element (attribute_name_ d) it with
       | Some names =>
           if (0 <=? ia) && (ia <? Z.of_nat (List.length names))
           then match element names ia with
                | Some s => Returns s
                | None => Undefined
                end
           else Aborts "Trying to access unknown particle attribute %d"
       | None => Undefined
       end
  else Aborts "Trying to access unknown particle index %d".

(** the loop of [attribute_bytes(it)]: the sum and the maximum of the
    sizes, starting from [0] and [-1] *)
Definition sum_and_max (bytes : list Z) : Z * Z :=
  fold_left (fun sm b => (fst sm + b, Z.max (snd sm) b)) bytes (0, -1).

(** the value [attribute_bytes(it)] returns for the sizes of a type *)
Definition rounded_bytes (bytes : list Z) : outcome Z :=
  let '(sum, max) := sum_and_max bytes in
  if max =? 0 then Undefined
  else Returns ((Z.quot (sum - 1) max + 1) * max).

(** [ParticleDescr::attribute_bytes(int it)] *)
Definition attribute_bytes_of_type (d : descr) (it : Z) : outcome Z :=
  match element (attribute_bytes_ d) it with
  | Some bytes => rounded_bytes bytes
  | None => Undefined
  end.

(** [ParticleDescr::attribute_bytes(int it, int ia)] *)
Definition attribute_bytes (d : descr) (it ia : Z) : outcome Z :=
  match element (attribute_bytes_ d) it with
  | Some bytes =>
      match element bytes ia with
      | Some b => Returns b
      | None => Undefined
      end
  | None => Undefined
  end.

(** [ParticleDescr::attribute_offset] *)
Definition attribute_offset (d : descr) (it ia : Z) : outcome Z :=
  match element (attribute_offset_ d) it with
  | Some offsets =>
      match element offsets ia with
      | Some o => Returns o
      | None => Undefined
      end
  | None => Undefined
  end.

(** [ParticleDescr::stride] *)
Definition stride (d : descr) (it ia : Z) : outcome Z :=
  match element (attribute_interleaved_ d) it with
  | Some true =>
      match attribute_bytes_of_type d it, attribute_bytes d it ia with
      | Returns total, Returns b =>
          if b =? 0 then Undefined else Returns (Z.quot total b)
      | Returns _, o => o
      | o, _ => o
      end
  | Some false => Returns 1
  | None => Undefined
  end.

(** [ParticleDescr::set_batch_size] and [ParticleDescr::batch_size] *)
Definition set_batch_size (d : descr) (mb : Z) : descr :=
  mkDescr (type_name_ d) (type_index_ d) (attribute_name_ d)
    (attribute_index_ d) (attribute_bytes_ d) (attribute_offset_ d)
    (attribute_interleaved_ d) mb.

Definition batch_size (d : descr) : Z := batch_size_ d.

(** [ParticleDescr::index]: the batch index and the index in the
    batch.  The division of an [int] is undefined for the divisor 0
    and for [INT_MIN / -1], whose quotient is no [int]. *)
Definition index (d : descr) (i : Z) : outcome (Z * Z) :=
  if batch_size_ d =? 0 then Undefined
  else if (i =? -2147483648) && (batch_size_ d =? -1) then Undefined
  else Returns (Z.quot i (batch_size_ d), Z.rem i (batch_size_ d)).

(** declaring the types of a list, in order *)
Fixpoint new_types (cello_check : bool) (d : descr) (names : list string)
  : outcome (list Z * descr) :=
  match names with
  | [] => Returns ([], d)
  | name :: rest =>
      match new_type cello_check d name with
      | Returns (id, d') =>
          match new_types cello_check d' rest with
          | Returns (ids, d'') => Returns (id :: ids, d'')
          | o => o
          end
      | Aborts m => Aborts m
      | Throws => Throws
      | Undefined => Undefined
      end
  end.

(** declaring the attributes [(name, bytes)] of a list for the type
    [it], in order *)
Fixpoint new_attributes (d : descr) (it : Z) (attributes : list (string * Z))
  : outcome (list Z * descr) :=
  match attributes with
  | [] => Returns ([], d)
  | (name, bytes) :: rest =>
      match new_attribute d it name bytes with
      | Returns (id, d') =>
          match new_attributes d' it rest with
          | Returns (ids, d'') => Returns (id :: ids, d'')
          | o => o
          end
      | Aborts m => Aborts m
      | Throws => Throws
      | Undefined => Undefined
      end
  end.

(** the next multiple of [attribute_bytes] at or after [offset], as
    [new_attribute] computes it *)
Definition align_up (offset attribute_bytes : Z) : Z :=
  if Z.rem offset attribute_bytes =? 0 then offset
  else offset + (attribute_bytes - Z.rem offset attribute_bytes).

(** the offsets [new_attribute] gives to attributes of the given
    sizes, declared in order after an attribute that ends at [finish] *)
Fixpoint offsets_from (finish : Z) (sizes : list Z) : list Z :=
  match sizes with
  | [] => []
  | s :: rest =>
      align_up finish s :: offsets_from (align_up finish s + to_char s) rest
  end.

(** what a descriptor holds for the type [it] *)
Definition slot (d : descr) (it : Z)
  : option (list string * map_string_int * list Z * list Z * bool) :=
  match element (attribute_name_ d) it, element (attribute_index_ d) it,
        element (attribute_bytes_ d) it, element (attribute_offset_ d) it,
        element (attribute_interleaved_ d) it with
  | Some names, Some index, Some bytes, Some offsets, Some il =>
      Some (names, index, bytes, offsets, il)
  | _, _, _, _, _ => None
  end.

(** the byte after the last attribute of a layout *)
Definition finish_of (bytes offsets : list Z) : Z :=
  match rev offsets, rev bytes with
  | o :: _, s :: _ => o + s
  | _, _ => 0
  end.

(** a client of the interface: declare the types [names], make the
    type [it] interleaved and declare its attributes *)
Definition declare (cello_check : bool) (names : list string) (it : Z)
    (attributes : list (string * Z)) : outcome descr :=
  match new_types cello_check new_descr names with
  | Returns (_, d) =>
      match set_interleaved d it true with
      | Returns d1 =>
          match new_attributes d1 it attributes with
          | Returns (_, d2) => Returns d2
          | Aborts m => Aborts m
          | Throws => Throws
          | Undefined => Undefined
          end
      | Aborts m => Aborts m
      | Throws => Throws
      | Undefined => Undefined
      end
  | Aborts m => Aborts m
  | Throws => Throws
  | Undefined => Undefined
  end.

(** a descriptor whose types have no attribute yet and are not
    interleaved *)
Definition fresh_shape (d : descr) : Prop :=
  let n := List.length (type_name_ d) in
  attribute_name_ d = repeat [] n /\
  attribute_index_ d = repeat (fun _ => None) n /\
  attribute_bytes_ d = repeat [] n /\
  attribute_offset_ d = repeat [] n /\
  attribute_interleaved_ d = repeat false n.

(** the test of the [ASSERT1] of [new_attribute] under [CELLO_CHECK]:
    [b && !(b & (b-1))] *)
Definition is_power_of_two (b : Z) : bool :=
  negb (b =? 0) && (Z.land b (b - 1) =? 0).

(** the sum of the sizes of a list *)
Definition total_size (sizes : list Z) : Z := fold_right Z.add 0 sizes.

(** the map of the type names and the vector of the type names agree *)
Definition types_consistent (d : descr) : Prop :=
  forall name i,
    type_index_ d name = Some i <-> element (type_name_ d) i = Some name.

(** ** An example descriptor

    Two particle types; the type 1 is interleaved and has four
    attributes. *)

Definition example_names : list string := ["dark"; "star"]%string.

Definition example_attributes : list (string * Z) :=
  [("x", 4); ("y", 4); ("id", 8); ("flag", 1)]%string.

Definition example_types : descr :=
  match new_types false new_descr example_names with
  | Returns (_, d) => d
  | _ => new_descr
  end.

End ParticleDescr.

(** * Properties *)

Section Properties.

Context {FieldData : Type}.
Variable simulation : @Simulation FieldData.
Implicit Types b : @CommBlock FieldData.

(** ** The quorum counts the active directions *)

Lemma active_active_of b (d : int3) :
  active simulation b d =
  active_of (refresh_face simulation 0) (refresh_face simulation 1)
            (refresh_face simulation 2)
            (face_flag simulation b axis_x face_lower)
            (face_flag simulation b axis_x face_upper)
            (face_flag simulation b axis_y face_lower)
            (face_flag simulation b axis_y face_upper)
            (face_flag simulation b axis_z face_lower)
            (face_flag simulation b axis_z face_upper) d.
Proof.
  destruct d as [[dx dy] dz].
  unfold active, active_of, component_active, class_enabled, flag_of, face_flag.
  destruct (dx =? 0), (dx <? 0), (dy =? 0), (dy <? 0), (dz =? 0), (dz <? 0);
    reflexivity.
Qed.

Lemma count_refresh_active b :
  count_refresh_ simulation b =
  1 + Z.of_nat (List.length (active_directions simulation b)).
Proof.
  unfold active_directions.
  rewrite (filter_ext _ _ (active_active_of b)).
  unfold count_refresh_. cbv zeta.
  change (nx_ (block_ b)) with (cells b axis_x).
  change (ny_ (block_ b)) with (cells b axis_y).
  change (nz_ (block_ b)) with (cells b axis_z).
  fold (face_flag simulation b axis_x face_lower).
  fold (face_flag simulation b axis_x face_upper).
  fold (face_flag simulation b axis_y face_lower).
  fold (face_flag simulation b axis_y face_upper).
  fold (face_flag simulation b axis_z face_lower).
  fold (face_flag simulation b axis_z face_upper).
  generalize (face_flag simulation b axis_x face_lower)
             (face_flag simulation b axis_x face_upper)
             (face_flag simulation b axis_y face_lower)
             (face_flag simulation b axis_y face_upper)
             (face_flag simulation b axis_z face_lower)
             (face_flag simulation b axis_z face_upper)
             (refresh_face simulation 0) (refresh_face simulation 1)
             (refresh_face simulation 2).
  intros xm xp ym yp zm zp r0 r1 r2.
  destruct r0, r1, r2, xm, xp, ym, yp, zm, zp; vm_compute; reflexivity.
Qed.

(** ** Running the member functions *)

Lemma emits_when (c : bool) (m : M unit) g :
  emits m g -> emits (when c m) (fun b => if c then g b else []).
Proof. intros H b. destruct c; simpl; [apply H | reflexivity]. Qed.

Lemma emits_for_ {A : Type} (l : list A) (body : A -> M unit) g :
  (forall i, emits (body i) (g i)) ->
  emits (for_ l body) (fun b => flat_map (fun i => g i b) l).
Proof.
  intros H b. induction l as [|i l IH]; simpl.
  - reflexivity.
  - unfold bind. rewrite (H i b), IH. reflexivity.
Qed.

Lemma emits_send_face (index : int3) (fx fy fz : Z) :
  emits (send_face simulation index fx fy fz)
        (fun b => [mkEntry (cycle_ b)
                     (XRefresh index
                        (fst (load simulation (fx, fy, fz) (block_ b)))
                        (snd (load simulation (fx, fy, fz) (block_ b)))
                        (- fx) (- fy) (- fz))]).
Proof.
  intros b. unfold send_face, bind, get, emit.
  destruct (load simulation (fx, fy, fz) (block_ b)); reflexivity.
Qed.


Lemma flat_map_if {A B : Type} (p : A -> bool) (f : A -> B) (l : list A) :
  flat_map (fun x => if p x then [f x] else []) l = map f (filter p l).
Proof.
  induction l as [|x l IH]; simpl; [reflexivity|].
  destruct (p x); simpl; rewrite IH; reflexivity.
Qed.

Lemma flat_map_nested {A B C : Type} (f : A -> list B) (g : B -> list C) (l : list A) :
  flat_map g (flat_map f l) = flat_map (fun x => flat_map g (f x)) l.
Proof.
  induction l as [|x l IH]; simpl; [reflexivity|].
  rewrite flat_map_app, IH. reflexivity.
Qed.

Lemma flat_map_of_map {A B C : Type} (f : A -> B) (g : B -> list C) (l : list A) :
  flat_map g (map f l) = flat_map (fun x => g (f x)) l.
Proof.
  induction l as [|x l IH]; simpl; [reflexivity|]. rewrite IH. reflexivity.
Qed.

Lemma emits_loops (rx ry rz : list Z) (c : Z -> Z -> Z -> bool)
    (I : Z -> Z -> Z -> int3) :
  emits
    (for_ rx (fun fx => for_ ry (fun fy => for_ rz (fun fz =>
       when (c fx fy fz) (send_face simulation (I fx fy fz) fx fy fz)))))
    (fun b =>
       map (fun d : int3 =>
              let '(fx, fy, fz) := d in
              mkEntry (cycle_ b)
                (XRefresh (I fx fy fz)
                   (fst (load simulation (fx, fy, fz) (block_ b)))
                   (snd (load simulation (fx, fy, fz) (block_ b)))
                   (- fx) (- fy) (- fz)))
           (filter (fun d : int3 => let '(fx, fy, fz) := d in c fx fy fz)
              (flat_map (fun fx =>
                 flat_map (fun fy => map (fun fz => (fx, fy, fz)) rz) ry) rx))).
Proof.
  intros b.
  rewrite (emits_for_ rx _ (fun fx b =>
             flat_map (fun fy => flat_map (fun fz =>
               if c fx fy fz
               then [mkEntry (cycle_ b)
                       (XRefresh (I fx fy fz)
                          (fst (load simulation (fx, fy, fz) (block_ b)))
                          (snd (load simulation (fx, fy, fz) (block_ b)))
                          (- fx) (- fy) (- fz))]
               else []) rz) ry)).
  - f_equal. rewrite <- flat_map_if, flat_map_nested.
    apply flat_map_ext; intros fx.
    rewrite flat_map_nested. apply flat_map_ext; intros fy.
    rewrite flat_map_of_map. reflexivity.
  - intros fx. apply (emits_for_ ry _ (fun fy b => flat_map (fun fz =>
               if c fx fy fz
               then [mkEntry (cycle_ b)
                       (XRefresh (I fx fy fz)
                          (fst (load simulation (fx, fy, fz) (block_ b)))
                          (snd (load simulation (fx, fy, fz) (block_ b)))
                          (- fx) (- fy) (- fz))]
               else []) rz)).
    intros fy. apply (emits_for_ rz _ (fun fz b =>
               if c fx fy fz
               then [mkEntry (cycle_ b)
                       (XRefresh (I fx fy fz)
                          (fst (load simulation (fx, fy, fz) (block_ b)))
                          (snd (load simulation (fx, fy, fz) (block_ b)))
                          (- fx) (- fy) (- fz))]
               else [])).
    intros fz. apply emits_when, emits_send_face.
Qed.

Lemma refresh_run b :
  refresh simulation b =
  (tt, state_of (x_refresh simulation 0 [] 0 0 0 b),
   mkEntry (cycle_ b) (Trace "CommBlock::refresh()") ::
   map (fun d => mkEntry (cycle_ b) (face_message simulation b d))
       (filter (sends_face simulation b) (loop_directions simulation b)) ++
   log_of (x_refresh simulation 0 [] 0 0 0 b)).
Proof.
  unfold refresh.
  unfold bind at 1. unfold TRACE at 1, emit at 1.
  unfold bind at 1. unfold get at 1.
  unfold loop_directions, sends_face, face_message, refresh_f3, refresh_i3,
    refresh_limit, face_flag, class_enabled, weight, cells, determine_boundary_.
  destruct (thisIndex b) as [[ibx iby] ibz].
  destruct (size_ b) as [[nbx nby] nbz].
  unfold bind at 1.
  rewrite emits_loops.
  unfold at3.
  destruct (x_refresh simulation 0 [] 0 0 0 b) as [[u b'] l].
  destruct u. unfold state_of, log_of. simpl fst. simpl snd.
  rewrite app_nil_l.
  match goal with
  | |- (_, _, _ ++ ?x ++ _) = (_, _, _ :: ?y ++ _) =>
      assert (E : x = y); [| rewrite E; reflexivity]
  end.
  erewrite filter_ext; [apply map_ext|];
    intros [[fx fy] fz]; reflexivity.
Qed.

(** ** What [refresh] sends *)

Lemma in_directions (d : int3) :
  In d directions <->
  let '(dx, dy, dz) := d in
  (dx = -1 \/ dx = 0 \/ dx = 1) /\ (dy = -1 \/ dy = 0 \/ dy = 1) /\
  (dz = -1 \/ dz = 0 \/ dz = 1).
Proof.
  destruct d as [[dx dy] dz]. split.
  - intros H. unfold directions in H. simpl in H.
    repeat (destruct H as [H|H]; [injection H; intros; subst; lia|]).
    contradiction.
  - intros (Hx & Hy & Hz). unfold directions. simpl.
    destruct Hx as [ -> | [ -> | -> ] ], Hy as [ -> | [ -> | -> ] ], Hz as [ -> | [ -> | -> ] ]; tauto.
Qed.

Lemma sends_face_active_of b (d : int3) :
  In d directions ->
  sends_face simulation b d =
  active_of (refresh_face simulation 0) (refresh_face simulation 1)
            (refresh_face simulation 2)
            (face_flag simulation b axis_x face_lower)
            (face_flag simulation b axis_x face_upper)
            (face_flag simulation b axis_y face_lower)
            (face_flag simulation b axis_y face_upper)
            (face_flag simulation b axis_z face_lower)
            (face_flag simulation b axis_z face_upper) d.
Proof.
  intros H. apply in_directions in H. destruct d as [[dx dy] dz].
  destruct H as (Hx & Hy & Hz).
  destruct Hx as [ -> | [ -> | -> ] ], Hy as [ -> | [ -> | -> ] ], Hz as [ -> | [ -> | -> ] ];
    reflexivity.
Qed.

(** a single block along a non-periodic axis lies on both boundaries *)
Lemma single_block_flag b (a : axis_enum) (f : face_enum) :
  well_formed b ->
  (at3 (size_ b) a =? 1) && negb (is_periodic simulation) = true ->
  face_flag simulation b a f = false.
Proof.
  intros [_ Hwf] H. apply andb_true_iff in H. destruct H as [Hn Hp].
  apply Z.eqb_eq in Hn. specialize (Hwf a).
  unfold face_flag, is_on_boundary.
  destruct (is_periodic simulation); [discriminate|].
  assert (Hi : at3 (index_ b) a = 0) by lia.
  rewrite Hi, Hn. destruct f; simpl; apply andb_false_r.
Qed.

Lemma refresh_directions b :
  well_formed b ->
  filter (sends_face simulation b) (loop_directions simulation b) =
  active_directions simulation b.
Proof.
  intros Hwf. unfold active_directions.
  rewrite (filter_ext _ _ (active_active_of b)).
  assert (Hsub : incl (loop_directions simulation b) directions).
  { unfold loop_directions, refresh_limit.
    destruct ((at3 (size_ b) axis_y =? 1) && negb (is_periodic simulation)),
             ((at3 (size_ b) axis_z =? 1) && negb (is_periodic simulation));
      intros d Hd; vm_compute in Hd; vm_compute; tauto. }
  rewrite (filter_ext_in _ _ _
             (fun d Hd => sends_face_active_of b d (Hsub d Hd))).
  clear Hsub.
  unfold loop_directions, refresh_limit.
  destruct ((at3 (size_ b) axis_y =? 1) && negb (is_periodic simulation)) eqn:Ey;
  destruct ((at3 (size_ b) axis_z =? 1) && negb (is_periodic simulation)) eqn:Ez;
    try rewrite !(single_block_flag b axis_y _ Hwf Ey);
    try rewrite !(single_block_flag b axis_z _ Hwf Ez);
    generalize (face_flag simulation b axis_x face_lower)
               (face_flag simulation b axis_x face_upper)
               (refresh_face simulation 0) (refresh_face simulation 1)
               (refresh_face simulation 2);
    intros xm xp r0 r1 r2.
  - destruct r0, r1, r2, xm, xp; vm_compute; reflexivity.
  - generalize (face_flag simulation b axis_z face_lower)
               (face_flag simulation b axis_z face_upper); intros zm zp.
    destruct r0, r1, r2, xm, xp, zm, zp; vm_compute; reflexivity.
  - generalize (face_flag simulation b axis_y face_lower)
               (face_flag simulation b axis_y face_upper); intros ym yp.
    destruct r0, r1, r2, xm, xp, ym, yp; vm_compute; reflexivity.
  - reflexivity.
Qed.

Lemma wrap_index (i n d : Z) :
  0 <= i < n -> d = -1 \/ d = 0 \/ d = 1 ->
  get3 0 (Z.rem (i - 1 + n) n, i, Z.rem (i + 1) n) (d + 1) = (i + d) mod n.
Proof.
  intros Hi [ -> | [ -> | -> ] ]; simpl.
  - rewrite Z.rem_mod_nonneg by lia.
    replace (i - 1 + n) with (i + -1 + 1 * n) by lia.
    apply Z_mod_plus_full.
  - rewrite Z.add_0_r, Z.mod_small by lia. reflexivity.
  - rewrite Z.rem_mod_nonneg by lia. reflexivity.
Qed.

Lemma face_message_ghost_message b (d : int3) :
  well_formed b -> In d directions ->
  face_message simulation b d = ghost_message simulation b d.
Proof.
  intros [Hidx Hwf] Hd. apply in_directions in Hd.
  destruct d as [[dx dy] dz]. destruct Hd as (Hx & Hy & Hz).
  unfold face_message, ghost_message, neighbor, refresh_i3.
  rewrite Hidx.
  pose proof (Hwf axis_x) as Wx. pose proof (Hwf axis_y) as Wy.
  pose proof (Hwf axis_z) as Wz.
  destruct (index_ b) as [[ibx iby] ibz], (size_ b) as [[nbx nby] nbz].
  unfold at3 in *.
  rewrite !wrap_index by assumption. reflexivity.
Qed.

(** ** Running [update_boundary_], [prepare] and [x_refresh] *)

Lemma update_boundary_run b :
  update_boundary_ simulation b =
  (tt, after_boundary simulation b,
   map (fun fa => mkEntry (cycle_ b) (Enforce (fst fa) (snd fa)))
       (filter (updates_face b) faces)).
Proof.
  unfold update_boundary_, after_boundary, faces, updates_face.
  unfold bind at 1. unfold get at 1. unfold determine_boundary_.
  cbv [filter fst snd cells].
  generalize (is_on_boundary b axis_x face_lower) (is_on_boundary b axis_x face_upper)
             (is_on_boundary b axis_y face_lower) (is_on_boundary b axis_y face_upper)
             (is_on_boundary b axis_z face_lower) (is_on_boundary b axis_z face_upper)
             (nx_ (block_ b) >? 1) (ny_ (block_ b) >? 1) (nz_ (block_ b) >? 1).
  intros xl xu yl yu zl zu cx cy cz.
  destruct cx, cy, cz, xl, xu, yl, yu, zl, zu; reflexivity.
Qed.

Lemma enforce_all_frame b (l : list (face_enum * axis_enum)) :
  exists d, enforce_all simulation b l = with_data b d.
Proof.
  revert b. induction l as [|fa l IH]; intros b.
  - exists (field_data (block_ b)). destruct b as [[? ? ? ?] ? ? ? ? ? ? ?].
    reflexivity.
  - simpl. destruct (IH (with_data b (enforce simulation (fst fa) (snd fa) b)))
      as [d Hd].
    exists d. unfold enforce_all in *. simpl. rewrite Hd. reflexivity.
Qed.

Lemma after_boundary_frame b :
  exists d, after_boundary simulation b = with_data b d.
Proof. apply enforce_all_frame. Qed.

Lemma prepare_run b :
  prepare simulation b =
  (tt, after_boundary simulation b, prepare_log simulation b).
Proof.
  unfold prepare, prepare_log.
  unfold bind at 1. unfold TRACE at 1, emit at 1.
  unfold bind at 1. rewrite update_boundary_run.
  destruct (after_boundary_frame b) as [d Hd].
  unfold bind, get, TRACE, emit. rewrite Hd. reflexivity.
Qed.

Lemma x_refresh_run b (n : Z) (buf : buffer) (fx fy fz : Z) :
  x_refresh simulation n buf fx fy fz b =
  if fst (Sync_done (sync_refresh_ b))
  then (tt, after_boundary simulation (arrived simulation b n buf fx fy fz),
        mkEntry (cycle_ b) (Trace "CommBlock::x_refresh()") ::
        mkEntry (cycle_ b) (Trace "CommBlock::x_refresh() calling prepare()") ::
        prepare_log simulation (arrived simulation b n buf fx fy fz))
  else (tt, arrived simulation b n buf fx fy fz,
        [mkEntry (cycle_ b) (Trace "CommBlock::x_refresh()")]).
Proof.
  unfold x_refresh, arrived, field_face_store, sync_done.
  unfold bind, TRACE, emit, get, set_sync, set_field_data, ret.
  destruct (n =? 0); simpl when; unfold ret;
    repeat match goal with
           | |- context [Sync_done (sync_refresh_ ?x)] =>
               progress change (sync_refresh_ x) with (sync_refresh_ b)
           end;
    destruct (Sync_done (sync_refresh_ b)) as [r s];
    destruct r; simpl when; simpl fst; simpl snd;
    unfold bind, TRACE, emit, ret; try rewrite prepare_run; reflexivity.
Qed.

(** ** Running [compute] and [p_output] *)

Lemma after_methods_frame b ms :
  exists d, after_methods b ms = with_data b d.
Proof.
  revert b. induction ms as [|m ms IH]; intros b.
  - exists (field_data (block_ b)). destruct b as [[? ? ? ?] ? ? ? ? ? ? ?].
    reflexivity.
  - simpl. destruct (IH (with_data b (m b))) as [d Hd].
    exists d. rewrite Hd. reflexivity.
Qed.

Lemma compute_methods_run ms b (i : nat) :
  compute_methods i ms b =
  (tt, after_methods b ms,
   map (fun k => mkEntry (cycle_ b) (ComputeBlock k)) (seq i (List.length ms))).
Proof.
  revert b i. induction ms as [|m ms IH]; intros b i; simpl.
  - reflexivity.
  - unfold bind at 1. unfold emit at 1.
    unfold bind at 1. unfold get at 1.
    unfold bind at 1. unfold set_field_data at 1.
    rewrite IH. reflexivity.
Qed.

Lemma compute_run b :
  compute simulation b =
  (tt, state_of (refresh simulation (advanced simulation b)),
   mkEntry (cycle_ b) (Trace "CommBlock::compute()") ::
   map (fun k => mkEntry (cycle_ b) (ComputeBlock k))
       (seq 0 (List.length (method simulation))) ++
   mkEntry (cycle_ b + 1) (Trace "CommBlock::compute() calling refresh()") ::
   log_of (refresh simulation (advanced simulation b))).
Proof.
  unfold compute, advanced.
  unfold bind at 1. unfold TRACE at 1, emit at 1.
  unfold bind at 1. rewrite compute_methods_run.
  destruct (after_methods_frame b (method simulation)) as [d Hd].
  rewrite Hd.
  unfold bind, get, set_cycle, set_time, TRACE, emit. simpl.
  destruct (refresh simulation _) as [[u b'] l]. destruct u.
  unfold state_of, log_of. simpl. reflexivity.
Qed.

Lemma p_compute_run b (cycle : Z) (time dt : Q) :
  p_compute simulation cycle time dt b =
  (tt, state_of (compute simulation b),
   mkEntry (cycle_ b)
     (Trace "CommBlock::p_compute() cycle %d time %f dt %f") ::
   log_of (compute simulation b)).
Proof.
  unfold p_compute, bind, TRACE, emit.
  destruct (compute simulation b) as [[u b'] l]. destruct u. reflexivity.
Qed.

Lemma p_output_run b (min_reduce : Q * Q) :
  p_output min_reduce b =
  (tt, with_dt b (dt_forest_of min_reduce),
   [mkEntry (cycle_ b) (Trace "CommBlock::p_output()");
    mkEntry (cycle_ b) (Trace "CommBlock::p_output(): dt=%f  stop=%d");
    mkEntry (cycle_ b)
      (UpdateState (cycle_ b) (time_ b) (dt_forest_of min_reduce)
         (stop_forest_of min_reduce));
    mkEntry (cycle_ b)
      (Trace "CommBlock::p_output() calling SimulationCharm::p_output");
    mkEntry (cycle_ b) SimulationPOutput]).
Proof. reflexivity. Qed.

(** ** Quorum in a periodic domain *)

Lemma face_flag_periodic b (a : axis_enum) (f : face_enum) :
  is_periodic simulation = true -> 1 < cells b a ->
  face_flag simulation b a f = true.
Proof.
  intros Hp Hc. unfold face_flag. rewrite Hp.
  apply andb_true_iff. split; [apply Z.gtb_lt; lia | reflexivity].
Qed.

Lemma count_refresh_periodic b :
  is_periodic simulation = true ->
  (forall a, 1 < cells b a) ->
  count_refresh_ simulation b =
  1 + (if refresh_face simulation 2 then 6 else 0)
    + (if refresh_face simulation 1 then 12 else 0)
    + (if refresh_face simulation 0 then 8 else 0).
Proof.
  intros Hp Hc. unfold count_refresh_. cbv zeta.
  change (nx_ (block_ b)) with (cells b axis_x).
  change (ny_ (block_ b)) with (cells b axis_y).
  change (nz_ (block_ b)) with (cells b axis_z).
  fold (face_flag simulation b axis_x face_lower).
  fold (face_flag simulation b axis_x face_upper).
  fold (face_flag simulation b axis_y face_lower).
  fold (face_flag simulation b axis_y face_upper).
  fold (face_flag simulation b axis_z face_lower).
  fold (face_flag simulation b axis_z face_upper).
  rewrite !face_flag_periodic by auto.
  destruct (refresh_face simulation 2), (refresh_face simulation 1),
           (refresh_face simulation 0); reflexivity.
Qed.

(** C3 (as amended).  For every block with more than one local cell
    along every axis, in a periodic domain with at least 3 blocks along
    every axis, the quorum computed by [count_refresh_] is [1 + 6] with
    face-only refresh, [1 + 6 + 12] when edge refresh is enabled as
    well, and [1 + 6 + 12 + 8] when corner refresh is enabled as
    well. *)
Theorem quorum_periodic_domain b :
  is_periodic simulation = true ->
  (forall a, 3 <= at3 (size_ b) a) ->
  (forall a, 1 < cells b a) ->
  (refresh_face simulation 2 = true -> refresh_face simulation 1 = false ->
   refresh_face simulation 0 = false ->
   count_refresh_ simulation b = 1 + 6) /\
  (refresh_face simulation 2 = true -> refresh_face simulation 1 = true ->
   refresh_face simulation 0 = false ->
   count_refresh_ simulation b = 1 + 6 + 12) /\
  (refresh_face simulation 2 = true -> refresh_face simulation 1 = true ->
   refresh_face simulation 0 = true ->
   count_refresh_ simulation b = 1 + 6 + 12 + 8).
Proof.
  intros Hp _ Hc. rewrite (count_refresh_periodic b Hp Hc).
  repeat split; intros -> -> ->; reflexivity.
Qed.

(** ** Reading logs *)

Lemma filter_enforce_entries (p : Entry -> bool) (c : Z)
    (l : list (face_enum * axis_enum)) :
  (forall f a, p (mkEntry c (Enforce f a)) = false) ->
  filter p (map (fun fa => mkEntry c (Enforce (fst fa) (snd fa))) l) = [].
Proof.
  intros H. induction l as [|fa l IH]; simpl; [reflexivity|].
  rewrite H. exact IH.
Qed.

Lemma filter_prepare_log (p : Entry -> bool) b :
  (forall c f a, p (mkEntry c (Enforce f a)) = false) ->
  filter p (prepare_log simulation b) =
  filter p
    [mkEntry (cycle_ b) (Trace "CommBlock::prepare() %p");
     mkEntry (cycle_ b) (Trace "Calling contribute %d");
     mkEntry (cycle_ b)
       (Contribute (dt_block_of simulation (after_boundary simulation b))
          (if complete simulation (cycle_ b) (time_ b) then 1%Q else 0%Q))].
Proof.
  intros H. unfold prepare_log.
  change (?x :: ?l ++ ?r) with ([x] ++ l ++ r).
  rewrite !filter_app, filter_enforce_entries by apply H.
  simpl. destruct (p _); reflexivity.
Qed.

Lemma enforced_enforce_entries (c : Z) (l : list (face_enum * axis_enum)) :
  enforced (map (fun fa => mkEntry c (Enforce (fst fa) (snd fa))) l) = l.
Proof.
  unfold enforced.
  induction l as [|[f a] l IH]; simpl; [reflexivity|].
  f_equal. exact IH.
Qed.

Lemma enforced_prepare_log b :
  enforced (prepare_log simulation b) = filter (updates_face b) faces.
Proof.
  unfold prepare_log, enforced. simpl.
  rewrite flat_map_app. fold (enforced
    (map (fun fa => mkEntry (cycle_ b) (Enforce (fst fa) (snd fa)))
       (filter (updates_face b) faces))).
  rewrite enforced_enforce_entries. simpl. apply app_nil_r.
Qed.

Lemma contributed_prepare_log b :
  contributed (prepare_log simulation b) =
  [(dt_block_of simulation (after_boundary simulation b),
    if complete simulation (cycle_ b) (time_ b) then 1%Q else 0%Q)].
Proof.
  unfold prepare_log, contributed. simpl.
  rewrite flat_map_app. simpl.
  assert (E : forall l : list (face_enum * axis_enum),
             flat_map (fun e => match what e with
                                | Contribute m0 m1 => [(m0, m1)]
                                | _ => []
                                end)
               (map (fun fa => mkEntry (cycle_ b) (Enforce (fst fa) (snd fa))) l)
             = []).
  { induction l as [|fa l IH]; simpl; [reflexivity | exact IH]. }
  rewrite E. reflexivity.
Qed.

Lemma sends_prepare_log b : filter is_send (prepare_log simulation b) = [].
Proof. rewrite filter_prepare_log by reflexivity. reflexivity. Qed.

Lemma sends_x_refresh b (n : Z) (buf : buffer) (fx fy fz : Z) :
  ghost_messages (log_of (x_refresh simulation n buf fx fy fz b)) = [].
Proof.
  rewrite x_refresh_run. unfold ghost_messages.
  destruct (fst (Sync_done (sync_refresh_ b))); unfold log_of; simpl snd.
  - change (filter is_send (?x :: ?y :: ?l)) with (filter is_send l).
    rewrite sends_prepare_log. reflexivity.
  - reflexivity.
Qed.

Lemma ghost_messages_face_entries b (l : list int3) :
  ghost_messages
    (map (fun d => mkEntry (cycle_ b) (face_message simulation b d)) l) =
  map (face_message simulation b) l.
Proof.
  unfold ghost_messages.
  induction l as [|[[fx fy] fz] l IH]; simpl; [reflexivity|].
  f_equal. exact IH.
Qed.

Lemma ghost_messages_app (l1 l2 : list Entry) :
  ghost_messages (l1 ++ l2) = ghost_messages l1 ++ ghost_messages l2.
Proof. unfold ghost_messages. rewrite filter_app, map_app. reflexivity. Qed.

Lemma ghost_messages_refresh b :
  ghost_messages (log_of (refresh simulation b)) =
  map (face_message simulation b)
      (filter (sends_face simulation b) (loop_directions simulation b)).
Proof.
  rewrite refresh_run. unfold log_of at 1. cbv beta iota delta [snd].
  change (?x :: ?l ++ ?r) with ([x] ++ l ++ r).
  rewrite !ghost_messages_app, ghost_messages_face_entries, sends_x_refresh.
  rewrite app_nil_r. reflexivity.
Qed.

(** ** Boundary conditions enforced by [prepare] *)

(** C5 (as amended).  During PREPARE, [Boundary::enforce] is invoked
    exactly on those faces where the block lies on the domain boundary
    and has more than one local cell along the axis of the face,
    whether or not the domain is periodic; it is invoked once on each
    such face. *)
Theorem prepare_enforces_boundary b (f : face_enum) (a : axis_enum) :
  (In (f, a) (enforced (log_of (prepare simulation b))) <->
   1 < cells b a /\ is_on_boundary b a f = true) /\
  NoDup (enforced (log_of (prepare simulation b))).
Proof.
  rewrite prepare_run. unfold log_of. simpl snd.
  rewrite enforced_prepare_log. split.
  - rewrite filter_In. unfold updates_face. simpl fst. simpl snd.
    rewrite andb_true_iff, Z.gtb_lt. split.
    + intros [_ H]. exact H.
    + intros H. split; [|exact H].
      destruct f, a; simpl; tauto.
  - apply NoDup_filter. unfold faces.
    repeat (constructor; [simpl; intuition discriminate|]). constructor.
Qed.

(** ** A single cell along an axis *)

Lemma face_flag_single_cell b (a : axis_enum) (f : face_enum) :
  cells b a = 1 -> face_flag simulation b a f = false.
Proof. intros H. unfold face_flag. rewrite H. reflexivity. Qed.

Lemma component_active_single_cell b (a : axis_enum) (d : Z) :
  cells b a = 1 -> d <> 0 -> component_active simulation b a d = false.
Proof.
  intros H Hd. unfold component_active. rewrite H.
  destruct (Z.eqb_spec d 0); [contradiction | reflexivity].
Qed.

Lemma active_single_cell b (a : axis_enum) (d : int3) :
  cells b a = 1 -> at3 d a <> 0 -> active simulation b d = false.
Proof.
  intros H Hd. destruct d as [[dx dy] dz]. unfold active.
  destruct a; simpl in Hd;
    rewrite (component_active_single_cell b _ _ H Hd);
    rewrite ?andb_false_r; reflexivity.
Qed.

Lemma get3_single_cell b (a : axis_enum) (i : Z) :
  cells b a = 1 ->
  get3 false (refresh_f3 simulation b a) (i + 1) = true -> i = 0.
Proof.
  intros H. unfold refresh_f3, get3.
  rewrite !(face_flag_single_cell b a _ H).
  destruct (Z.eqb_spec (i + 1) 0); [discriminate|].
  destruct (Z.eqb_spec (i + 1) 1); [lia|].
  destruct (i + 1 =? 2); discriminate.
Qed.

(** C6.  If the local cell count of a block along an axis is 1, no
    direction with a nonzero component along that axis is active,
    [refresh] sends no ghost message in such a direction (every message
    it sends carries a zero component along the axis), and
    [count_refresh_] counts only directions whose component along the
    axis is zero, whatever the periodicity. *)
Theorem single_cell_axis_inactive b (a : axis_enum) :
  cells b a = 1 ->
  (forall d, at3 d a <> 0 -> active simulation b d = false) /\
  (forall index n array fx fy fz,
     In (XRefresh index n array fx fy fz)
        (ghost_messages (log_of (refresh simulation b))) ->
     at3 (fx, fy, fz) a = 0) /\
  count_refresh_ simulation b =
  1 + Z.of_nat (List.length (filter (fun d => at3 d a =? 0)
                               (active_directions simulation b))).
Proof.
  intros H. split; [|split].
  - intros d Hd. apply active_single_cell with a; assumption.
  - intros index n array fx fy fz Hin.
    rewrite ghost_messages_refresh in Hin.
    apply in_map_iff in Hin. destruct Hin as ([[dx dy] dz] & Hm & Hd).
    apply filter_In in Hd. destruct Hd as [_ Hs].
    unfold face_message in Hm. injection Hm as _ _ _ <- <- <-.
    unfold sends_face in Hs. rewrite !andb_true_iff in Hs.
    destruct Hs as [[[Hx Hy] Hz] _].
    destruct a; simpl.
    + rewrite (get3_single_cell b _ _ H Hx). reflexivity.
    + rewrite (get3_single_cell b _ _ H Hy). reflexivity.
    + rewrite (get3_single_cell b _ _ H Hz). reflexivity.
  - rewrite count_refresh_active. do 3 f_equal.
    unfold active_directions.
    induction directions as [|d l IH]; simpl; [reflexivity|].
    destruct (active simulation b d) eqn:E; simpl; [|exact IH].
    destruct (Z.eqb_spec (at3 d a) 0) as [_|Hd].
    + f_equal. exact IH.
    + rewrite (active_single_cell b a d H Hd) in E. discriminate.
Qed.

(** ** Ghost messages go to the neighbours *)

Lemma NoDup_directions : NoDup directions.
Proof.
  unfold directions. simpl.
  repeat (constructor; [simpl; intros H;
    repeat (destruct H as [H|H]; [discriminate H|]); exact H|]).
  constructor.
Qed.

Lemma component_active_inside b (a : axis_enum) (d : Z) :
  well_formed b -> is_periodic simulation = false ->
  d = -1 \/ d = 0 \/ d = 1 ->
  component_active simulation b a d = true ->
  0 <= at3 (index_ b) a + d < at3 (size_ b) a.
Proof.
  intros [_ Hwf] Hp Hd H. specialize (Hwf a).
  unfold component_active, is_on_boundary in H. rewrite Hp in H.
  destruct Hd as [ -> | [ -> | -> ] ]; simpl in H.
  - apply andb_true_iff in H. destruct H as [_ H].
    apply negb_true_iff, Z.eqb_neq in H. lia.
  - lia.
  - apply andb_true_iff in H. destruct H as [_ H].
    apply negb_true_iff, Z.eqb_neq in H. lia.
Qed.

(** C7.  In a well-formed block, [refresh] sends exactly one ghost
    message for every active direction [(fx,fy,fz)] and none for any
    other: the messages it sends are, direction by direction, addressed
    to the block index plus the direction wrapped modulo the block
    count along every axis, and tagged with [(-fx,-fy,-fz)].  In a
    domain that is not periodic the destination is the adjacent index
    inside the forest: nothing is sent across the domain boundary. *)
Theorem refresh_sends_to_neighbors b :
  well_formed b ->
  ghost_messages (log_of (refresh simulation b)) =
    map (fun d => XRefresh (neighbor b d)
                    (fst (load simulation d (block_ b)))
                    (snd (load simulation d (block_ b)))
                    (- fst (fst d)) (- snd (fst d)) (- snd d))
        (active_directions simulation b) /\
  NoDup (active_directions simulation b) /\
  (is_periodic simulation = false ->
   forall d, In d (active_directions simulation b) ->
   neighbor b d =
     (at3 (index_ b) axis_x + at3 d axis_x,
      at3 (index_ b) axis_y + at3 d axis_y,
      at3 (index_ b) axis_z + at3 d axis_z) /\
   forall a, 0 <= at3 (index_ b) a + at3 d a < at3 (size_ b) a).
Proof.
  intros Hwf. split; [|split].
  - rewrite ghost_messages_refresh, (refresh_directions b Hwf).
    apply map_ext_in. intros d Hd.
    apply filter_In in Hd. destruct Hd as [Hd _].
    rewrite (face_message_ghost_message b d Hwf Hd).
    destruct d as [[dx dy] dz]. reflexivity.
  - apply NoDup_filter, NoDup_directions.
  - intros Hp d Hd. apply filter_In in Hd. destruct Hd as [Hd Ha].
    apply in_directions in Hd. destruct d as [[dx dy] dz].
    destruct Hd as (Hx & Hy & Hz).
    unfold active in Ha. rewrite !andb_true_iff in Ha.
    destruct Ha as [[[Ax Ay] Az] _].
    pose proof (component_active_inside b axis_x dx Hwf Hp Hx Ax) as Ix.
    pose proof (component_active_inside b axis_y dy Hwf Hp Hy Ay) as Iy.
    pose proof (component_active_inside b axis_z dz Hwf Hp Hz Az) as Iz.
    split.
    + unfold neighbor.
      destruct (index_ b) as [[ibx iby] ibz], (size_ b) as [[nbx nby] nbz].
      simpl in *. rewrite !Z.mod_small by assumption. reflexivity.
    + intros [| |]; assumption.
Qed.

(** ** The quorum and the self-delivered message *)

Lemma quorum_self_message b (n : Z) (buf : buffer) (fx fy fz : Z) :
  sync_refresh_ b = mkSync 1 0 ->
  count is_quorum (log_of (x_refresh simulation n buf fx fy fz b)) = 1%nat /\
  List.length (contributed (log_of (x_refresh simulation n buf fx fy fz b))) = 1%nat.
Proof.
  intros Hs. rewrite x_refresh_run, Hs. simpl fst. cbv iota.
  unfold log_of. simpl snd. split.
  - unfold count.
    change (filter is_quorum (?x :: ?y :: ?l)) with (y :: filter is_quorum l).
    rewrite filter_prepare_log by reflexivity. reflexivity.
  - change (contributed (?x :: ?y :: ?l)) with (contributed l).
    rewrite contributed_prepare_log. reflexivity.
Qed.

(** C8.  The quorum computed by [count_refresh_] is 1 plus the number
    of active directions.  The 1 stands for the call [x_refresh
    (0,0,0,0,0)] that ends every [refresh]: [refresh] logs its trace
    point and its ghost messages, and then does what the arrival of
    the empty message does.  A block with no active direction, whose
    arrival counter was set up by the constructor, has quorum 1 and
    sends no ghost message when well formed, and the arrival of its one
    empty message reaches the quorum and makes it contribute. *)
Theorem quorum_is_self_plus_active b :
  count_refresh_ simulation b =
    1 + Z.of_nat (List.length (active_directions simulation b)) /\
  (exists sent,
     refresh simulation b =
       (tt, state_of (x_refresh simulation 0 [] 0 0 0 b),
        mkEntry (cycle_ b) (Trace "CommBlock::refresh()") :: sent ++
        log_of (x_refresh simulation 0 [] 0 0 0 b)) /\
     forallb is_send sent = true) /\
  (active_directions simulation b = [] ->
   sync_refresh_ b = mkSync (count_refresh_ simulation b) 0 ->
   count_refresh_ simulation b = 1 /\
   (well_formed b -> ghost_messages (log_of (refresh simulation b)) = []) /\
   count is_quorum (log_of (x_refresh simulation 0 [] 0 0 0 b)) = 1%nat /\
   List.length (contributed (log_of (x_refresh simulation 0 [] 0 0 0 b))) = 1%nat).
Proof.
  split; [apply count_refresh_active|]. split.
  - eexists. split; [apply refresh_run|].
    apply forallb_forall. intros e He. apply in_map_iff in He.
    destruct He as ([[fx fy] fz] & <- & _). reflexivity.
  - intros HA Hs.
    assert (Hq : count_refresh_ simulation b = 1).
    { rewrite count_refresh_active, HA. reflexivity. }
    rewrite Hq in Hs. split; [exact Hq|]. split.
    + intros Hwf. rewrite ghost_messages_refresh, (refresh_directions b Hwf), HA.
      reflexivity.
    + apply quorum_self_message, Hs.
Qed.

(** ** The candidate timestep *)

Lemma Qltb_lt (x y : Q) : Qltb x y = true <-> (x < y)%Q.
Proof.
  unfold Qltb. rewrite Qlt_alt.
  destruct (x ?= y)%Q; split; intros H; congruence.
Qed.

Lemma MIN_le_r (x y : Q) : (MIN x y <= y)%Q.
Proof.
  unfold MIN. destruct (Qltb x y) eqn:E.
  - apply Qlt_le_weak, Qltb_lt, E.
  - apply Qle_refl.
Qed.

Lemma MIN_le_l (x y : Q) : (MIN x y <= x)%Q.
Proof.
  unfold MIN. destruct (Qltb x y) eqn:E.
  - apply Qle_refl.
  - apply Qnot_lt_le. intros H. apply Qltb_lt in H. congruence.
Qed.

Lemma MIN_cases (x y : Q) : MIN x y = x \/ MIN x y = y.
Proof. unfold MIN. destruct (Qltb x y); auto. Qed.

Lemma after_boundary_time b : time_ (after_boundary simulation b) = time_ b.
Proof. destruct (after_boundary_frame b) as [d ->]. reflexivity. Qed.


(** ** The empty message *)

(** C10 (as amended).  The arrival of the empty message ([n = 0])
    stores nothing: whatever the buffer and the face, it leaves the
    indices, the cell counts, cycle, time and timestep of the chare as
    they were and advances the arrival counter.  Below the quorum that
    is all it does: the block is unchanged and the only thing logged
    is the trace point of [x_refresh].  At the quorum it goes on with
    [prepare], which calls [Boundary::enforce] on the boundary faces
    of the block: the field data is then what the Boundary leaves,
    face after face, and it is unchanged when the block has no face to
    enforce. *)
Theorem x_refresh_empty_message b (buf : buffer) (fx fy fz : Z) :
  let arrival := x_refresh simulation 0 buf fx fy fz b in
  let counted := with_sync b (snd (Sync_done (sync_refresh_ b))) in
  (thisIndex (state_of arrival) = thisIndex b /\
   index_ (state_of arrival) = index_ b /\
   size_ (state_of arrival) = size_ b /\
   (forall a, cells (state_of arrival) a = cells b a) /\
   cycle_ (state_of arrival) = cycle_ b /\
   time_ (state_of arrival) = time_ b /\
   dt_ (state_of arrival) = dt_ b) /\
  sync_refresh_ (state_of arrival) = snd (Sync_done (sync_refresh_ b)) /\
  (fst (Sync_done (sync_refresh_ b)) = false ->
   block_ (state_of arrival) = block_ b /\
   log_of arrival = [mkEntry (cycle_ b) (Trace "CommBlock::x_refresh()")]) /\
  (fst (Sync_done (sync_refresh_ b)) = true ->
   arrival =
     (tt, state_of (prepare simulation counted),
      mkEntry (cycle_ b) (Trace "CommBlock::x_refresh()") ::
      mkEntry (cycle_ b) (Trace "CommBlock::x_refresh() calling prepare()") ::
      log_of (prepare simulation counted)) /\
   enforced (log_of arrival) = filter (updates_face b) faces /\
   state_of arrival =
     enforce_all simulation counted (filter (updates_face b) faces) /\
   (filter (updates_face b) faces = [] ->
    block_ (state_of arrival) = block_ b)).
Proof.
  intros arrival counted.
  assert (Ea : arrived simulation b 0 buf fx fy fz = counted) by reflexivity.
  assert (Er : arrival =
    if fst (Sync_done (sync_refresh_ b))
    then (tt, after_boundary simulation counted,
          mkEntry (cycle_ b) (Trace "CommBlock::x_refresh()") ::
          mkEntry (cycle_ b) (Trace "CommBlock::x_refresh() calling prepare()") ::
          prepare_log simulation counted)
    else (tt, counted, [mkEntry (cycle_ b) (Trace "CommBlock::x_refresh()")])).
  { unfold arrival. rewrite x_refresh_run, Ea. reflexivity. }
  destruct (after_boundary_frame counted) as [d Hd].
  destruct (fst (Sync_done (sync_refresh_ b))) eqn:Hq; rewrite Er.
  - split.
    { unfold state_of. simpl fst. simpl snd. rewrite Hd.
      split; [reflexivity|]. split; [reflexivity|]. split; [reflexivity|].
      split; [intros [| |]; reflexivity|].
      split; [reflexivity|]. split; reflexivity. }
    split; [unfold state_of; simpl fst; simpl snd; rewrite Hd; reflexivity|].
    split; [discriminate|]. intros _.
    split; [rewrite prepare_run; reflexivity|].
    split.
    { unfold log_of. simpl snd.
      change (enforced (prepare_log simulation counted) =
              filter (updates_face counted) faces).
      apply enforced_prepare_log. }
    split; [reflexivity|].
    intros Hnone. unfold state_of. simpl fst. simpl snd.
    unfold after_boundary.
    change (filter (updates_face counted) faces)
      with (filter (updates_face b) faces).
    rewrite Hnone. reflexivity.
  - split.
    { unfold state_of. simpl fst. simpl snd.
      split; [reflexivity|]. split; [reflexivity|]. split; [reflexivity|].
      split; [intros [| |]; reflexivity|].
      split; [reflexivity|]. split; reflexivity. }
    split; [reflexivity|].
    split; [intros _; split; reflexivity | discriminate].
Qed.

(** ** The reduction *)

Lemma fold_min_double_fst (cs : list (Q * Q)) (c : Q * Q) :
  In (fst (fold_left min_double cs c)) (map fst (c :: cs)) /\
  (forall x, In x (c :: cs) -> (fst (fold_left min_double cs c) <= fst x)%Q).
Proof.
  revert c. induction cs as [|c' cs IH]; intros c.
  - simpl. split; [left; reflexivity|].
    intros x [<-|[]]. apply Qle_refl.
  - simpl fold_left. destruct (IH (min_double c c')) as [Hin Hle]. split.
    + destruct Hin as [Hin|Hin].
      * change (fst (min_double c c')) with (MIN (fst c) (fst c')) in Hin.
        simpl.
        destruct (MIN_cases (fst c) (fst c')) as [E|E];
          [left | right; left]; rewrite <- E; exact Hin.
      * simpl. auto.
    + intros x Hx.
      assert (Hm : (fst (fold_left min_double cs (min_double c c'))
                    <= MIN (fst c) (fst c'))%Q).
      { apply (Hle (min_double c c')). left. reflexivity. }
      destruct Hx as [<-|[<-|Hx]].
      * eapply Qle_trans; [exact Hm | apply MIN_le_l].
      * eapply Qle_trans; [exact Hm | apply MIN_le_r].
      * apply Hle. right. exact Hx.
Qed.

Lemma fold_min_double_snd (cs : list (Q * bool)) (c : Q * bool) :
  snd (fold_left min_double (map min_reduce_of cs) (min_reduce_of c)) =
  if snd c && forallb snd cs then 1%Q else 0%Q.
Proof.
  revert c. induction cs as [|c' cs IH]; intros c.
  - simpl. rewrite andb_true_r. reflexivity.
  - simpl fold_left. simpl map.
    assert (E : min_double (min_reduce_of c) (min_reduce_of c') =
                min_reduce_of (MIN (fst c) (fst c'), snd c && snd c')).
    { unfold min_double, min_reduce_of. simpl. f_equal.
      destruct (snd c), (snd c'); reflexivity. }
    simpl fold_left. rewrite E, IH. simpl.
    rewrite andb_assoc. reflexivity.
Qed.

(** C1 (as amended).  For every cycle and every nonempty collection of
    contributions [{candidate_dt, stop}], the reduction has a result
    whose [global_dt] is one of the submitted candidates and is no
    larger than any of them (their minimum), and whose [global_stop]
    is true if and only if the local stop flag of every actor was
    true.  Every actor the result is delivered to stores [global_dt] as
    its [dt_] and reports [global_dt] and [global_stop] to the
    Simulation. *)
Theorem reduction_result (c : Q * bool) (cs : list (Q * bool)) :
  exists min_reduce,
    reduction (map min_reduce_of (c :: cs)) = Some min_reduce /\
    In (dt_forest_of min_reduce) (map fst (c :: cs)) /\
    (forall x, In x (c :: cs) -> (dt_forest_of min_reduce <= fst x)%Q) /\
    (stop_forest_of min_reduce = true <->
     forall x, In x (c :: cs) -> snd x = true) /\
    (forall b : @CommBlock FieldData,
       dt_ (state_of (p_output min_reduce b)) = dt_forest_of min_reduce /\
       In (UpdateState (cycle_ b) (time_ b) (dt_forest_of min_reduce)
             (stop_forest_of min_reduce))
          (map what (log_of (p_output min_reduce b)))).
Proof.
  eexists. split; [reflexivity|].
  destruct (fold_min_double_fst (map min_reduce_of cs) (min_reduce_of c))
    as [Hin Hle].
  split; [|split; [|split]].
  - unfold dt_forest_of. simpl map in *. rewrite map_map in Hin. exact Hin.
  - intros x Hx. unfold dt_forest_of.
    apply (Hle (min_reduce_of x)).
    change (min_reduce_of c :: map min_reduce_of cs)
      with (map min_reduce_of (c :: cs)).
    apply in_map, Hx.
  - unfold stop_forest_of. rewrite fold_min_double_snd.
    destruct (snd c && forallb snd cs) eqn:E.
    + split; [|reflexivity]. intros _ x Hx.
      apply andb_true_iff in E. destruct E as [Ec Ecs].
      destruct Hx as [<-|Hx]; [exact Ec|].
      rewrite forallb_forall in Ecs. apply Ecs, Hx.
    + split; [discriminate|]. intros H. exfalso.
      apply andb_false_iff in E. destruct E as [E|E].
      * rewrite (H c) in E by (left; reflexivity). discriminate.
      * assert (F : forallb snd cs = true).
        { apply forallb_forall. intros x Hx. apply H. right. exact Hx. }
        congruence.
  - intros b. rewrite p_output_run. split; [reflexivity|].
    unfold log_of. simpl. auto.
Qed.

(** ** Counting protocol events *)

Lemma count_app (p : Entry -> bool) (l1 l2 : list Entry) :
  count p (l1 ++ l2) = (count p l1 + count p l2)%nat.
Proof. unfold count. rewrite filter_app. apply length_app. Qed.

Lemma filter_quiet_map {A : Type} (p : Entry -> bool) (f : A -> Entry)
    (l : list A) :
  (forall x, p (f x) = false) -> filter p (map f l) = [].
Proof.
  intros H. induction l as [|x l IH]; simpl; [reflexivity|].
  rewrite H. exact IH.
Qed.

Lemma arrived_cycle b n buf fx fy fz :
  cycle_ (arrived simulation b n buf fx fy fz) = cycle_ b.
Proof. unfold arrived. destruct (n =? 0); reflexivity. Qed.

Lemma arrived_time b n buf fx fy fz :
  time_ (arrived simulation b n buf fx fy fz) = time_ b.
Proof. unfold arrived. destruct (n =? 0); reflexivity. Qed.

Lemma after_boundary_cycle b : cycle_ (after_boundary simulation b) = cycle_ b.
Proof. destruct (after_boundary_frame b) as [d ->]. reflexivity. Qed.

Lemma filter_x_refresh (p : Entry -> bool) b n buf fx fy fz :
  (forall c f a, p (mkEntry c (Enforce f a)) = false) ->
  filter p (log_of (x_refresh simulation n buf fx fy fz b)) =
  filter p (x_refresh_events simulation b n buf fx fy fz).
Proof.
  intros He. rewrite x_refresh_run. unfold x_refresh_events.
  destruct (fst (Sync_done (sync_refresh_ b))); unfold log_of; simpl snd;
    [|reflexivity].
  change (?x :: ?y :: ?l) with ([x; y] ++ l) at 1.
  rewrite filter_app, (filter_prepare_log p _ He).
  rewrite arrived_cycle, arrived_time, <- filter_app. reflexivity.
Qed.

Lemma filter_p_compute (p : Entry -> bool) b cycle time dt :
  quiet p ->
  filter p (log_of (p_compute simulation cycle time dt b)) =
  filter p (p_compute_events simulation b).
Proof.
  intros Hq. pose proof Hq as (He & Hc & Hs).
  rewrite p_compute_run. unfold log_of at 1. simpl snd.
  rewrite compute_run. unfold log_of at 1. simpl snd.
  rewrite refresh_run. unfold log_of at 1. simpl snd.
  unfold p_compute_events.
  change (?a :: ?b' :: ?l1 ++ ?c :: ?d :: ?l2 ++ ?l3)
    with ([a; b'] ++ l1 ++ [c; d] ++ l2 ++ l3).
  rewrite !filter_app.
  rewrite (filter_quiet_map p _ _ (Hc (cycle_ b))).
  rewrite filter_quiet_map, (filter_x_refresh p _ _ _ _ _ _ He).
  - rewrite !app_nil_l, app_assoc, <- filter_app. reflexivity.
  - intros [[x y] z]. apply Hs.
Qed.

Lemma quiet_is_trace (s : string) : quiet (is_trace s).
Proof. repeat split. Qed.

Lemma quiet_is_contribute : quiet is_contribute.
Proof. repeat split. Qed.

Lemma quiet_is_check_in : quiet is_check_in.
Proof. repeat split. Qed.

Lemma count_x_refresh b n buf fx fy fz :
  let q := if fst (Sync_done (sync_refresh_ b)) then 1%nat else 0%nat in
  count is_quorum (log_of (x_refresh simulation n buf fx fy fz b)) = q /\
  count is_contribute (log_of (x_refresh simulation n buf fx fy fz b)) = q /\
  count is_result (log_of (x_refresh simulation n buf fx fy fz b)) = 0%nat /\
  count is_check_in (log_of (x_refresh simulation n buf fx fy fz b)) = 0%nat /\
  count is_compute (log_of (x_refresh simulation n buf fx fy fz b)) = 0%nat.
Proof.
  unfold count, is_quorum, is_result, is_compute.
  rewrite !filter_x_refresh by reflexivity.
  unfold x_refresh_events.
  destruct (fst (Sync_done (sync_refresh_ b))); repeat split.
Qed.

Lemma count_p_compute b cycle time dt :
  let q := if fst (Sync_done (sync_refresh_ b)) then 1%nat else 0%nat in
  count is_quorum (log_of (p_compute simulation cycle time dt b)) = q /\
  count is_contribute (log_of (p_compute simulation cycle time dt b)) = q /\
  count is_result (log_of (p_compute simulation cycle time dt b)) = 0%nat /\
  count is_check_in (log_of (p_compute simulation cycle time dt b)) = 0%nat /\
  count is_compute (log_of (p_compute simulation cycle time dt b)) = 1%nat.
Proof.
  unfold count, is_quorum, is_result, is_compute.
  rewrite !filter_p_compute
    by first [apply quiet_is_trace | apply quiet_is_contribute
             | apply quiet_is_check_in].
  unfold p_compute_events, x_refresh_events.
  change (sync_refresh_ (advanced simulation b)) with (sync_refresh_ b).
  destruct (fst (Sync_done (sync_refresh_ b))); repeat split.
Qed.

Lemma count_p_output b (min_reduce : Q * Q) :
  count is_quorum (log_of (p_output min_reduce b)) = 0%nat /\
  count is_contribute (log_of (p_output min_reduce b)) = 0%nat /\
  count is_result (log_of (p_output min_reduce b)) = 1%nat /\
  count is_check_in (log_of (p_output min_reduce b)) = 1%nat /\
  count is_compute (log_of (p_output min_reduce b)) = 0%nat.
Proof. rewrite p_output_run. repeat split. Qed.

(** ** The stamps of the entries *)

Lemma stamps_prepare_log b :
  Forall (fun e => at_cycle e = cycle_ b) (prepare_log simulation b).
Proof.
  unfold prepare_log. constructor; [reflexivity|].
  apply Forall_app. split.
  - apply Forall_forall. intros e He. apply in_map_iff in He.
    destruct He as (fa & <- & _). reflexivity.
  - repeat constructor.
Qed.

Lemma stamps_x_refresh b n buf fx fy fz :
  Forall (fun e => at_cycle e = cycle_ b)
         (log_of (x_refresh simulation n buf fx fy fz b)).
Proof.
  rewrite x_refresh_run.
  destruct (fst (Sync_done (sync_refresh_ b))); unfold log_of; simpl snd.
  - constructor; [reflexivity|]. constructor; [reflexivity|].
    rewrite <- (arrived_cycle b n buf fx fy fz). apply stamps_prepare_log.
  - repeat constructor.
Qed.

Lemma stamps_p_compute b cycle time dt :
  Forall (fun e => at_cycle e <= cycle_ b + 1)
         (log_of (p_compute simulation cycle time dt b)).
Proof.
  rewrite p_compute_run. unfold log_of at 1. simpl snd.
  rewrite compute_run. unfold log_of at 1. simpl snd.
  rewrite refresh_run. unfold log_of at 1. simpl snd.
  constructor; [simpl; lia|]. constructor; [simpl; lia|].
  apply Forall_app. split.
  - apply Forall_forall. intros e He. apply in_map_iff in He.
    destruct He as (k & <- & _). simpl. lia.
  - constructor; [simpl; lia|]. constructor; [simpl; lia|].
    apply Forall_app. split.
    + apply Forall_forall. intros e He. apply in_map_iff in He.
      destruct He as (d & <- & _). simpl. lia.
    + eapply Forall_impl; [|apply stamps_x_refresh].
      intros e He. rewrite He. simpl. lia.
Qed.

Lemma cycle_x_refresh b n buf fx fy fz :
  cycle_ (state_of (x_refresh simulation n buf fx fy fz b)) = cycle_ b.
Proof.
  rewrite x_refresh_run.
  destruct (fst (Sync_done (sync_refresh_ b))); unfold state_of; simpl.
  - rewrite after_boundary_cycle. apply arrived_cycle.
  - apply arrived_cycle.
Qed.

Lemma cycle_p_compute b cycle time dt :
  cycle_ (state_of (p_compute simulation cycle time dt b)) = cycle_ b + 1.
Proof.
  rewrite p_compute_run. unfold state_of at 1. simpl.
  rewrite compute_run. unfold state_of at 1. simpl.
  rewrite refresh_run. unfold state_of at 1. simpl.
  rewrite cycle_x_refresh. reflexivity.
Qed.

(** ** What every reachable history satisfies *)

Lemma balanced_step (c0 : Z) (a a' : @Actor FieldData) (m : Msg) :
  balanced c0 a -> step simulation a m = Some a' -> balanced c0 a'.
Proof.
  intros (Hq & Hr & Hk & Hc & Hcy & Hst) Hs.
  unfold step in Hs. destruct (deliverable a m) eqn:Hd; [|discriminate].
  injection Hs as <-. unfold balanced. simpl chare. simpl history.
  rewrite !count_app.
  destruct m as [n buf fx fy fz | min_reduce | cycle time dt];
    simpl entry_method; simpl in Hd.
  - destruct (count_x_refresh (chare a) n buf fx fy fz)
      as (-> & -> & -> & -> & ->).
    rewrite cycle_x_refresh. repeat split; try lia.
    apply Forall_app. split; [exact Hst|].
    eapply Forall_impl; [|apply stamps_x_refresh]. intros e ->. lia.
  - apply Nat.ltb_lt in Hd.
    destruct (count_p_output (chare a) min_reduce)
      as (-> & -> & -> & -> & ->).
    rewrite p_output_run. unfold state_of, log_of. simpl fst. simpl snd.
    change (cycle_ (with_dt (chare a) (dt_forest_of min_reduce)))
      with (cycle_ (chare a)).
    repeat split; try lia.
    apply Forall_app. split; [exact Hst|]. repeat constructor; simpl; lia.
  - apply Nat.ltb_lt in Hd.
    destruct (count_p_compute (chare a) cycle time dt)
      as (-> & -> & -> & -> & ->).
    rewrite cycle_p_compute. repeat split; try lia.
    apply Forall_app. split; [|apply stamps_p_compute].
    eapply Forall_impl; [|exact Hst]. simpl. intros e He. lia.
Qed.

Lemma balanced_start b0 : balanced (cycle_ b0) (mkActor b0 []).
Proof.
  unfold balanced, count. simpl.
  repeat split; try lia; try reflexivity. constructor.
Qed.

(** ** Entries and what precedes them *)

Lemma each_from_nil (Q : list Entry -> Entry -> Prop) (pre : list Entry) :
  each_from Q pre [].
Proof. intros l1 e l2 H. destruct l1; discriminate. Qed.

Lemma each_from_cons (Q : list Entry -> Entry -> Prop) (pre : list Entry)
    (e : Entry) (l : list Entry) :
  Q pre e -> each_from Q (pre ++ [e]) l -> each_from Q pre (e :: l).
Proof.
  intros He Hl l1 e' l2 H. destruct l1 as [|x l1]; simpl in H.
  - injection H as <- _. rewrite app_nil_r. exact He.
  - injection H as <- H.
    replace (pre ++ e :: l1) with ((pre ++ [e]) ++ l1)
      by (rewrite <- app_assoc; reflexivity).
    apply (Hl l1 e' l2 H).
Qed.

Lemma each_from_app (Q : list Entry -> Entry -> Prop) (pre l l' : list Entry) :
  each_from Q pre l -> each_from Q (pre ++ l) l' -> each_from Q pre (l ++ l').
Proof.
  revert pre. induction l as [|x l IH]; intros pre Hl Hl'; simpl.
  - rewrite app_nil_r in Hl'. exact Hl'.
  - apply each_from_cons.
    + specialize (Hl [] x l eq_refl). rewrite app_nil_r in Hl. exact Hl.
    + apply IH.
      * intros l1 e l2 H.
        replace ((pre ++ [x]) ++ l1) with (pre ++ x :: l1)
          by (rewrite <- app_assoc; reflexivity).
        apply (Hl (x :: l1) e l2). simpl. rewrite H. reflexivity.
      * replace ((pre ++ [x]) ++ l) with (pre ++ x :: l)
          by (rewrite <- app_assoc; reflexivity).
        exact Hl'.
Qed.

Lemma each_from_Forall (P : Entry -> Prop) (Q : list Entry -> Entry -> Prop)
    (pre l : list Entry) :
  Forall P l ->
  (forall l1 e, Forall P l1 -> P e -> Q (pre ++ l1) e) ->
  each_from Q pre l.
Proof.
  intros HP HQ l1 e l2 H. subst l.
  apply Forall_app in HP. destruct HP as [H1 H2].
  apply HQ; [exact H1 | exact (Forall_inv H2)].
Qed.

Lemma count_cons (p : Entry -> bool) (e : Entry) (l : list Entry) :
  count p (e :: l) = ((if p e then 1 else 0) + count p l)%nat.
Proof. unfold count. simpl. destruct (p e); reflexivity. Qed.

Lemma count_none (p : Entry -> bool) (l : list Entry) :
  Forall (fun e => p e = false) l -> count p l = 0%nat.
Proof.
  intros H. unfold count. induction H as [|e l He _ IH]; simpl; [reflexivity|].
  rewrite He. exact IH.
Qed.

Lemma none_of_count (p : Entry -> bool) (l : list Entry) :
  count p l = 0%nat -> Forall (fun e => p e = false) l.
Proof.
  unfold count. induction l as [|e l IH]; simpl; intros H; [constructor|].
  destruct (p e) eqn:E; [discriminate|]. constructor; [exact E | apply IH, H].
Qed.

(** ** The shape of the logs *)

Lemma x_refresh_shape b n buf fx fy fz :
  exists enf,
    Forall (fun e => is_enforce e = true) enf /\
    log_of (x_refresh simulation n buf fx fy fz b) =
    if fst (Sync_done (sync_refresh_ b))
    then [mkEntry (cycle_ b) (Trace "CommBlock::x_refresh()");
          mkEntry (cycle_ b) (Trace "CommBlock::x_refresh() calling prepare()");
          mkEntry (cycle_ b) (Trace "CommBlock::prepare() %p")] ++
         enf ++
         [mkEntry (cycle_ b) (Trace "Calling contribute %d");
          mkEntry (cycle_ b)
            (Contribute
               (dt_block_of simulation
                  (after_boundary simulation
                     (arrived simulation b n buf fx fy fz)))
               (if complete simulation (cycle_ b) (time_ b)
                then 1%Q else 0%Q))]
    else [mkEntry (cycle_ b) (Trace "CommBlock::x_refresh()")].
Proof.
  eexists. split; [|rewrite x_refresh_run;
    destruct (fst (Sync_done (sync_refresh_ b))); unfold log_of; simpl snd;
    [unfold prepare_log; rewrite arrived_cycle, arrived_time|]; reflexivity].
  apply Forall_forall. intros e He. apply in_map_iff in He.
  destruct He as (fa & <- & _). reflexivity.
Qed.

Lemma p_compute_shape b cycle time dt :
  exists cb sent,
    Forall (fun e => is_method e = true) cb /\
    Forall (fun e => is_send e = true /\ at_cycle e = cycle_ b + 1) sent /\
    log_of (p_compute simulation cycle time dt b) =
    [mkEntry (cycle_ b)
       (Trace "CommBlock::p_compute() cycle %d time %f dt %f");
     mkEntry (cycle_ b) (Trace "CommBlock::compute()")] ++
    cb ++
    [mkEntry (cycle_ b + 1) (Trace "CommBlock::compute() calling refresh()");
     mkEntry (cycle_ b + 1) (Trace "CommBlock::refresh()")] ++
    sent ++
    log_of (x_refresh simulation 0 [] 0 0 0 (advanced simulation b)).
Proof.
  eexists. eexists. split; [|split].
  3: { rewrite p_compute_run. unfold log_of at 1. simpl snd.
       rewrite compute_run. unfold log_of at 1. simpl snd.
       rewrite refresh_run. unfold log_of at 1. simpl snd.
       reflexivity. }
  - apply Forall_forall. intros e He. apply in_map_iff in He.
    destruct He as (k & <- & _). reflexivity.
  - apply Forall_forall. intros e He. apply in_map_iff in He.
    destruct He as ([[x y] z] & <- & _). split; reflexivity.
Qed.

(** ** The order of the protocol events *)

Local Arguments count : simpl never.

Lemma count_nil (p : Entry -> bool) : count p [] = 0%nat.
Proof. reflexivity. Qed.

Ltac count_norm :=
  repeat (rewrite ?count_app, ?count_cons, ?count_nil; simpl).

Lemma each_from_none (p : Entry -> bool) (Q : list Entry -> Entry -> Prop)
    (pre l : list Entry) :
  (forall h1 e, p e = false -> Q h1 e) ->
  count p l = 0%nat -> each_from Q pre l.
Proof.
  intros HQ Hc. apply none_of_count in Hc.
  apply (each_from_Forall _ _ _ _ Hc). intros l1 e _ He. apply HQ, He.
Qed.

Lemma count_is_send_x_refresh b n buf fx fy fz :
  count is_send (log_of (x_refresh simulation n buf fx fy fz b)) = 0%nat.
Proof.
  pose proof (sends_x_refresh b n buf fx fy fz) as H.
  unfold ghost_messages in H. unfold count.
  destruct (filter is_send _); [reflexivity | discriminate].
Qed.

Lemma count_is_method_x_refresh b n buf fx fy fz :
  count is_method (log_of (x_refresh simulation n buf fx fy fz b)) = 0%nat.
Proof.
  unfold count. rewrite filter_x_refresh by reflexivity.
  unfold x_refresh_events.
  destruct (fst (Sync_done (sync_refresh_ b))); reflexivity.
Qed.

Lemma enforce_not_protocol (l : list Entry) :
  Forall (fun e => is_enforce e = true) l ->
  count is_contribute l = 0%nat /\ count is_quorum l = 0%nat.
Proof.
  intros H. split; apply count_none; eapply Forall_impl; try exact H;
    intros [c w] He; destruct w; try discriminate; reflexivity.
Qed.

Lemma prepare_at_quorum_x_refresh (pre : list Entry) b n buf fx fy fz :
  count is_quorum pre = count is_contribute pre ->
  each_from prepare_at_quorum pre
    (log_of (x_refresh simulation n buf fx fy fz b)).
Proof.
  intros Hpre.
  destruct (x_refresh_shape b n buf fx fy fz) as (enf & Henf & ->).
  destruct (fst (Sync_done (sync_refresh_ b))).
  - simpl app.
    apply each_from_cons; [intros [H|H]; discriminate|].
    apply each_from_cons; [intros [H|H]; discriminate|].
    apply each_from_cons; [intros [H|H]; discriminate|].
    apply each_from_app.
    + apply (each_from_Forall _ _ _ _ Henf). intros l1 e Hl1 _ _.
      destruct (enforce_not_protocol l1 Hl1) as [E1 E2].
      count_norm. rewrite E1, E2. lia.
    + destruct (enforce_not_protocol enf Henf) as [E1 E2].
      apply each_from_cons; [intros [H|H]; discriminate|].
      apply each_from_cons; [|apply each_from_nil].
      intros _. count_norm. rewrite E1, E2. lia.
  - apply each_from_cons; [intros [H|H]; discriminate | apply each_from_nil].
Qed.

Lemma method_not_protocol (l : list Entry) :
  Forall (fun e => is_method e = true) l ->
  count is_contribute l = 0%nat /\ count is_quorum l = 0%nat /\
  count is_compute l = 0%nat /\ count is_result l = 0%nat /\
  Forall (fun e => is_contribute e = false /\ is_result e = false /\
                   is_compute e = false) l.
Proof.
  intros H. repeat split; try apply count_none; eapply Forall_impl;
    try exact H; intros [c w] He; destruct w; try discriminate;
    repeat split; reflexivity.
Qed.

Lemma send_not_protocol (l : list Entry) :
  Forall (fun e => is_send e = true) l ->
  count is_contribute l = 0%nat /\ count is_quorum l = 0%nat /\
  count is_compute l = 0%nat /\ count is_result l = 0%nat /\
  count is_method l = 0%nat /\
  Forall (fun e => is_contribute e = false /\ is_result e = false /\
                   is_compute e = false) l.
Proof.
  intros H. repeat split; try apply count_none; eapply Forall_impl;
    try exact H; intros [c w] He; destruct w; try discriminate;
    repeat split; reflexivity.
Qed.

Lemma ordered_x_refresh (c0 : Z) (a : @Actor FieldData) n buf fx fy fz :
  balanced c0 a ->
  each_from (compute_is_due c0) (history a)
    (log_of (x_refresh simulation n buf fx fy fz (chare a))) /\
  each_from sends_open_cycle (history a)
    (log_of (x_refresh simulation n buf fx fy fz (chare a))) /\
  each_from prepare_at_quorum (history a)
    (log_of (x_refresh simulation n buf fx fy fz (chare a))) /\
  each_from compute_after_result (history a)
    (log_of (x_refresh simulation n buf fx fy fz (chare a))).
Proof.
  intros (Hq & Hr & Hk & Hc & Hcy & Hst).
  destruct (count_x_refresh (chare a) n buf fx fy fz)
    as (_ & _ & _ & _ & Hcomp).
  pose proof (none_of_count _ _ Hcomp) as Fc.
  pose proof (none_of_count _ _
                (count_is_method_x_refresh (chare a) n buf fx fy fz)) as Fm.
  split; [|split; [|split]].
  - apply (each_from_none is_compute); [|exact Hcomp].
    intros h1 e He H. congruence.
  - apply (each_from_none is_send); [|apply count_is_send_x_refresh].
    intros h1 e He H. congruence.
  - apply prepare_at_quorum_x_refresh, Hq.
  - apply (each_from_Forall
             (fun e => is_compute e = false /\ is_method e = false)).
    + apply Forall_forall. intros e He. split.
      * apply (proj1 (Forall_forall _ _) Fc e He).
      * apply (proj1 (Forall_forall _ _) Fm e He).
    + intros l1 e _ [E1 E2]. split; intros H; congruence.
Qed.

Lemma ordered_p_output (c0 : Z) (a : @Actor FieldData) (min_reduce : Q * Q) :
  each_from (compute_is_due c0) (history a)
    (log_of (p_output min_reduce (chare a))) /\
  each_from sends_open_cycle (history a)
    (log_of (p_output min_reduce (chare a))) /\
  each_from prepare_at_quorum (history a)
    (log_of (p_output min_reduce (chare a))) /\
  each_from compute_after_result (history a)
    (log_of (p_output min_reduce (chare a))).
Proof.
  rewrite p_output_run. unfold log_of. simpl snd.
  split; [|split; [|split]];
    repeat (apply each_from_cons;
            [first [ intros H; discriminate H
                   | intros [H|H]; discriminate H
                   | split; intros H; discriminate H ] |]);
    apply each_from_nil.
Qed.

Lemma ordered_p_compute (c0 : Z) (a : @Actor FieldData) cycle time dt :
  balanced c0 a ->
  (count is_compute (history a) < count is_check_in (history a))%nat ->
  each_from (compute_is_due c0) (history a)
    (log_of (p_compute simulation cycle time dt (chare a))) /\
  each_from sends_open_cycle (history a)
    (log_of (p_compute simulation cycle time dt (chare a))) /\
  each_from prepare_at_quorum (history a)
    (log_of (p_compute simulation cycle time dt (chare a))) /\
  each_from compute_after_result (history a)
    (log_of (p_compute simulation cycle time dt (chare a))).
Proof.
  intros (Hq & Hr & Hk & Hc & Hcy & Hst) Hd.
  destruct (p_compute_shape (chare a) cycle time dt)
    as (cb & sent & Hcb & Hsent & ->).
  assert (Hsent' : Forall (fun e => is_send e = true) sent).
  { eapply Forall_impl; [|exact Hsent]. intros e [H _]. exact H. }
  destruct (method_not_protocol cb Hcb) as (M1 & M2 & M3 & M4 & M5).
  destruct (send_not_protocol sent Hsent') as (S1 & S2 & S3 & S4 & S5 & S6).
  set (b1 := advanced simulation (chare a)).
  destruct (count_x_refresh b1 0 [] 0 0 0) as (_ & _ & _ & _ & Xc).
  pose proof (count_is_method_x_refresh b1 0 [] 0 0 0) as Xm.
  pose proof (count_is_send_x_refresh b1 0 [] 0 0 0) as Xs.
  simpl app.
  split; [|split; [|split]].
  - (* compute_is_due *)
    apply each_from_cons; [intros H; discriminate H|].
    apply each_from_cons.
    { intros _. count_norm. simpl at_cycle. lia. }
    apply each_from_app.
    { apply (each_from_Forall _ _ _ _ Hcb). intros l1 [c w] _ He H.
      destruct w; discriminate. }
    apply each_from_cons; [intros H; discriminate H|].
    apply each_from_cons; [intros H; discriminate H|].
    apply each_from_app.
    { apply (each_from_Forall _ _ _ _ Hsent'). intros l1 [c w] _ He H.
      destruct w; discriminate. }
    apply (each_from_none is_compute); [|exact Xc].
    intros h1 e He H. congruence.
  - (* sends_open_cycle *)
    apply each_from_cons; [intros H; discriminate H|].
    apply each_from_cons; [intros H; discriminate H|].
    apply each_from_app.
    { apply (each_from_Forall _ _ _ _ Hcb). intros l1 [c w] _ He H.
      destruct w; discriminate. }
    apply each_from_cons; [intros H; discriminate H|].
    apply each_from_cons; [intros H; discriminate H|].
    apply each_from_app.
    { apply (each_from_Forall _ _ _ _ Hsent). intros l1 e Hl1 [_ Hc1] _.
      rewrite Hc1. split.
      - exists (mkEntry (cycle_ (chare a)) (Trace "CommBlock::compute()")).
        split; [|split; [reflexivity | simpl; lia]].
        rewrite !in_app_iff. simpl. tauto.
      - intros e' He' Hp. rewrite !in_app_iff in He'. simpl in He'.
        assert (Hl1' : Forall (fun e => is_send e = true) l1).
        { eapply Forall_impl; [|exact Hl1]. intros x [H _]. exact H. }
        destruct (send_not_protocol l1 Hl1') as (_ & _ & _ & _ & _ & L6).
        rewrite Forall_forall in Hst, M5, L6.
        destruct He' as [[[[[[He'|[<-|[]]]|[<-|[]]]|He']|[<-|[]]]|[<-|[]]]|He'].
        + specialize (Hst e' He'). lia.
        + simpl. lia.
        + simpl. lia.
        + destruct (M5 e' He') as (C1 & C2 & _). destruct Hp; congruence.
        + destruct Hp as [Hp|Hp]; discriminate Hp.
        + destruct Hp as [Hp|Hp]; discriminate Hp.
        + destruct (L6 e' He') as (C1 & C2 & _). destruct Hp; congruence. }
    apply (each_from_none is_send); [|exact Xs].
    intros h1 e He H. congruence.
  - (* prepare_at_quorum *)
    apply each_from_cons; [intros [H|H]; discriminate H|].
    apply each_from_cons; [intros [H|H]; discriminate H|].
    apply each_from_app.
    { apply (each_from_Forall _ _ _ _ Hcb). intros l1 [c w] _ He [H|H];
        destruct w; discriminate. }
    apply each_from_cons; [intros [H|H]; discriminate H|].
    apply each_from_cons; [intros [H|H]; discriminate H|].
    apply each_from_app.
    { apply (each_from_Forall _ _ _ _ Hsent'). intros l1 [c w] _ He [H|H];
        destruct w; discriminate. }
    apply prepare_at_quorum_x_refresh.
    count_norm. rewrite M1, M2, S1, S2. lia.
  - (* compute_after_result *)
    apply each_from_cons; [split; intros H; discriminate H|].
    apply each_from_cons.
    { split; [|intros H; discriminate H]. intros _. count_norm. lia. }
    apply each_from_app.
    { apply (each_from_Forall _ _ _ _ Hcb). intros l1 e Hl1 He. split.
      - intros H. destruct e as [c w]. destruct w; discriminate.
      - intros _. destruct (method_not_protocol l1 Hl1) as (_ & _ & L3 & L4 & _).
        count_norm. rewrite L3, L4. lia. }
    apply each_from_cons; [split; intros H; discriminate H|].
    apply each_from_cons; [split; intros H; discriminate H|].
    apply each_from_app.
    { apply (each_from_Forall _ _ _ _ Hsent'). intros l1 [c w] _ He.
      split; intros H; destruct w; discriminate. }
    pose proof (none_of_count _ _ Xc) as Fc.
    pose proof (none_of_count _ _ Xm) as Fm.
    apply (each_from_Forall
             (fun e => is_compute e = false /\ is_method e = false)).
    + apply Forall_forall. intros e He. split.
      * apply (proj1 (Forall_forall _ _) Fc e He).
      * apply (proj1 (Forall_forall _ _) Fm e He).
    + intros l1 e _ [E1 E2]. split; intros H; congruence.
Qed.

Lemma ordered_step (c0 : Z) (a a' : @Actor FieldData) (m : Msg) :
  ordered c0 a -> step simulation a m = Some a' -> ordered c0 a'.
Proof.
  intros (Hb & H1 & H2 & H3 & H4) Hs.
  split; [eapply balanced_step; eassumption|].
  unfold step in Hs. destruct (deliverable a m) eqn:Hd; [|discriminate].
  injection Hs as <-. simpl history.
  assert (H : each_from (compute_is_due c0) (history a)
                (log_of (entry_method simulation m (chare a))) /\
              each_from sends_open_cycle (history a)
                (log_of (entry_method simulation m (chare a))) /\
              each_from prepare_at_quorum (history a)
                (log_of (entry_method simulation m (chare a))) /\
              each_from compute_after_result (history a)
                (log_of (entry_method simulation m (chare a)))).
  { destruct m as [n buf fx fy fz | min_reduce | cycle time dt];
      simpl entry_method; simpl in Hd.
    - apply ordered_x_refresh, Hb.
    - apply ordered_p_output.
    - apply ordered_p_compute; [exact Hb | apply Nat.ltb_lt, Hd]. }
  destruct H as (L1 & L2 & L3 & L4).
  split; [|split; [|split]]; apply each_from_app; assumption.
Qed.

Lemma ordered_reachable b0 (a : @Actor FieldData) :
  reachable simulation b0 a -> ordered (cycle_ b0) a.
Proof.
  intros [ms Hr].
  assert (H0 : ordered (cycle_ b0) (mkActor b0 [])).
  { split; [apply balanced_start|].
    split; [|split; [|split]]; apply each_from_nil. }
  revert Hr H0. generalize (mkActor b0 []). 
  induction ms as [|m ms IH]; intros a0 Hr H0; simpl in Hr.
  - injection Hr as <-. exact H0.
  - destruct (step simulation a0 m) as [a1|] eqn:Hs; [|discriminate].
    apply (IH a1 Hr). eapply ordered_step; eassumption.
Qed.

(** ** The cycle counter and the barrier *)


(** C4 (as amended).  In every history an actor can reach from a fresh
    one: the ghost messages of a cycle [c] are packed and sent by
    [compute] of cycle [c - 1], right after it advanced the counter,
    before anything was contributed to or delivered by the reduction of
    cycle [c]; boundary enforcement and the contribution to the
    reduction (PREPARE) happen only when the arrival counter has
    reached a ghost quorum not yet answered by a [prepare]; and
    [compute] starts, and calls the Methods, only after a Reduction
    Result was delivered that no earlier [compute] has used. *)
Theorem protocol_order b0 (a : @Actor FieldData) :
  reachable simulation b0 a ->
  forall h1 e h2,
    history a = h1 ++ e :: h2 ->
    (is_send e = true ->
     (exists e', In e' h1 /\ is_compute e' = true /\
                 at_cycle e' = at_cycle e - 1) /\
     (forall e', In e' h1 ->
                 is_contribute e' = true \/ is_result e' = true ->
                 at_cycle e' < at_cycle e)) /\
    (is_enforce e = true \/ is_contribute e = true ->
     (count is_contribute h1 < count is_quorum h1)%nat) /\
    (is_compute e = true ->
     (count is_compute h1 < count is_result h1)%nat) /\
    (is_method e = true ->
     (0 < count is_compute h1 <= count is_result h1)%nat).
Proof.
  intros Hr h1 e h2 Hh.
  destruct (ordered_reachable b0 a Hr) as (_ & _ & H2 & H3 & H4).
  split; [apply (H2 h1 e h2 Hh)|].
  split; [apply (H3 h1 e h2 Hh)|].
  apply (H4 h1 e h2 Hh).
Qed.

End Properties.

(** * The properties at work on example configurations *)

Lemma for_all_axes (P : axis_enum -> Prop) :
  P axis_x -> P axis_y -> P axis_z -> forall a, P a.
Proof. intros Hx Hy Hz [| |]; assumption. Qed.

(** a block of 8 x 8 x 8 cells in the middle of a periodic forest of
    3 x 3 x 3 blocks, all refresh classes enabled: quorum 27 *)
Lemma quorum_periodic_domain_witness :
  count_refresh_ (example_simulation true true true true)
    (example_block (example_simulation true true true true)
       (1, 1, 1) (3, 3, 3) (8, 8, 8)) = 1 + 6 + 12 + 8.
Proof.
  apply (quorum_periodic_domain (example_simulation true true true true)
           (example_block (example_simulation true true true true)
              (1, 1, 1) (3, 3, 3) (8, 8, 8))).
  - reflexivity.
  - apply for_all_axes; simpl; lia.
  - apply for_all_axes; simpl; lia.
  - reflexivity.
  - reflexivity.
  - reflexivity.
Defined.

(** C3 as stated fails: a block of 8 x 8 x 1 cells in the same forest
    with face-only refresh has quorum 5, not 7. *)
Lemma quorum_periodic_domain_single_cell :
  ~ (forall b : @CommBlock unit,
       is_periodic (example_simulation true true false false) = true ->
       (forall a, 3 <= at3 (size_ b) a) ->
       count_refresh_ (example_simulation true true false false) b = 1 + 6).
Proof.
  intros H.
  specialize (H (example_block (example_simulation true true false false)
                   (1, 1, 1) (3, 3, 3) (8, 8, 1))).
  assert (E : count_refresh_ (example_simulation true true false false)
                (example_block (example_simulation true true false false)
                   (1, 1, 1) (3, 3, 3) (8, 8, 1)) = 5) by reflexivity.
  rewrite E in H. 
  assert (5 = 1 + 6) by (apply H; [reflexivity | apply for_all_axes; simpl; lia]).
  discriminate.
Qed.

(** C6 at work: the flat block, one cell thick along z, counts only
    directions that lie in the x-y plane. *)
Lemma single_cell_axis_inactive_witness :
  cells flat_block axis_z = 1 /\
  count_refresh_ periodic_simulation flat_block =
  1 + Z.of_nat (List.length
                  (filter (fun d => at3 d axis_z =? 0)
                     (active_directions periodic_simulation flat_block))).
Proof.
  split; [reflexivity|].
  apply (single_cell_axis_inactive periodic_simulation flat_block axis_z).
  reflexivity.
Defined.

Lemma corner_block_well_formed : well_formed corner_block.
Proof. split; [reflexivity | apply for_all_axes; simpl; lia]. Qed.

(** C7 at work: the ghost messages of the corner block. *)
Lemma refresh_sends_to_neighbors_witness :
  well_formed corner_block /\
  ghost_messages (log_of (refresh periodic_simulation corner_block)) =
  map (fun d => XRefresh (neighbor corner_block d)
                  (fst (load periodic_simulation d (block_ corner_block)))
                  (snd (load periodic_simulation d (block_ corner_block)))
                  (- fst (fst d)) (- snd (fst d)) (- snd d))
      (active_directions periodic_simulation corner_block).
Proof.
  split; [exact corner_block_well_formed|].
  apply (refresh_sends_to_neighbors periodic_simulation corner_block).
  split; [reflexivity | apply for_all_axes; simpl; lia].
Defined.

(** C8 at work: the lonely block has quorum 1, and the arrival of its
    empty message reaches the quorum. *)
Lemma quorum_is_self_plus_active_witness :
  active_directions lonely_simulation lonely_block = [] /\
  count_refresh_ lonely_simulation lonely_block = 1 /\
  count is_quorum
    (log_of (x_refresh lonely_simulation 0 [] 0 0 0 lonely_block)) = 1%nat.
Proof.
  split; [reflexivity|].
  destruct (quorum_is_self_plus_active lonely_simulation lonely_block)
    as (_ & _ & H).
  destruct H as (H1 & _ & H2 & _); [reflexivity | reflexivity |].
  split; [exact H1 | exact H2].
Defined.

Lemma periodic_actor_reachable :
  reachable periodic_simulation periodic_block periodic_actor.
Proof. exists periodic_messages. vm_compute. reflexivity. Qed.


(** C4 at work: the periodic block after its first cycle. *)
Lemma protocol_order_witness :
  reachable periodic_simulation periodic_block periodic_actor /\
  forall h1 e h2,
    history periodic_actor = h1 ++ e :: h2 ->
    is_compute e = true ->
    (count is_compute h1 < count is_result h1)%nat.
Proof.
  split; [exact periodic_actor_reachable|].
  intros h1 e h2 Hh.
  apply (protocol_order periodic_simulation periodic_block periodic_actor
           (ex_intro _ periodic_messages eq_refl) h1 e h2 Hh).
Defined.

(** C1 as stated fails: of two actors, one with its stop flag set and
    one without, the reduction delivers no stop. *)
Lemma reduction_stop_of_one_actor :
  ~ (forall (c : Q * bool) (cs : list (Q * bool)),
       exists min_reduce,
         reduction (map min_reduce_of (c :: cs)) = Some min_reduce /\
         (stop_forest_of min_reduce = true <->
          exists x, In x (c :: cs) /\ snd x = true)).
Proof.
  intros H.
  destruct (H (1%Q, true) [(1%Q, false)]) as (m & Hm & Hs).
  assert (F : stop_forest_of m = true).
  { apply Hs. exists (1%Q, true). split; [left; reflexivity | reflexivity]. }
  vm_compute in Hm. injection Hm as <-.
  vm_compute in F. discriminate F.
Qed.

(** C5 as stated fails: in a periodic domain [prepare] enforces the
    boundary conditions on the lower x face of the corner block. *)
Lemma prepare_enforces_periodic_boundary :
  ~ (forall (b : @CommBlock unit) (f : face_enum) (a : axis_enum),
       In (f, a) (enforced (log_of (prepare periodic_simulation b))) <->
       is_on_boundary b a f = true /\
       is_periodic periodic_simulation = false).
Proof.
  intros H.
  assert (E : In (face_lower, axis_x)
                (enforced (log_of (prepare periodic_simulation corner_block)))).
  { vm_compute. left. reflexivity. }
  apply H in E. destruct E as [_ E]. discriminate E.
Qed.

(** C4 as stated fails: the periodic block sends the ghost messages of
    cycle 1 at the end of [compute] of cycle 0, before it has prepared
    for, contributed to or heard from the reduction of cycle 1. *)
Lemma ghost_messages_precede_reduction :
  ~ (forall a : @Actor unit,
       reachable periodic_simulation periodic_block a ->
       claimed_order (history a)).
Proof.
  intros H.
  specialize (H periodic_actor periodic_actor_reachable).
  destruct (H (firstn 26 (history periodic_actor))
              (nth 26 (history periodic_actor) (mkEntry 0 SimulationPOutput))
              (skipn 27 (history periodic_actor)) eq_refl) as [Hs _].
  destruct (Hs eq_refl) as (r & Hin & Hres & Hcyc).
  simpl in Hin.
  repeat (destruct Hin as [<-|Hin];
          [first [discriminate Hcyc | discriminate Hres]|]).
  contradiction.
Qed.

(** * Further properties of the block protocol *)

Section Quorum.

Context {FieldData : Type}.
Variable simulation : @Simulation FieldData.
Implicit Types b : @CommBlock FieldData.

(** X1.  The quorum computed by [count_refresh_] always lies between 1
    and 27, whatever the block, the periodicity and the refresh
    classes: the arrival counter never waits for nothing and never for
    more than the self message and the 26 neighbours. *)
Theorem quorum_bounds b :
  1 <= count_refresh_ simulation b <= 27.
Proof.
  rewrite count_refresh_active. unfold active_directions.
  rewrite (filter_ext _ _ (active_active_of simulation b)).
  generalize (face_flag simulation b axis_x face_lower)
             (face_flag simulation b axis_x face_upper)
             (face_flag simulation b axis_y face_lower)
             (face_flag simulation b axis_y face_upper)
             (face_flag simulation b axis_z face_lower)
             (face_flag simulation b axis_z face_upper)
             (refresh_face simulation 0) (refresh_face simulation 1)
             (refresh_face simulation 2).
  intros xm xp ym yp zm zp r0 r1 r2.
  destruct r0, r1, r2, xm, xp, ym, yp, zm, zp; vm_compute;
    split; discriminate.
Qed.

(** X2.  With the three refresh classes enabled, the quorum computed
    by the 26 hand-written conditions of [count_refresh_] is the
    product, over the three axes, of the number of offsets among
    [-1, 0, 1] the block may exchange ghost zones in along the axis. *)
Theorem quorum_is_product_of_offsets b :
  refresh_face simulation 2 = true ->
  refresh_face simulation 1 = true ->
  refresh_face simulation 0 = true ->
  count_refresh_ simulation b =
  Z.of_nat (List.length (admissible_offsets simulation b axis_x)) *
  Z.of_nat (List.length (admissible_offsets simulation b axis_y)) *
  Z.of_nat (List.length (admissible_offsets simulation b axis_z)).
Proof.
  intros R2 R1 R0. unfold count_refresh_, admissible_offsets. cbv zeta.
  rewrite R2, R1, R0.
  change (nx_ (block_ b)) with (cells b axis_x).
  change (ny_ (block_ b)) with (cells b axis_y).
  change (nz_ (block_ b)) with (cells b axis_z).
  fold (face_flag simulation b axis_x face_lower).
  fold (face_flag simulation b axis_x face_upper).
  fold (face_flag simulation b axis_y face_lower).
  fold (face_flag simulation b axis_y face_upper).
  fold (face_flag simulation b axis_z face_lower).
  fold (face_flag simulation b axis_z face_upper).
  assert (E : forall a,
             filter (component_active simulation b a) [-1; 0; 1] =
             filter (flag_of (face_flag simulation b a face_lower)
                             (face_flag simulation b a face_upper))
                    [-1; 0; 1]).
  { intros a. reflexivity. }
  rewrite !E.
  generalize (face_flag simulation b axis_x face_lower)
             (face_flag simulation b axis_x face_upper)
             (face_flag simulation b axis_y face_lower)
             (face_flag simulation b axis_y face_upper)
             (face_flag simulation b axis_z face_lower)
             (face_flag simulation b axis_z face_upper).
  intros xm xp ym yp zm zp.
  destruct xm, xp, ym, yp, zm, zp; reflexivity.
Qed.

End Quorum.

Section Traffic.

Context {FieldData : Type}.
Variable simulation : @Simulation FieldData.
Implicit Types b : @CommBlock FieldData.

Lemma opposite_directions (d : int3) :
  In d directions -> In (opposite d) directions.
Proof.
  intros H. apply in_directions in H. apply in_directions.
  destruct d as [[dx dy] dz]. simpl. lia.
Qed.

Lemma opposite_involutive (d : int3) : opposite (opposite d) = d.
Proof.
  destruct d as [[dx dy] dz]. simpl. rewrite !Z.opp_involutive. reflexivity.
Qed.

Lemma eqb3_eq (i j : int3) : eqb3 i j = true <-> i = j.
Proof.
  destruct i as [[ix iy] iz], j as [[jx jy] jz]. unfold eqb3.
  rewrite !andb_true_iff, !Z.eqb_eq. split.
  - intros [[-> ->] ->]. reflexivity.
  - intros H. injection H as -> -> ->. auto.
Qed.

(** one axis of the exchange: a component that is active at the
    sender arrives at a block where the opposite component is active,
    and the opposite step leads back *)
Lemma component_answered b b' (a : axis_enum) (d : Z) :
  (forall a, 0 <= at3 (index_ b) a < at3 (size_ b) a) ->
  (forall a, 0 <= at3 (index_ b') a < at3 (size_ b') a) ->
  same_forest b b' ->
  d = -1 \/ d = 0 \/ d = 1 ->
  component_active simulation b a d = true ->
  (at3 (index_ b) a + d) mod at3 (size_ b) a = at3 (index_ b') a ->
  component_active simulation b' a (- d) = true /\
  (at3 (index_ b') a - d) mod at3 (size_ b') a = at3 (index_ b) a.
Proof.
  intros Hb Hb' [Hs Hc] Hd Ha Hn.
  specialize (Hb a). specialize (Hb' a). specialize (Hc a).
  rewrite <- Hs in *. 
  set (n := at3 (size_ b) a) in *.
  set (i := at3 (index_ b) a) in *.
  set (i' := at3 (index_ b') a) in *.
  assert (Hback : (i' - d) mod n = i).
  { rewrite <- Hn, Zminus_mod_idemp_l.
    replace (i + d - d) with i by lia. apply Z.mod_small. lia. }
  split; [|exact Hback].
  unfold component_active, is_on_boundary in *.
  fold i in Ha. fold i'. rewrite <- Hs. fold n in Ha. fold n.
  rewrite <- Hc.
  destruct (is_periodic simulation).
  - destruct Hd as [ -> | [ -> | -> ] ]; simpl in *;
      rewrite ?andb_true_r in *; assumption.
  - destruct Hd as [ -> | [ -> | -> ] ]; simpl in *.
    + apply andb_true_iff in Ha. destruct Ha as [Ha1 Ha2].
      apply negb_true_iff, Z.eqb_neq in Ha2.
      rewrite Z.mod_small in Hn by lia.
      rewrite Ha1. simpl. apply negb_true_iff, Z.eqb_neq. lia.
    + reflexivity.
    + apply andb_true_iff in Ha. destruct Ha as [Ha1 Ha2].
      apply negb_true_iff, Z.eqb_neq in Ha2.
      rewrite Z.mod_small in Hn by lia.
      rewrite Ha1. simpl. apply negb_true_iff, Z.eqb_neq. lia.
Qed.

Lemma class_enabled_opposite (d : int3) :
  class_enabled simulation (opposite d) = class_enabled simulation d.
Proof.
  destruct d as [[dx dy] dz]. unfold class_enabled, weight, opposite.
  rewrite !Z.abs_opp. reflexivity.
Qed.

Lemma direction_answered b b' (d : int3) :
  (forall a, 0 <= at3 (index_ b) a < at3 (size_ b) a) ->
  (forall a, 0 <= at3 (index_ b') a < at3 (size_ b') a) ->
  same_forest b b' ->
  In d directions ->
  active simulation b d = true ->
  neighbor b d = index_ b' ->
  active simulation b' (opposite d) = true /\
  neighbor b' (opposite d) = index_ b.
Proof.
  intros Hb Hb' Hs Hd Ha Hn.
  apply in_directions in Hd. destruct d as [[dx dy] dz].
  destruct Hd as (Hx & Hy & Hz).
  unfold active in Ha. rewrite !andb_true_iff in Ha.
  destruct Ha as [[[Ax Ay] Az] Ac].
  assert (Nx : (at3 (index_ b) axis_x + dx) mod at3 (size_ b) axis_x =
               at3 (index_ b') axis_x).
  { rewrite <- Hn. unfold neighbor.
    destruct (index_ b) as [[? ?] ?], (size_ b) as [[? ?] ?]. reflexivity. }
  assert (Ny : (at3 (index_ b) axis_y + dy) mod at3 (size_ b) axis_y =
               at3 (index_ b') axis_y).
  { rewrite <- Hn. unfold neighbor.
    destruct (index_ b) as [[? ?] ?], (size_ b) as [[? ?] ?]. reflexivity. }
  assert (Nz : (at3 (index_ b) axis_z + dz) mod at3 (size_ b) axis_z =
               at3 (index_ b') axis_z).
  { rewrite <- Hn. unfold neighbor.
    destruct (index_ b) as [[? ?] ?], (size_ b) as [[? ?] ?]. reflexivity. }
  destruct (component_answered b b' axis_x dx Hb Hb' Hs Hx Ax Nx) as [Bx Mx].
  destruct (component_answered b b' axis_y dy Hb Hb' Hs Hy Ay Ny) as [By My].
  destruct (component_answered b b' axis_z dz Hb Hb' Hs Hz Az Nz) as [Bz Mz].
  split.
  - unfold active, opposite. rewrite Bx, By, Bz.
    change (class_enabled simulation (- dx, - dy, - dz))
      with (class_enabled simulation (opposite (dx, dy, dz))).
    rewrite class_enabled_opposite. exact Ac.
  - unfold neighbor, opposite.
    destruct (index_ b') as [[ix' iy'] iz'], (size_ b') as [[nx' ny'] nz'].
    destruct (index_ b) as [[ix iy] iz]. simpl in Mx, My, Mz.
    rewrite !Z.add_opp_r, Mx, My, Mz. reflexivity.
Qed.

Lemma refresh_messages b :
  well_formed b ->
  ghost_messages (log_of (refresh simulation b)) =
  map (ghost_message simulation b) (active_directions simulation b).
Proof.
  intros Hwf.
  rewrite ghost_messages_refresh, (refresh_directions simulation b Hwf).
  apply map_ext_in. intros d Hd. apply filter_In in Hd.
  apply face_message_ghost_message; [exact Hwf | apply Hd].
Qed.

(** X3.  Every ghost message is expected where it arrives.  If a
    well-formed block sends a ghost message to the index of a
    well-formed block of the same forest (same block counts, same
    local cell counts), then the direction the message is tagged with
    is active at the receiver, so that the receiver counts it towards
    its quorum, and the receiver's neighbour in that direction is the
    sender. *)
Theorem ghost_message_is_expected b b' index n array (fx fy fz : Z) :
  well_formed b -> well_formed b' -> same_forest b b' ->
  In (XRefresh index n array fx fy fz)
     (ghost_messages (log_of (refresh simulation b))) ->
  index = index_ b' ->
  active simulation b' (fx, fy, fz) = true /\
  neighbor b' (fx, fy, fz) = index_ b.
Proof.
  intros Hwf Hwf' Hs Hin ->.
  rewrite (refresh_messages b Hwf) in Hin.
  apply in_map_iff in Hin. destruct Hin as (d & Hm & Hd).
  apply filter_In in Hd. destruct Hd as [Hd Ha].
  destruct d as [[dx dy] dz]. unfold ghost_message in Hm.
  injection Hm as Hn _ _ <- <- <-.
  apply (direction_answered b b' (dx, dy, dz));
    [apply Hwf | apply Hwf' | exact Hs | exact Hd | exact Ha | exact Hn].
Qed.

End Traffic.

(** ** Counting the traffic of a forest *)

Lemma length_filter_sum {A : Type} (p : A -> bool) (l : list A) :
  List.length (filter p l) =
  list_sum (map (fun x => if p x then 1%nat else 0%nat) l).
Proof.
  induction l as [|x l IH]; simpl; [reflexivity|].
  destruct (p x); simpl; rewrite IH; reflexivity.
Qed.

Lemma list_sum_ext_in {A : Type} (f g : A -> nat) (l : list A) :
  (forall x, In x l -> f x = g x) ->
  list_sum (map f l) = list_sum (map g l).
Proof. intros H. f_equal. apply map_ext_in, H. Qed.

Lemma list_sum_swap {A B : Type} (f : A -> B -> nat) (l : list A) (l' : list B) :
  list_sum (map (fun x => list_sum (map (fun y => f x y) l')) l) =
  list_sum (map (fun y => list_sum (map (fun x => f x y) l)) l').
Proof.
  induction l as [|x l IH]; simpl.
  - induction l' as [|y l' IH']; simpl; [reflexivity | exact IH'].
  - rewrite IH. clear IH.
    induction l' as [|y l' IH']; simpl; [reflexivity|].
    rewrite <- IH'. lia.
Qed.

Lemma list_sum_flat_map {A B : Type} (g : B -> nat) (f : A -> list B)
    (l : list A) :
  list_sum (map g (flat_map f l)) =
  list_sum (map (fun x => list_sum (map g (f x))) l).
Proof.
  induction l as [|x l IH]; simpl; [reflexivity|].
  rewrite map_app, list_sum_app, IH. reflexivity.
Qed.

Lemma list_sum_zero {A : Type} (l : list A) :
  list_sum (map (fun _ => 0%nat) l) = 0%nat.
Proof. induction l; simpl; auto. Qed.

Lemma list_sum_guard {A : Type} (c : bool) (p : A -> bool) (l : list A) :
  list_sum (map (fun x => if c && p x then 1%nat else 0%nat) l) =
  if c then list_sum (map (fun x => if p x then 1%nat else 0%nat) l)
  else 0%nat.
Proof. destruct c; simpl; [reflexivity | apply list_sum_zero]. Qed.

Lemma in_range (lo hi x : Z) : In x (range lo hi) <-> lo <= x <= hi.
Proof.
  unfold range. rewrite in_map_iff. split.
  - intros (k & <- & Hk). apply in_seq in Hk. lia.
  - intros H. exists (Z.to_nat (x - lo)). split; [lia|].
    apply in_seq. lia.
Qed.

Lemma NoDup_map_injective {A B : Type} (f : A -> B) (l : list A) :
  (forall x y, f x = f y -> x = y) -> NoDup l -> NoDup (map f l).
Proof.
  intros Hf. induction 1 as [|x l Hx Hl IH]; simpl; constructor; [|exact IH].
  intros H. apply in_map_iff in H. destruct H as (y & E & Hy).
  apply Hf in E. subst y. contradiction.
Qed.

Lemma NoDup_range (lo hi : Z) : NoDup (range lo hi).
Proof.
  unfold range. apply NoDup_map_injective; [|apply seq_NoDup].
  intros x y H. lia.
Qed.

Lemma sum_hits_notin (j : Z) (l : list Z) :
  ~ In j l ->
  list_sum (map (fun x => if x =? j then 1%nat else 0%nat) l) = 0%nat.
Proof.
  induction l as [|x l IH]; simpl; intros H; [reflexivity|].
  destruct (Z.eqb_spec x j); [exfalso; auto|]. apply IH. tauto.
Qed.

Lemma sum_hits_once (j : Z) (l : list Z) :
  NoDup l -> In j l ->
  list_sum (map (fun x => if x =? j then 1%nat else 0%nat) l) = 1%nat.
Proof.
  induction 1 as [|x l Hx Hl IH]; simpl; intros Hj; [contradiction|].
  destruct (Z.eqb_spec x j) as [->|Hn].
  - rewrite (sum_hits_notin j l Hx). reflexivity.
  - apply IH. destruct Hj; [contradiction | assumption].
Qed.

Lemma in_forest_indices (size i : int3) :
  In i (forest_indices size) <->
  forall a, 0 <= at3 i a < at3 size a.
Proof.
  destruct size as [[nbx nby] nbz], i as [[ix iy] iz].
  unfold forest_indices. rewrite in_flat_map. split.
  - intros (x & Hx & H). apply in_flat_map in H. destruct H as (y & Hy & H).
    apply in_map_iff in H. destruct H as (z & E & Hz).
    injection E as <- <- <-.
    apply in_range in Hx, Hy, Hz. intros [| |]; simpl; lia.
  - intros H. pose proof (H axis_x). pose proof (H axis_y).
    pose proof (H axis_z). simpl in *.
    exists ix. split; [apply in_range; lia|].
    apply in_flat_map. exists iy. split; [apply in_range; lia|].
    apply in_map_iff. exists iz. split; [reflexivity | apply in_range; lia].
Qed.

Lemma forest_hits_once (size j : int3) :
  In j (forest_indices size) ->
  list_sum (map (fun i => if eqb3 i j then 1%nat else 0%nat)
              (forest_indices size)) = 1%nat.
Proof.
  intros Hj'. pose proof (proj1 (in_forest_indices size j) Hj') as Hj.
  pose proof (Hj axis_x) as Hx. pose proof (Hj axis_y) as Hy.
  pose proof (Hj axis_z) as Hz.
  destruct size as [[nbx nby] nbz], j as [[jx jy] jz]. simpl in Hx, Hy, Hz.
  unfold forest_indices.
  rewrite list_sum_flat_map.
  rewrite (list_sum_ext_in _
             (fun x => if x =? jx then 1%nat else 0%nat)).
  - apply sum_hits_once; [apply NoDup_range | apply in_range; lia].
  - intros x _. rewrite list_sum_flat_map.
    rewrite (list_sum_ext_in _
               (fun y => if (x =? jx) && (y =? jy) then 1%nat else 0%nat)).
    + rewrite list_sum_guard. destruct (x =? jx); [|reflexivity].
      apply sum_hits_once; [apply NoDup_range | apply in_range; lia].
    + intros y _. rewrite map_map. unfold eqb3.
      rewrite (list_sum_guard ((x =? jx) && (y =? jy)) (fun z => z =? jz)).
      destruct ((x =? jx) && (y =? jy)); [|reflexivity].
      apply sum_hits_once; [apply NoDup_range | apply in_range; lia].
Qed.

Section ForestTraffic.

Context {FieldData : Type}.
Variable simulation : @Simulation FieldData.
Implicit Types b : @CommBlock FieldData.

Lemma length_filter_map_filter {A B : Type} (p : B -> bool) (f : A -> B)
    (q : A -> bool) (l : list A) :
  List.length (filter p (map f (filter q l))) =
  list_sum (map (fun x => if q x && p (f x) then 1%nat else 0%nat) l).
Proof.
  induction l as [|x l IH]; simpl; [reflexivity|].
  destruct (q x); simpl; [|exact IH].
  destruct (p (f x)); simpl; rewrite IH; reflexivity.
Qed.

Lemma addressed_to_ghost_message b (d j : int3) :
  addressed_to j (ghost_message simulation b d) = eqb3 (neighbor b d) j.
Proof. destruct d as [[dx dy] dz]. reflexivity. Qed.

Lemma neighbor_in_forest b (d : int3) :
  (forall a, 0 <= at3 (index_ b) a < at3 (size_ b) a) ->
  In (neighbor b d) (forest_indices (size_ b)).
Proof.
  intros H. apply in_forest_indices.
  pose proof (H axis_x). pose proof (H axis_y). pose proof (H axis_z).
  unfold neighbor. destruct d as [[dx dy] dz].
  destruct (index_ b) as [[ix iy] iz], (size_ b) as [[nx ny] nz].
  simpl in *. intros [| |]; simpl; apply Z.mod_pos_bound; lia.
Qed.

Lemma sum_over_opposite (g : int3 -> nat) :
  list_sum (map (fun d => g (opposite d)) directions) =
  list_sum (map g directions).
Proof. unfold directions. simpl. lia. Qed.

Lemma uniform_forest_block (F : int3 -> @CommBlock FieldData)
    (size ncells i : int3) :
  uniform_forest F size ncells -> In i (forest_indices size) ->
  well_formed (F i) /\ index_ (F i) = i /\ size_ (F i) = size /\
  (forall a, cells (F i) a = at3 ncells a).
Proof.
  intros HF Hi. destruct (HF i Hi) as (E1 & E2 & E3 & E4).
  split; [|split; [exact E2 | split; [exact E3 | exact E4]]].
  split; [congruence|].
  rewrite E2, E3. apply (proj1 (in_forest_indices size i) Hi).
Qed.

(** a message goes from [i] to [j] in direction [d] exactly when [j]
    expects one from its neighbour [i] in the opposite direction *)
Lemma sent_iff_expected (F : int3 -> @CommBlock FieldData)
    (size ncells i j d : int3) :
  uniform_forest F size ncells ->
  In i (forest_indices size) -> In j (forest_indices size) ->
  In d directions ->
  active simulation (F i) d && eqb3 (neighbor (F i) d) j =
  active simulation (F j) (opposite d) &&
  eqb3 i (neighbor (F j) (opposite d)).
Proof.
  intros HF Hi Hj Hd.
  destruct (uniform_forest_block F size ncells i HF Hi)
    as ([_ Wi] & Ii & Si & Ci).
  destruct (uniform_forest_block F size ncells j HF Hj)
    as ([_ Wj] & Ij & Sj & Cj).
  assert (Sij : same_forest (F i) (F j)).
  { split; [congruence | intros a; rewrite Ci, Cj; reflexivity]. }
  assert (Sji : same_forest (F j) (F i)).
  { split; [congruence | intros a; rewrite Ci, Cj; reflexivity]. }
  apply eq_true_iff_eq. rewrite !andb_true_iff, !eqb3_eq. split.
  - intros [Ha Hn]. rewrite <- Ij in Hn.
    destruct (direction_answered simulation (F i) (F j) d Wi Wj Sij Hd Ha Hn)
      as [Ha' Hn'].
    split; [exact Ha' | congruence].
  - intros [Ha Hn]. rewrite <- Ii in Hn. symmetry in Hn.
    destruct (direction_answered simulation (F j) (F i) (opposite d)
                Wj Wi Sji (opposite_directions d Hd) Ha Hn) as [Ha' Hn'].
    rewrite opposite_involutive in Ha', Hn'.
    split; [exact Ha' | congruence].
Qed.

(** X4.  The quorum matches the traffic.  In a forest whose blocks all
    have the same local cell counts, when every block runs [refresh]
    once, the number of ghost messages addressed to a block is exactly
    the quorum [count_refresh_] computes for that block, less the one
    empty message the block sends to itself. *)
Theorem quorum_matches_traffic (F : int3 -> @CommBlock FieldData)
    (size ncells j : int3) :
  uniform_forest F size ncells ->
  In j (forest_indices size) ->
  count_refresh_ simulation (F j) =
  1 + Z.of_nat (List.length (received simulation F size j)).
Proof.
  intros HF Hj.
  rewrite count_refresh_active. do 2 f_equal.
  unfold received. rewrite length_flat_map.
  rewrite (list_sum_ext_in _
             (fun i => list_sum (map (fun d =>
                if active simulation (F j) (opposite d) &&
                   eqb3 i (neighbor (F j) (opposite d))
                then 1%nat else 0%nat) directions))).
  2: { intros i Hi.
       destruct (uniform_forest_block F size ncells i HF Hi) as (Wi & _).
       rewrite (refresh_messages simulation (F i) Wi).
       unfold active_directions. rewrite length_filter_map_filter.
       apply list_sum_ext_in. intros d Hd.
       rewrite addressed_to_ghost_message.
       rewrite (sent_iff_expected F size ncells i j d HF Hi Hj Hd).
       reflexivity. }
  rewrite list_sum_swap.
  rewrite (list_sum_ext_in _
             (fun d => if active simulation (F j) (opposite d)
                       then 1%nat else 0%nat)).
  2: { intros d Hd. rewrite list_sum_guard.
       destruct (active simulation (F j) (opposite d)); [|reflexivity].
       apply forest_hits_once.
       destruct (uniform_forest_block F size ncells j HF Hj)
         as ([_ Wj] & _ & Sj & _).
       rewrite <- Sj. apply neighbor_in_forest, Wj. }
  rewrite (sum_over_opposite
             (fun d => if active simulation (F j) d then 1%nat else 0%nat)).
  unfold active_directions. rewrite length_filter_sum. reflexivity.
Qed.

End ForestTraffic.

Section Cycle.

Context {FieldData : Type}.
Variable simulation : @Simulation FieldData.
Implicit Types b : @CommBlock FieldData.

Lemma after_boundary_dt b : dt_ (after_boundary simulation b) = dt_ b.
Proof. destruct (after_boundary_frame simulation b) as [d ->]. reflexivity. Qed.

Lemma after_boundary_sync b :
  sync_refresh_ (after_boundary simulation b) = sync_refresh_ b.
Proof. destruct (after_boundary_frame simulation b) as [d ->]. reflexivity. Qed.

Lemma arrived_dt b n buf fx fy fz :
  dt_ (arrived simulation b n buf fx fy fz) = dt_ b.
Proof. unfold arrived. destruct (n =? 0); reflexivity. Qed.

Lemma arrived_sync b n buf fx fy fz :
  sync_refresh_ (arrived simulation b n buf fx fy fz) =
  snd (Sync_done (sync_refresh_ b)).
Proof. unfold arrived. destruct (n =? 0); reflexivity. Qed.

Lemma x_refresh_keeps b n buf fx fy fz :
  time_ (state_of (x_refresh simulation n buf fx fy fz b)) = time_ b /\
  dt_ (state_of (x_refresh simulation n buf fx fy fz b)) = dt_ b /\
  sync_refresh_ (state_of (x_refresh simulation n buf fx fy fz b)) =
  snd (Sync_done (sync_refresh_ b)).
Proof.
  rewrite x_refresh_run.
  destruct (fst (Sync_done (sync_refresh_ b))); unfold state_of;
    simpl fst; simpl snd.
  - rewrite after_boundary_time, after_boundary_dt, after_boundary_sync.
    rewrite arrived_time, arrived_dt, arrived_sync. auto.
  - rewrite arrived_time, arrived_dt, arrived_sync. auto.
Qed.

Lemma p_compute_state b cycle time dt :
  cycle_ (state_of (p_compute simulation cycle time dt b)) = cycle_ b + 1 /\
  time_ (state_of (p_compute simulation cycle time dt b)) =
    round_double simulation (time_ b + dt_ b)%Q /\
  dt_ (state_of (p_compute simulation cycle time dt b)) = dt_ b.
Proof.
  split; [apply cycle_p_compute|].
  rewrite p_compute_run. unfold state_of at 1 3. simpl.
  rewrite compute_run. unfold state_of at 1 3. simpl.
  rewrite refresh_run. unfold state_of at 1 3. simpl.
  destruct (x_refresh_keeps (advanced simulation b) 0 [] 0 0 0)
    as (-> & -> & _).
  split; reflexivity.
Qed.

(** X5.  What a cycle does to the clock of an actor.  If the
    reduction covers the array the actor contributed in [prepare],
    then after [p_output] delivered the result and [p_compute] ran,
    the cycle counter has advanced by one, the timestep is the reduced
    one, the time is the double sum of the old time and that timestep,
    and the timestep is no larger than the actor's own candidate,
    hence no larger than the double [stop_time - time_]. *)
Theorem cycle_advances_clock b (contributions : list (Q * Q))
    (min_reduce : Q * Q) (cycle : Z) (time dt : Q) :
  (forall c, In c (contributed (log_of (prepare simulation b))) ->
             In c contributions) ->
  reduction contributions = Some min_reduce ->
  let b1 := state_of (prepare simulation b) in
  let b2 := state_of (p_output min_reduce b1) in
  let b3 := state_of (p_compute simulation cycle time dt b2) in
  cycle_ b3 = cycle_ b + 1 /\
  dt_ b3 = dt_forest_of min_reduce /\
  time_ b3 = round_double simulation (time_ b + dt_forest_of min_reduce)%Q /\
  (forall own stop,
     In (own, stop) (contributed (log_of (prepare simulation b))) ->
     (dt_ b3 <= own)%Q) /\
  (dt_ b3 <= round_double simulation (stop_time simulation - time_ b))%Q.
Proof.
  intros Hown Hred b1 b2 b3.
  assert (E1 : b1 = after_boundary simulation b).
  { unfold b1. rewrite prepare_run. reflexivity. }
  assert (E2 : b2 = with_dt b1 (dt_forest_of min_reduce)).
  { unfold b2. rewrite p_output_run. reflexivity. }
  destruct (p_compute_state b2 cycle time dt) as (C & T & D).
  fold b3 in C, T, D.
  assert (Hc : cycle_ b2 = cycle_ b).
  { rewrite E2, E1. simpl. apply after_boundary_cycle. }
  assert (Ht : time_ b2 = time_ b).
  { rewrite E2, E1. simpl. apply after_boundary_time. }
  assert (Hd : dt_ b2 = dt_forest_of min_reduce).
  { rewrite E2. reflexivity. }
  rewrite C, T, D, Hc, Ht, Hd.
  split; [reflexivity|]. split; [reflexivity|]. split; [reflexivity|].
  assert (Hmin : forall c, In c contributions ->
                   (dt_forest_of min_reduce <= fst c)%Q).
  { destruct contributions as [|c cs]; [discriminate|].
    injection Hred as <-.
    destruct (fold_min_double_fst cs c) as [_ Hmin]. exact Hmin. }
  split.
  - intros own stop Hin. apply (Hmin (own, stop)), Hown, Hin.
  - set (own := (dt_block_of simulation (after_boundary simulation b),
                 if complete simulation (cycle_ b) (time_ b)
                 then 1%Q else 0%Q)).
    assert (Hin : In own contributions).
    { apply Hown. rewrite prepare_run. unfold log_of. simpl snd.
      rewrite contributed_prepare_log. left. reflexivity. }
    eapply Qle_trans; [apply (Hmin own Hin)|].
    unfold own. simpl fst. unfold dt_block_of.
    rewrite after_boundary_time. apply MIN_le_r.
Qed.

(** ** Counting arrivals *)

Lemma arrivals_counted (q : Z) (ms : list Msg) :
  forall (a : @Actor FieldData) (k : Z),
    forallb is_ghost ms = true ->
    sync_refresh_ (chare a) = mkSync q k ->
    0 <= k < q -> k + Z.of_nat (List.length ms) <= q ->
    exists a',
      run simulation a ms = Some a' /\
      count is_quorum (history a') =
        (count is_quorum (history a) +
         if (k + Z.of_nat (List.length ms) =? q)%Z then 1 else 0)%nat /\
      count is_contribute (history a') =
        (count is_contribute (history a) +
         if (k + Z.of_nat (List.length ms) =? q)%Z then 1 else 0)%nat /\
      sync_refresh_ (chare a') =
        mkSync q (if k + Z.of_nat (List.length ms) =? q then 0
                  else k + Z.of_nat (List.length ms)) /\
      cycle_ (chare a') = cycle_ (chare a) /\
      time_ (chare a') = time_ (chare a) /\
      dt_ (chare a') = dt_ (chare a).
Proof.
  induction ms as [|m ms IH]; intros a k Hg Hs Hk Hlen.
  - exists a. simpl List.length. simpl Z.of_nat. rewrite Z.add_0_r.
    destruct (Z.eqb_spec k q); [lia|].
    rewrite !Nat.add_0_r. simpl. auto 10.
  - simpl in Hg. apply andb_true_iff in Hg. destruct Hg as [Hm Hg].
    destruct m as [n buf fx fy fz | |]; try discriminate.
    simpl run. unfold step. simpl deliverable. cbv iota. simpl entry_method.
    set (r := x_refresh simulation n buf fx fy fz (chare a)).
    destruct (count_x_refresh simulation (chare a) n buf fx fy fz)
      as (Q1 & Q2 & _). fold r in Q1, Q2.
    destruct (x_refresh_keeps (chare a) n buf fx fy fz) as (T & D & S).
    fold r in T, D, S.
    pose proof (cycle_x_refresh simulation (chare a) n buf fx fy fz) as C.
    fold r in C.
    rewrite Hs in Q1, Q2, S. unfold Sync_done in Q1, Q2, S.
    simpl index_curr_ in *. simpl index_stop_ in *.
    simpl List.length in *. rewrite Nat2Z.inj_succ in *.
    destruct (Z.eqb_spec (k + 1) q) as [Eq|Nq]; simpl in Q1, Q2, S.
    + assert (ms = []) by (destruct ms; [reflexivity | simpl in Hlen; lia]).
      subst ms. simpl.
      eexists. split; [reflexivity|]. simpl chare. simpl history.
      rewrite !count_app, Q1, Q2, S, C, T, D.
      assert (E : (k + 1 =? q) = true) by (apply Z.eqb_eq; exact Eq).
      simpl Z.of_nat. rewrite ?E. auto 10.
    + destruct (IH (mkActor (state_of r) (history a ++ log_of r)) (k + 1))
        as (a' & R & H1 & H2 & H3 & H4 & H5 & H6);
        [exact Hg | exact S | lia | lia |].
      exists a'. split; [exact R|]. simpl chare in *. simpl history in *.
      rewrite !count_app, Q1, Q2 in *.
      replace (k + Z.succ (Z.of_nat (List.length ms)))
        with (k + 1 + Z.of_nat (List.length ms)) by lia.
      rewrite H1, H2, H3, H4, H5, H6, C, T, D.
      rewrite !Nat.add_0_r. auto 10.
Qed.

(** X6.  Arrival counting is independent of what arrives and in which
    order.  Starting with the arrival counter at [k] below the quorum
    [q], any [q - k] ghost messages, whatever their contents, their
    tags and their order, are all accepted; the quorum is reached
    exactly once, by the last of them, which makes the actor prepare
    and contribute once; the counter starts again at 0, and cycle,
    time and timestep are untouched.  Any fewer arrivals reach no
    quorum and contribute nothing. *)
Theorem arrivals_reach_quorum_once b (q k : Z) (ms : list Msg) :
  forallb is_ghost ms = true ->
  sync_refresh_ b = mkSync q k ->
  0 <= k < q -> k + Z.of_nat (List.length ms) <= q ->
  exists a,
    run simulation (mkActor b []) ms = Some a /\
    count is_quorum (history a) =
      (if (k + Z.of_nat (List.length ms) =? q)%Z then 1 else 0)%nat /\
    count is_contribute (history a) =
      (if (k + Z.of_nat (List.length ms) =? q)%Z then 1 else 0)%nat /\
    sync_refresh_ (chare a) =
      mkSync q (if k + Z.of_nat (List.length ms) =? q then 0
                else k + Z.of_nat (List.length ms)) /\
    cycle_ (chare a) = cycle_ b /\ time_ (chare a) = time_ b /\
    dt_ (chare a) = dt_ b.
Proof.
  intros Hg Hs Hk Hlen.
  destruct (arrivals_counted q ms (mkActor b []) k Hg Hs Hk Hlen)
    as (a & R & H).
  exists a. split; [exact R | exact H].
Qed.

(** ** A single block along an axis *)

Lemma get3_no_flags b (a : axis_enum) (i : Z) :
  face_flag simulation b a face_lower = false ->
  face_flag simulation b a face_upper = false ->
  get3 false (refresh_f3 simulation b a) (i + 1) = true -> i = 0.
Proof.
  intros Hl Hu. unfold refresh_f3, get3. rewrite Hl, Hu.
  destruct (Z.eqb_spec (i + 1) 0); [discriminate|].
  destruct (Z.eqb_spec (i + 1) 1); [lia|].
  destruct (i + 1 =? 2); discriminate.
Qed.

(** X7.  Along an axis with a single block in a domain that is not
    periodic, a well-formed block with more than one cell along the
    axis lies on both domain boundaries: [prepare] enforces the
    boundary conditions on the lower and on the upper face of the
    axis, and [refresh] sends no ghost message with a nonzero
    component along the axis. *)
Theorem single_block_axis b (a : axis_enum) :
  well_formed b ->
  at3 (size_ b) a = 1 ->
  is_periodic simulation = false ->
  1 < cells b a ->
  In (face_lower, a) (enforced (log_of (prepare simulation b))) /\
  In (face_upper, a) (enforced (log_of (prepare simulation b))) /\
  forall index n array fx fy fz,
    In (XRefresh index n array fx fy fz)
       (ghost_messages (log_of (refresh simulation b))) ->
    at3 (fx, fy, fz) a = 0.
Proof.
  intros Hwf Hn Hp Hc.
  assert (Hi : at3 (index_ b) a = 0).
  { destruct Hwf as [_ H]. specialize (H a). lia. }
  assert (Hs : (at3 (size_ b) a =? 1) && negb (is_periodic simulation) = true).
  { rewrite Hn, Hp. reflexivity. }
  assert (Hf : forall f,
             In (f, a) (enforced (log_of (prepare simulation b)))).
  { intros f. rewrite prepare_run. unfold log_of. simpl snd.
    rewrite enforced_prepare_log. apply filter_In. split.
    - destruct f, a; simpl; tauto.
    - unfold updates_face, is_on_boundary. simpl fst. simpl snd.
      rewrite Hi, Hn. apply andb_true_iff. split.
      + apply Z.gtb_lt. lia.
      + destruct f; reflexivity. }
  split; [apply Hf|]. split; [apply Hf|].
  intros index n array fx fy fz Hin.
  rewrite ghost_messages_refresh in Hin.
  apply in_map_iff in Hin. destruct Hin as ([[dx dy] dz] & Hm & Hd).
  apply filter_In in Hd. destruct Hd as [_ Hsf].
  unfold face_message in Hm. injection Hm as _ _ _ <- <- <-.
  unfold sends_face in Hsf. rewrite !andb_true_iff in Hsf.
  destruct Hsf as [[[Hx Hy] Hz] _].
  pose proof (single_block_flag simulation b a face_lower Hwf Hs) as Fl.
  pose proof (single_block_flag simulation b a face_upper Hwf Hs) as Fu.
  destruct a; simpl.
  - rewrite (get3_no_flags b _ _ Fl Fu Hx). reflexivity.
  - rewrite (get3_no_flags b _ _ Fl Fu Hy). reflexivity.
  - rewrite (get3_no_flags b _ _ Fl Fu Hz). reflexivity.
Qed.

End Cycle.


(** the rounding of the example is the rounding of the doubles of the
    proof assistant *)
Lemma binary64_of_the_example :
  time_ late_block = Q_of_float 0x1.3333333333333p-2 /\
  stop_time double_simulation = Q_of_float 0x1.ccccccccccccdp-1 /\
  binary64 (stop_time double_simulation - time_ late_block) =
    Q_of_float
      (PrimFloat.sub 0x1.ccccccccccccdp-1 0x1.3333333333333p-2) /\
  binary64 (time_ late_block +
            binary64 (stop_time double_simulation - time_ late_block)) =
    Q_of_float
      (PrimFloat.add 0x1.3333333333333p-2
         (PrimFloat.sub 0x1.ccccccccccccdp-1 0x1.3333333333333p-2)).
Proof. vm_compute. repeat split. Qed.

(** the cycle that follows carries the block past the stop time, and
    its next candidate timestep is negative *)
Lemma time_passes_stop_time :
  let b1 := state_of (prepare double_simulation late_block) in
  let dt := dt_block_of double_simulation b1 in
  let b2 := state_of (p_output (dt, 0%Q) b1) in
  let b3 := state_of (p_compute double_simulation 0 0 dt b2) in
  (stop_time double_simulation < time_ b3)%Q /\
  (dt_block_of double_simulation b3 < 0)%Q.
Proof. vm_compute. split; reflexivity. Qed.

(** C10 as stated fails: the empty message that completes the quorum
    of a block with boundary faces makes [prepare] enforce the boundary
    conditions, which rewrite the field data. *)
Lemma empty_message_changes_field_data :
  ~ (forall (b : @CommBlock Z) (buf : buffer) (fx fy fz : Z),
       field_data (block_ (state_of
         (x_refresh counting_simulation 0 buf fx fy fz b))) =
       field_data (block_ b)).
Proof.
  intros H. specialize (H counting_block [] 0 0 0).
  vm_compute in H. discriminate.
Qed.

(** * The further properties at work on example configurations *)

(** X2 at work: the lonely block may only exchange along the offset 0
    of every axis. *)
Lemma quorum_is_product_of_offsets_witness :
  count_refresh_ lonely_simulation lonely_block =
  Z.of_nat (List.length (admissible_offsets lonely_simulation lonely_block axis_x)) *
  Z.of_nat (List.length (admissible_offsets lonely_simulation lonely_block axis_y)) *
  Z.of_nat (List.length (admissible_offsets lonely_simulation lonely_block axis_z)).
Proof.
  apply (quorum_is_product_of_offsets lonely_simulation lonely_block);
    reflexivity.
Defined.

Lemma east_block_well_formed : well_formed east_block.
Proof. split; [reflexivity | apply for_all_axes; simpl; lia]. Qed.

(** X3 at work: the message of the corner block to its neighbour in
    the direction (1, 0, 0). *)
Lemma ghost_message_is_expected_witness :
  active periodic_simulation east_block (-1, 0, 0) = true /\
  neighbor east_block (-1, 0, 0) = index_ corner_block.
Proof.
  apply (ghost_message_is_expected periodic_simulation corner_block east_block
           (1, 0, 0) 1 [x00] (-1) 0 0).
  - exact corner_block_well_formed.
  - exact east_block_well_formed.
  - split; [reflexivity | intros a; reflexivity].
  - vm_compute. repeat (first [left; reflexivity | right]).
  - reflexivity.
Defined.

Lemma example_forest_uniform :
  uniform_forest example_forest (3, 3, 3) (8, 8, 8).
Proof.
  intros [[x y] z] _. split; [reflexivity|]. split; [reflexivity|].
  split; [reflexivity|]. apply for_all_axes; reflexivity.
Qed.

(** X4 at work: the corner block of the example forest. *)
Lemma quorum_matches_traffic_witness :
  count_refresh_ periodic_simulation (example_forest (0, 0, 0)) =
  1 + Z.of_nat (List.length
                  (received periodic_simulation example_forest (3, 3, 3)
                     (0, 0, 0))).
Proof.
  apply (quorum_matches_traffic periodic_simulation example_forest
           (3, 3, 3) (8, 8, 8) (0, 0, 0)).
  - exact example_forest_uniform.
  - vm_compute. repeat (first [left; reflexivity | right]).
Defined.

(** X5 at work: the first cycle of the periodic block. *)
Lemma cycle_advances_clock_witness :
  let b1 := state_of (prepare periodic_simulation periodic_block) in
  let b2 := state_of (p_output (1 # 2, 0%Q) b1) in
  let b3 := state_of (p_compute periodic_simulation 0 0 (1 # 2) b2) in
  cycle_ b3 = cycle_ periodic_block + 1 /\
  dt_ b3 = dt_forest_of (1 # 2, 0%Q) /\
  time_ b3 =
    round_double periodic_simulation
      (time_ periodic_block + dt_forest_of (1 # 2, 0%Q))%Q /\
  (forall own stop,
     In (own, stop)
        (contributed (log_of (prepare periodic_simulation periodic_block))) ->
     (dt_ b3 <= own)%Q) /\
  (dt_ b3 <=
   round_double periodic_simulation
     (stop_time periodic_simulation - time_ periodic_block))%Q.
Proof.
  apply (cycle_advances_clock periodic_simulation periodic_block
           (contributed (log_of (prepare periodic_simulation periodic_block)))
           (1 # 2, 0%Q) 0 0 (1 # 2)).
  - intros c H. exact H.
  - reflexivity.
Defined.

(** X6 at work: the seven arrivals of the first cycle of the periodic
    block. *)
Lemma arrivals_reach_quorum_once_witness :
  exists a,
    run periodic_simulation (mkActor periodic_block []) periodic_arrivals =
      Some a /\
    count is_quorum (history a) = 1%nat.
Proof.
  destruct (arrivals_reach_quorum_once periodic_simulation periodic_block
              7 0 periodic_arrivals) as (a & R & Q & _).
  - reflexivity.
  - reflexivity.
  - lia.
  - simpl. lia.
  - exists a. split; [exact R | exact Q].
Defined.

Lemma lonely_block_well_formed : well_formed lonely_block.
Proof. split; [reflexivity | apply for_all_axes; simpl; lia]. Qed.

(** X7 at work: the lonely block along x. *)
Lemma single_block_axis_witness :
  In (face_lower, axis_x)
     (enforced (log_of (prepare lonely_simulation lonely_block))) /\
  In (face_upper, axis_x)
     (enforced (log_of (prepare lonely_simulation lonely_block))).
Proof.
  destruct (single_block_axis lonely_simulation lonely_block axis_x)
    as (H1 & H2 & _).
  - exact lonely_block_well_formed.
  - reflexivity.
  - reflexivity.
  - simpl. lia.
  - split; [exact H1 | exact H2].
Defined.

(** * Properties of ParticleDescr *)

Module ParticleDescrFacts.
Import ParticleDescr.

(** ** Vectors and maps *)

Lemma element_Some {A : Type} (v : list A) (i : Z) (x : A) :
  element v i = Some x <-> 0 <= i /\ nth_error v (Z.to_nat i) = Some x.
Proof.
  unfold element. destruct (Z.ltb_spec i 0); split.
  - discriminate.
  - intros [H0 _]. lia.
  - intros E. split; [lia | exact E].
  - intros [_ E]. exact E.
Qed.

Lemma element_of_nat {A : Type} (v : list A) (i : nat) :
  element v (Z.of_nat i) = nth_error v i.
Proof.
  unfold element. destruct (Z.ltb_spec (Z.of_nat i) 0); [lia|].
  rewrite Nat2Z.id. reflexivity.
Qed.

Lemma element_app_old {A : Type} (v w : list A) (i : Z) (x : A) :
  element v i = Some x -> element (v ++ w) i = Some x.
Proof.
  rewrite !element_Some. intros [H0 H]. split; [exact H0|].
  rewrite nth_error_app1; [exact H|].
  apply nth_error_Some. congruence.
Qed.

Lemma element_app_new {A : Type} (v : list A) (x : A) :
  element (v ++ [x]) (Z.of_nat (List.length v)) = Some x.
Proof.
  rewrite element_of_nat, nth_error_app2 by lia.
  rewrite Nat.sub_diag. reflexivity.
Qed.

Lemma element_bound {A : Type} (v : list A) (i : Z) (x : A) :
  element v i = Some x -> 0 <= i < Z.of_nat (List.length v).
Proof.
  rewrite element_Some. intros [H0 H].
  assert (Z.to_nat i < List.length v)%nat by (apply nth_error_Some; congruence).
  lia.
Qed.

Lemma assign_same (m : map_string_int) (key : string) (value : Z) :
  assign m key value key = Some value.
Proof. unfold assign. rewrite String.eqb_refl. reflexivity. Qed.

Lemma assign_other (m : map_string_int) (key k : string) (value : Z) :
  k <> key -> assign m key value k = m k.
Proof.
  intros H. unfold assign. destruct (String.eqb_spec k key); [contradiction|].
  reflexivity.
Qed.

Lemma existsb_eqb_In (name : string) (l : list string) :
  existsb (String.eqb name) l = true <-> In name l.
Proof.
  rewrite existsb_exists. split.
  - intros (x & Hx & E). apply String.eqb_eq in E. subst. exact Hx.
  - intros H. exists name. split; [exact H | apply String.eqb_refl].
Qed.

(** ** Types *)

Lemma new_descr_consistent : types_consistent new_descr.
Proof.
  intros name i. simpl. split; [discriminate|].
  rewrite element_Some. intros [_ H]. destruct (Z.to_nat i); discriminate.
Qed.

Lemma new_type_fresh (c : bool) (d : descr) (name : string) :
  types_consistent d -> ~ In name (type_name_ d) ->
  exists d',
    new_type c d name = Returns (num_types d, d') /\
    type_name_ d' = type_name_ d ++ [name] /\
    types_consistent d'.
Proof.
  intros Hc Hn. unfold new_type.
  assert (E : existsb (String.eqb name) (type_name_ d) = false).
  { destruct (existsb (String.eqb name) (type_name_ d)) eqn:E; [|reflexivity].
    apply existsb_eqb_In in E. contradiction. }
  rewrite E, andb_false_r. eexists. split; [reflexivity|].
  split; [reflexivity|].
  intros k i. simpl. unfold num_types. split.
  - intros H. destruct (String.eqb_spec k name) as [->|Hk].
    + rewrite assign_same in H. injection H as <-. apply element_app_new.
    + rewrite assign_other in H by exact Hk.
      apply element_app_old, Hc, H.
  - intros H. destruct (String.eqb_spec k name) as [->|Hk].
    + rewrite assign_same. f_equal.
      apply element_Some in H. destruct H as [H0 H].
      destruct (Nat.lt_ge_cases (Z.to_nat i) (List.length (type_name_ d)))
        as [Hlt|Hge].
      * rewrite nth_error_app1 in H by exact Hlt.
        exfalso. apply Hn. eapply nth_error_In, H.
      * assert (Z.to_nat i < List.length (type_name_ d ++ [name]))%nat
          by (apply nth_error_Some; congruence).
        rewrite length_app in *. simpl in *. lia.
    + rewrite assign_other by exact Hk. apply Hc.
      apply element_Some in H. destruct H as [H0 H].
      apply element_Some. split; [exact H0|].
      destruct (Nat.lt_ge_cases (Z.to_nat i) (List.length (type_name_ d)))
        as [Hlt|Hge].
      * rewrite nth_error_app1 in H by exact Hlt. exact H.
      * rewrite nth_error_app2 in H by exact Hge.
        destruct (Z.to_nat i - List.length (type_name_ d))%nat as [|[|?]];
          simpl in H; congruence.
Qed.

Lemma new_types_fresh (c : bool) (names : list string) :
  forall d,
    types_consistent d -> NoDup (type_name_ d ++ names) ->
    exists d',
      new_types c d names =
        Returns (map Z.of_nat (seq (List.length (type_name_ d))
                                   (List.length names)), d') /\
      type_name_ d' = type_name_ d ++ names /\
      types_consistent d'.
Proof.
  induction names as [|name rest IH]; intros d Hc Hnd.
  - exists d. simpl. rewrite app_nil_r. auto.
  - assert (Hn : ~ In name (type_name_ d)).
    { apply NoDup_remove_2 in Hnd. intros H. apply Hnd.
      apply in_or_app. left. exact H. }
    destruct (new_type_fresh c d name Hc Hn) as (d1 & E1 & N1 & C1).
    destruct (IH d1 C1) as (d2 & E2 & N2 & C2).
    { rewrite N1, <- app_assoc. exact Hnd. }
    exists d2. simpl. rewrite E1, E2, N2, N1, <- app_assoc.
    rewrite length_app. simpl.
    replace (List.length (type_name_ d) + 1)%nat
      with (S (List.length (type_name_ d))) by lia.
    unfold num_types. auto.
Qed.

Lemma type_index_consistent (d : descr) (name : string) :
  types_consistent d ->
  (In name (type_name_ d) ->
   type_name d (type_index d name) = Returns name) /\
  (~ In name (type_name_ d) -> type_index d name = -1).
Proof.
  intros Hc. unfold type_index, type_name. split.
  - intros Hin. apply In_nth_error in Hin. destruct Hin as [n Hn].
    assert (E : type_index_ d name = Some (Z.of_nat n)).
    { apply Hc. rewrite element_of_nat. exact Hn. }
    rewrite E, element_of_nat, Hn.
    assert (n < List.length (type_name_ d))%nat
      by (apply nth_error_Some; congruence).
    destruct (Z.leb_spec 0 (Z.of_nat n)); [|lia].
    destruct (Z.ltb_spec (Z.of_nat n) (Z.of_nat (List.length (type_name_ d))));
      [reflexivity | lia].
  - intros Hn. destruct (type_index_ d name) as [i|] eqn:E; [|reflexivity].
    exfalso. apply Hn. apply Hc, element_Some in E.
    eapply nth_error_In, E.
Qed.

(** X8.  Types declared under pairwise different names on a new
    descriptor get the consecutive ids 0, 1, ... in the order of
    declaration, with or without [CELLO_CHECK].  Afterwards
    [num_types] is their number, [type_name] of an id is the name it
    was declared under, [type_index] of a name is its id, and
    [type_index] of any other name is [-1]. *)
Theorem types_round_trip (cello_check : bool) (names : list string) :
  NoDup names ->
  exists d,
    new_types cello_check new_descr names =
      Returns (map Z.of_nat (seq 0 (List.length names)), d) /\
    num_types d = Z.of_nat (List.length names) /\
    (forall i name,
       nth_error names i = Some name ->
       type_index d name = Z.of_nat i /\
       type_name d (Z.of_nat i) = Returns name) /\
    (forall name, ~ In name names -> type_index d name = -1).
Proof.
  intros Hnd.
  destruct (new_types_fresh cello_check names new_descr
              new_descr_consistent Hnd) as (d & E & N & C).
  simpl in E, N. exists d. split; [exact E|].
  split; [unfold num_types; rewrite N; reflexivity|]. split.
  - intros i name Hi.
    assert (Ei : type_index_ d name = Some (Z.of_nat i)).
    { apply C. rewrite element_of_nat, N. exact Hi. }
    assert (Hidx : type_index d name = Z.of_nat i).
    { unfold type_index. rewrite Ei. reflexivity. }
    split; [exact Hidx|]. rewrite <- Hidx.
    apply (type_index_consistent d name C). rewrite N.
    eapply nth_error_In, Hi.
  - intros name Hn. apply (type_index_consistent d name C).
    rewrite N. exact Hn.
Qed.

(** X9.  Declaring a name a second time.  Built with [CELLO_CHECK],
    [new_type] stops at the assertion.  Built without it, [new_type]
    returns a new id and the name now leads to the new id, while the
    first id keeps the name: [type_index (type_name id)] is no longer
    [id]. *)
Theorem new_type_twice (cello_check : bool) (names : list string)
    (ids : list Z) (d : descr) (i : nat) (name : string) :
  NoDup names ->
  new_types cello_check new_descr names = Returns (ids, d) ->
  nth_error names i = Some name ->
  new_type true d name = Aborts "Particle type %s already exists" /\
  exists d',
    new_type false d name = Returns (Z.of_nat (List.length names), d') /\
    num_types d' = Z.of_nat (List.length names) + 1 /\
    type_name d' (Z.of_nat i) = Returns name /\
    type_index d' name = Z.of_nat (List.length names) /\
    type_index d' name <> Z.of_nat i.
Proof.
  intros Hnd Hd Hi.
  destruct (new_types_fresh cello_check names new_descr
              new_descr_consistent Hnd) as (d0 & E & N & C).
  rewrite Hd in E. injection E as _ <-. simpl in N.
  assert (Hin : In name (type_name_ d)).
  { rewrite N. eapply nth_error_In, Hi. }
  assert (Hlt : (i < List.length names)%nat)
    by (apply nth_error_Some; congruence).
  split.
  - unfold new_type.
    rewrite (proj2 (existsb_eqb_In name (type_name_ d)) Hin). reflexivity.
  - unfold new_type. simpl andb. cbv iota. eexists. split.
    { unfold num_types. rewrite N. reflexivity. }
    split; [|split; [|split]].
    + unfold num_types. simpl. rewrite length_app. simpl. lia.
    + unfold type_name. simpl type_name_. rewrite length_app. simpl.
      destruct (Z.leb_spec 0 (Z.of_nat i)); [|lia].
      destruct (Z.ltb_spec (Z.of_nat i)
                  (Z.of_nat (List.length names + 1))); [|lia].
      simpl. rewrite element_of_nat, nth_error_app1, Hi by exact Hlt.
      reflexivity.
    + unfold type_index. simpl type_index_. rewrite assign_same.
      reflexivity.
    + unfold type_index. simpl type_index_. rewrite assign_same. lia.
Qed.

(** ** Attributes *)

Lemma element_store_same {A : Type} (v : list A) (i : Z) (x y : A) :
  element v i = Some y -> element (store_at v (Z.to_nat i) x) i = Some x.
Proof.
  rewrite !element_Some. intros [H0 H]. split; [exact H0|].
  revert H. generalize (Z.to_nat i). clear. intros n. revert n.
  induction v as [|z v IH]; intros [|n] H; simpl in *; try discriminate.
  - reflexivity.
  - apply IH, H.
Qed.

Lemma nth_error_store_other {A : Type} (v : list A) (i j : nat) (x : A) :
  i <> j -> nth_error (store_at v i x) j = nth_error v j.
Proof.
  revert i j. induction v as [|z v IH]; intros [|i] [|j] H; simpl;
    try reflexivity; try contradiction.
  apply IH. lia.
Qed.

Lemma element_store_other {A : Type} (v : list A) (i j : Z) (x : A) :
  0 <= i -> i <> j -> element (store_at v (Z.to_nat i) x) j = element v j.
Proof.
  intros H0 H. unfold element. destruct (j <? 0) eqn:E; [reflexivity|].
  apply Z.ltb_ge in E. apply nth_error_store_other. lia.
Qed.

Lemma length_store_at {A : Type} (v : list A) (i : nat) (x : A) :
  List.length (store_at v i x) = List.length v.
Proof.
  revert i. induction v as [|z v IH]; intros [|i]; simpl; auto.
Qed.

Lemma to_char_small (s : Z) : 1 <= s <= 127 -> to_char s = s.
Proof. intros H. unfold to_char. rewrite Z.mod_small by lia. lia. Qed.

Lemma finish_of_snoc (bytes offsets : list Z) (s o : Z) :
  finish_of (bytes ++ [s]) (offsets ++ [o]) = o + s.
Proof. unfold finish_of. rewrite !rev_app_distr. reflexivity. Qed.

Lemma element_last {A : Type} (v : list A) (x : A) :
  v <> [] ->
  element v (Z.of_nat (List.length v) - 1) = Some x -> rev v = x :: rev (removelast v).
Proof.
  intros Hv H. destruct (exists_last Hv) as (v' & y & ->).
  rewrite length_app in H. simpl in H.
  replace (Z.of_nat (List.length v' + 1) - 1) with (Z.of_nat (List.length v'))
    in H by lia.
  rewrite element_app_new in H. injection H as ->.
  rewrite removelast_last, rev_app_distr. reflexivity.
Qed.

(** one call of [new_attribute] on an interleaved type whose vectors
    have the same length *)
Lemma new_attribute_slot (d : descr) (it : Z) (a : string) (b : Z)
    names index bytes offsets :
  slot d it = Some (names, index, bytes, offsets, true) ->
  List.length bytes = List.length names ->
  List.length offsets = List.length names ->
  b <> 0 ->
  exists d',
    new_attribute d it a b = Returns (Z.of_nat (List.length names), d') /\
    slot d' it =
      Some (names ++ [a], assign index a (Z.of_nat (List.length names)),
            bytes ++ [to_char b],
            offsets ++ [align_up (finish_of bytes offsets) b], true) /\
    type_name_ d' = type_name_ d.
Proof.
  intros Hs Hb Ho Hnz. unfold slot in Hs.
  destruct (element (attribute_name_ d) it) as [names0|] eqn:E1;
    [|discriminate].
  destruct (element (attribute_index_ d) it) as [index0|] eqn:E2;
    [|discriminate].
  destruct (element (attribute_bytes_ d) it) as [bytes0|] eqn:E3;
    [|discriminate].
  destruct (element (attribute_offset_ d) it) as [offsets0|] eqn:E4;
    [|discriminate].
  destruct (element (attribute_interleaved_ d) it) as [il0|] eqn:E5;
    [|discriminate].
  injection Hs as -> -> -> -> ->.
  pose proof (element_bound _ _ _ E1) as [Hit _].
  unfold new_attribute. rewrite E1, E2, E3, E4, E5.
  assert (Hprev :
    (if Z.of_nat (List.length names) >? 0
     then match element offsets (Z.of_nat (List.length names) - 1),
                element (bytes ++ [to_char b])
                        (Z.of_nat (List.length names) - 1) with
          | Some o, Some s => Returns (Some (o, s))
          | _, _ => Undefined
          end
     else Returns None) =
    Returns (if Z.of_nat (List.length names) >? 0
             then Some (finish_of bytes offsets - 
                        match rev bytes with s :: _ => s | [] => 0 end,
                        match rev bytes with s :: _ => s | [] => 0 end)
             else None)).
  { destruct (Z.gtb_spec (Z.of_nat (List.length names)) 0) as [Hpos|];
      [|reflexivity].
    assert (Hbn : bytes <> []) by (intros ->; simpl in Hb; lia).
    assert (Hon : offsets <> []) by (intros ->; simpl in Ho; lia).
    destruct (exists_last Hbn) as (bytes' & s & ->).
    destruct (exists_last Hon) as (offsets' & o & ->).
    rewrite length_app in Hb, Ho. simpl in Hb, Ho.
    replace (Z.of_nat (List.length names) - 1)
      with (Z.of_nat (List.length offsets')) by lia.
    rewrite element_app_new.
    replace (Z.of_nat (List.length offsets'))
      with (Z.of_nat (List.length bytes')) by lia.

    rewrite (element_app_old (bytes' ++ [s]) [to_char b] _ s)
      by apply element_app_new.
    rewrite finish_of_snoc, rev_app_distr. simpl.
    replace (o + s - s) with o by lia. reflexivity. }
  rewrite Hprev. clear Hprev.
  assert (Hal :
    aligned_offset
      (if Z.of_nat (List.length names) >? 0
       then Some (finish_of bytes offsets -
                  match rev bytes with s :: _ => s | [] => 0 end,
                  match rev bytes with s :: _ => s | [] => 0 end)
       else None) b =
    Returns (align_up (finish_of bytes offsets) b)).
  { unfold aligned_offset, align_up.
    destruct (Z.eqb_spec b 0); [contradiction|].
    assert (Hf : (match (if Z.of_nat (List.length names) >? 0
                         then Some (finish_of bytes offsets -
                                match rev bytes with s :: _ => s | [] => 0 end,
                                match rev bytes with s :: _ => s | [] => 0 end)
                         else None) with
                  | Some (op, bp) => op + bp
                  | None => 0
                  end) = finish_of bytes offsets).
    { destruct (Z.gtb_spec (Z.of_nat (List.length names)) 0) as [Hpos|Hz].
      - lia.
      - assert (names = []) by (destruct names; [reflexivity | simpl in Hz; lia]).
        subst names. destruct offsets; [|discriminate]. reflexivity. }
    rewrite Hf.
    destruct (Z.rem (finish_of bytes offsets) b =? 0); reflexivity. }
  rewrite Hal. eexists. split; [reflexivity|]. split; [|reflexivity].
  unfold slot. simpl.
  rewrite (element_store_same _ _ _ _ E1), (element_store_same _ _ _ _ E2),
          (element_store_same _ _ _ _ E3), (element_store_same _ _ _ _ E4),
          E5.
  reflexivity.
Qed.

Lemma slot_parts (d : descr) (it : Z) names index bytes offsets il :
  slot d it = Some (names, index, bytes, offsets, il) ->
  element (attribute_name_ d) it = Some names /\
  element (attribute_index_ d) it = Some index /\
  element (attribute_bytes_ d) it = Some bytes /\
  element (attribute_offset_ d) it = Some offsets /\
  element (attribute_interleaved_ d) it = Some il.
Proof.
  unfold slot.
  destruct (element (attribute_name_ d) it); [|discriminate].
  destruct (element (attribute_index_ d) it); [|discriminate].
  destruct (element (attribute_bytes_ d) it); [|discriminate].
  destruct (element (attribute_offset_ d) it); [|discriminate].
  destruct (element (attribute_interleaved_ d) it); [|discriminate].
  intros H. injection H as -> -> -> -> ->. auto.
Qed.

(** a run of [new_attributes] on an interleaved type *)
Lemma new_attributes_slot (it : Z) (attrs : list (string * Z)) :
  forall d names index bytes offsets,
    slot d it = Some (names, index, bytes, offsets, true) ->
    List.length bytes = List.length names ->
    List.length offsets = List.length names ->
    Forall (fun a => snd a <> 0) attrs ->
    exists d' index',
      new_attributes d it attrs =
        Returns (map Z.of_nat (seq (List.length names) (List.length attrs)),
                 d') /\
      slot d' it =
        Some (names ++ map fst attrs, index',
              bytes ++ map to_char (map snd attrs),
              offsets ++ offsets_from (finish_of bytes offsets)
                                      (map snd attrs), true) /\
      type_name_ d' = type_name_ d /\
      (forall a, ~ In a (map fst attrs) -> index' a = index a) /\
      (NoDup (map fst attrs) ->
       forall i a, nth_error (map fst attrs) i = Some a ->
         index' a = Some (Z.of_nat (List.length names + i))).
Proof.
  induction attrs as [|[a0 s0] rest IH];
    intros d names index bytes offsets Hs Hb Ho Hnz.
  - exists d, index. simpl. rewrite !app_nil_r.
    split; [reflexivity|]. split; [exact Hs|]. split; [reflexivity|].
    split; [reflexivity|]. intros _ [|i] a H; discriminate.
  - inversion Hnz as [|x l Hs0 Hrest]; subst. simpl in Hs0.
    destruct (new_attribute_slot d it a0 s0 _ _ _ _ Hs Hb Ho Hs0)
      as (d1 & E1 & S1 & N1).
    destruct (IH d1 _ _ _ _ S1) as (d2 & index2 & E2 & S2 & N2 & I2 & J2).
    { rewrite !length_app. simpl. lia. }
    { rewrite !length_app. simpl. lia. }
    { exact Hrest. }
    exists d2, index2. simpl. rewrite E1, E2.
    rewrite length_app in E2 |- *. simpl.
    replace (List.length names + 1)%nat with (S (List.length names)) by lia.
    split; [reflexivity|].
    split.
    { rewrite S2, finish_of_snoc, <- !app_assoc. reflexivity. }
    split; [congruence|].
    split.
    { intros a Ha. rewrite I2 by tauto. apply assign_other.
      intros ->. apply Ha. left. reflexivity. }
    intros Hnd [|i] a Ha; simpl in Ha.
    + injection Ha as <-. inversion Hnd; subst.
      rewrite I2 by assumption. rewrite assign_same. f_equal. lia.
    + inversion Hnd; subst. rewrite (J2 H2 i a Ha).
      rewrite length_app. simpl. f_equal. lia.
Qed.

Lemma resize_repeat {A : Type} (x : A) (n : nat) :
  resize (repeat x n) (S n) x = repeat x (S n).
Proof.
  unfold resize. rewrite firstn_all2 by (rewrite repeat_length; lia).
  rewrite repeat_length. replace (S n - n)%nat with 1%nat by lia.
  simpl. induction n as [|n IH]; simpl; [reflexivity|]. f_equal. exact IH.
Qed.

Lemma new_descr_fresh : fresh_shape new_descr.
Proof. repeat split. Qed.

Lemma new_types_shape (c : bool) (names : list string) :
  forall d ids d',
    fresh_shape d -> new_types c d names = Returns (ids, d') ->
    fresh_shape d' /\
    List.length (type_name_ d') =
      (List.length (type_name_ d) + List.length names)%nat.
Proof.
  induction names as [|name rest IH]; intros d ids d' Hf H; simpl in H.
  - injection H as <- <-. split; [exact Hf | simpl; lia].
  - destruct (new_type c d name) as [[id d1]| | |] eqn:E1; try discriminate.
    destruct (new_types c d1 rest) as [[ids' d2]| | |] eqn:E2;
      try discriminate.
    injection H as <- <-.
    assert (Hf1 : fresh_shape d1 /\
                  List.length (type_name_ d1) = S (List.length (type_name_ d))).
    { unfold new_type in E1.
      destruct (c && existsb (String.eqb name) (type_name_ d));
        [discriminate|].
      injection E1 as <- <-.
      destruct Hf as (F1 & F2 & F3 & F4 & F5).
      unfold fresh_shape, num_types. simpl.
      rewrite length_app. simpl.
      replace (Z.to_nat (Z.of_nat (List.length (type_name_ d)) + 1))
        with (S (List.length (type_name_ d))) by lia.
      replace (List.length (type_name_ d) + 1)%nat
        with (S (List.length (type_name_ d))) by lia.
      rewrite F1, F2, F3, F4, F5, !resize_repeat.
      split; [|reflexivity].
      split; [reflexivity|]. split; [reflexivity|]. split; [reflexivity|].
      split; [reflexivity|].
      clear. induction (List.length (type_name_ d)) as [|n IH]; simpl;
        [reflexivity|]. f_equal. exact IH. }
    destruct Hf1 as [Hf1 L1].
    destruct (IH d1 ids' d2 Hf1 E2) as [Hf2 L2].
    split; [exact Hf2|]. rewrite L2, L1. simpl. lia.
Qed.

Lemma element_repeat {A : Type} (x : A) (n : nat) (i : Z) :
  0 <= i < Z.of_nat n -> element (repeat x n) i = Some x.
Proof.
  intros H. apply element_Some. split; [lia|].
  apply nth_error_repeat. lia.
Qed.

Lemma fresh_slot (d : descr) (it : Z) :
  fresh_shape d -> 0 <= it < Z.of_nat (List.length (type_name_ d)) ->
  slot d it = Some ([], fun _ => None, [], [], false).
Proof.
  intros (F1 & F2 & F3 & F4 & F5) H. unfold slot.
  rewrite F1, F2, F3, F4, F5, !element_repeat by exact H. reflexivity.
Qed.

Lemma set_interleaved_slot (d : descr) (it : Z) names index bytes offsets il
    (v : bool) :
  slot d it = Some (names, index, bytes, offsets, il) ->
  exists d',
    set_interleaved d it v = Returns d' /\
    slot d' it = Some (names, index, bytes, offsets, v) /\
    type_name_ d' = type_name_ d.
Proof.
  intros Hs. destruct (slot_parts _ _ _ _ _ _ _ Hs) as (E1 & E2 & E3 & E4 & E5).
  unfold set_interleaved. rewrite E5. eexists. split; [reflexivity|].
  split; [|reflexivity]. unfold slot. simpl.
  rewrite E1, E2, E3, E4, (element_store_same _ _ _ _ E5). reflexivity.
Qed.

(** what [declare] builds *)
Lemma declare_slot (c : bool) (names : list string) (it : Z)
    (attrs : list (string * Z)) :
  NoDup names ->
  0 <= it < Z.of_nat (List.length names) ->
  Forall (fun a => snd a <> 0) attrs ->
  exists d index,
    declare c names it attrs = Returns d /\
    slot d it =
      Some (map fst attrs, index, map to_char (map snd attrs),
            offsets_from 0 (map snd attrs), true) /\
    type_name_ d = names /\
    (forall a, ~ In a (map fst attrs) -> index a = None) /\
    (NoDup (map fst attrs) ->
     forall i a, nth_error (map fst attrs) i = Some a ->
       index a = Some (Z.of_nat i)).
Proof.
  intros Hnd Hit Hnz.
  destruct (new_types_fresh c names new_descr new_descr_consistent Hnd)
    as (d0 & E0 & N0 & _).
  simpl in N0.
  destruct (new_types_shape c names _ _ _ new_descr_fresh E0) as [F0 _].
  assert (S0 := fresh_slot d0 it F0). rewrite N0 in S0. specialize (S0 Hit).
  destruct (set_interleaved_slot d0 it _ _ _ _ _ true S0) as (d1 & E1 & S1 & N1).
  destruct (new_attributes_slot it attrs d1 _ _ _ _ S1 eq_refl eq_refl Hnz)
    as (d2 & index2 & E2 & S2 & N2 & I2 & J2).
  exists d2, index2. unfold declare. rewrite E0, E1, E2.
  split; [reflexivity|]. split; [exact S2|]. split; [congruence|].
  split; [exact I2|]. exact J2.
Qed.

Lemma align_up_spec (offset b : Z) :
  0 <= offset -> 1 <= b ->
  offset <= align_up offset b < offset + b /\ Z.rem (align_up offset b) b = 0.
Proof.
  intros H0 Hb. unfold align_up.
  rewrite (Z.rem_mod_nonneg offset b) by lia.
  pose proof (Z.mod_pos_bound offset b ltac:(lia)) as Hm.
  destruct (Z.eqb_spec (offset mod b) 0) as [E|E].
  - split; [lia|]. rewrite Z.rem_mod_nonneg by lia. exact E.
  - split; [lia|]. rewrite Z.rem_mod_nonneg by lia.
    pose proof (Z_div_mod_eq_full offset b) as Hd.
    replace (offset + (b - offset mod b)) with ((offset / b + 1) * b) by lia.
    apply Z_mod_mult.
Qed.

Lemma length_offsets_from (sizes : list Z) :
  forall finish, List.length (offsets_from finish sizes) = List.length sizes.
Proof.
  induction sizes as [|s rest IH]; intros finish; simpl; [reflexivity|].
  rewrite IH. reflexivity.
Qed.

Lemma offsets_from_aligned (sizes : list Z) :
  forall finish,
    0 <= finish -> Forall (fun s => 1 <= s <= 127) sizes ->
    forall i s o,
      nth_error sizes i = Some s ->
      nth_error (offsets_from finish sizes) i = Some o ->
      finish <= o /\ Z.rem o s = 0 /\ (i = 0%nat -> o < finish + s).
Proof.
  induction sizes as [|s0 rest IH]; intros finish H0 Hs i s o Hi Ho.
  - destruct i; discriminate.
  - inversion Hs as [|x l Hs0 Hrest]; subst.
    pose proof (align_up_spec finish s0 H0 ltac:(lia)) as [Hr Ha].
    destruct i as [|i]; simpl in Hi, Ho.
    + injection Hi as <-. injection Ho as <-.
      split; [lia|]. split; [exact Ha|]. intros _. lia.
    + rewrite (to_char_small s0 Hs0) in Ho.
      destruct (IH (align_up finish s0 + s0) ltac:(lia) Hrest i s o Hi Ho)
        as (H1 & H2 & _).
      split; [lia|]. split; [exact H2|]. intros; discriminate.
Qed.

Lemma offsets_from_consecutive (sizes : list Z) :
  forall finish,
    0 <= finish -> Forall (fun s => 1 <= s <= 127) sizes ->
    forall i s o s' o',
      nth_error sizes i = Some s ->
      nth_error sizes (S i) = Some s' ->
      nth_error (offsets_from finish sizes) i = Some o ->
      nth_error (offsets_from finish sizes) (S i) = Some o' ->
      o + s <= o' < o + s + s'.
Proof.
  induction sizes as [|s0 rest IH]; intros finish H0 Hs i s o s' o' Hi Hi' Ho Ho'.
  - destruct i; discriminate.
  - inversion Hs as [|x l Hs0 Hrest]; subst.
    pose proof (align_up_spec finish s0 H0 ltac:(lia)) as [Hr Ha].
    destruct i as [|i].
    + simpl in Hi, Ho. injection Hi as <-. injection Ho as <-.
      change (nth_error rest 0 = Some s') in Hi'.
      change (nth_error (offsets_from (align_up finish s0 + to_char s0) rest) 0
              = Some o') in Ho'.
      rewrite (to_char_small s0 Hs0) in Ho'.
      destruct (offsets_from_aligned rest (align_up finish s0 + s0) ltac:(lia)
                  Hrest 0%nat s' o' Hi' Ho')
        as (H1 & _ & H3).
      specialize (H3 eq_refl). lia.
    + change (nth_error rest i = Some s) in Hi.
      change (nth_error rest (S i) = Some s') in Hi'.
      change (nth_error (offsets_from (align_up finish s0 + to_char s0) rest) i
              = Some o) in Ho.
      change (nth_error (offsets_from (align_up finish s0 + to_char s0) rest)
                (S i) = Some o') in Ho'.
      rewrite (to_char_small s0 Hs0) in Ho, Ho'.
      exact (IH (align_up finish s0 + s0) ltac:(lia) Hrest i s o s' o'
                Hi Hi' Ho Ho').
Qed.

Lemma map_to_char_small (sizes : list Z) :
  Forall (fun s => 1 <= s <= 127) sizes -> map to_char sizes = sizes.
Proof.
  induction 1 as [|s l Hs _ IH]; simpl; [reflexivity|].
  rewrite IH, (to_char_small s Hs). reflexivity.
Qed.

Lemma Forall_sizes (attrs : list (string * Z)) (P : Z -> Prop) :
  Forall (fun a => P (snd a)) attrs -> Forall P (map snd attrs).
Proof. intros H. apply Forall_map. exact H. Qed.

Lemma sizes_nonzero (attrs : list (string * Z)) :
  Forall (fun a => 1 <= snd a <= 127) attrs ->
  Forall (fun a => snd a <> 0) attrs.
Proof. apply Forall_impl. intros a H. lia. Qed.

Lemma nth_error_attrs (attrs : list (string * Z)) (i : nat) name s :
  nth_error attrs i = Some (name, s) ->
  nth_error (map fst attrs) i = Some name /\
  nth_error (map snd attrs) i = Some s.
Proof.
  intros H. rewrite !nth_error_map, H. auto.
Qed.

Lemma in_range_test (i n : Z) :
  0 <= i < n -> (0 <=? i) && (i <? n) = true.
Proof.
  intros H. apply andb_true_iff. split; [apply Z.leb_le | apply Z.ltb_lt]; lia.
Qed.

(** X10. A type that [new_type] has just declared is not interleaved:
    [interleaved] answers [false], every [stride] is 1, and
    [new_attribute] fails its assertion "Non-interleaved particles not
    implemented" whatever the attribute. *)
Theorem attribute_needs_interleaved (cello_check : bool) (names : list string)
    (ids : list Z) (d : descr) (it ia : Z) (name : string) (bytes : Z) :
  new_types cello_check new_descr names = Returns (ids, d) ->
  0 <= it < num_types d ->
  interleaved d it = Returns false /\
  stride d it ia = Returns 1 /\
  new_attribute d it name bytes =
    Aborts "Non-interleaved particles not implemented".
Proof.
  intros E Hit.
  destruct (new_types_shape _ _ _ _ _ new_descr_fresh E) as [F _].
  destruct (slot_parts _ _ _ _ _ _ _ (fresh_slot d it F Hit))
    as (E1 & E2 & E3 & E4 & E5).
  unfold interleaved, stride, new_attribute.
  rewrite E1, E2, E3, E4, E5. auto.
Qed.

(** X11. After the types [names] are declared, the type [it] is made
    interleaved and attributes with distinct names are declared for
    it, the attributes are numbered from 0 in the order of their
    declaration; [attribute_index] and [attribute_name] are inverse to
    each other on them, [attribute_bytes(it,ia)] returns the declared
    size as a [char], an unknown name has the index [-1], and the
    other types still have no attribute. *)
Theorem attributes_round_trip (cello_check : bool) (names : list string)
    (it : Z) (attrs : list (string * Z)) :
  NoDup names ->
  0 <= it < Z.of_nat (List.length names) ->
  Forall (fun a => snd a <> 0) attrs ->
  NoDup (map fst attrs) ->
  exists d,
    declare cello_check names it attrs = Returns d /\
    num_types d = Z.of_nat (List.length names) /\
    num_attributes d it = Returns (Z.of_nat (List.length attrs)) /\
    (forall ia name s,
       nth_error attrs ia = Some (name, s) ->
       attribute_index d it name = Returns (Z.of_nat ia) /\
       attribute_name d it (Z.of_nat ia) = Returns name /\
       attribute_bytes d it (Z.of_nat ia) = Returns (to_char s)) /\
    (forall name,
       ~ In name (map fst attrs) -> attribute_index d it name = Returns (-1)).
Proof.
  intros Hnd Hit Hnz Hna.
  destruct (declare_slot cello_check names it attrs Hnd Hit Hnz)
    as (d & index & E & Sl & N & I & J).
  destruct (slot_parts _ _ _ _ _ _ _ Sl) as (E1 & E2 & E3 & E4 & E5).
  exists d. split; [exact E|].
  split; [unfold num_types; rewrite N; reflexivity|].
  split; [unfold num_attributes; rewrite E1, length_map; reflexivity|].
  split.
  - intros ia name s Hia.
    destruct (nth_error_attrs _ _ _ _ Hia) as [Hn Hs].
    assert (Hlt : (ia < List.length attrs)%nat)
      by (apply nth_error_Some; congruence).
    split; [|split].
    + unfold attribute_index. rewrite E2, (J Hna ia name Hn). reflexivity.
    + unfold attribute_name. rewrite N, in_range_test by exact Hit.
      rewrite E1, in_range_test by (rewrite length_map; lia).
      rewrite element_of_nat, Hn. reflexivity.
    + unfold attribute_bytes. rewrite E3, element_of_nat.
      rewrite nth_error_map, Hs. reflexivity.
  - intros name Hn. unfold attribute_index. rewrite E2, (I name Hn).
    reflexivity.
Qed.

(** X12. The layout of an interleaved type whose attributes have sizes
    between 1 and 127: the first attribute is at offset 0, every
    offset is a multiple of the attribute's size, and an attribute
    starts at or after the end of the one declared before it, with
    less than its own size of padding in between. *)
Theorem attribute_layout (cello_check : bool) (names : list string)
    (it : Z) (attrs : list (string * Z)) :
  NoDup names ->
  0 <= it < Z.of_nat (List.length names) ->
  Forall (fun a => 1 <= snd a <= 127) attrs ->
  exists d,
    declare cello_check names it attrs = Returns d /\
    (forall ia name s,
       nth_error attrs ia = Some (name, s) ->
       exists o,
         attribute_offset d it (Z.of_nat ia) = Returns o /\
         0 <= o /\ Z.rem o s = 0 /\ (ia = 0%nat -> o = 0)) /\
    (forall ia name s name' s' o o',
       nth_error attrs ia = Some (name, s) ->
       nth_error attrs (S ia) = Some (name', s') ->
       attribute_offset d it (Z.of_nat ia) = Returns o ->
       attribute_offset d it (Z.of_nat (S ia)) = Returns o' ->
       o + s <= o' < o + s + s').
Proof.
  intros Hnd Hit Hsz.
  destruct (declare_slot cello_check names it attrs Hnd Hit (sizes_nonzero _ Hsz))
    as (d & index & E & Sl & N & I & J).
  destruct (slot_parts _ _ _ _ _ _ _ Sl) as (E1 & E2 & E3 & E4 & E5).
  pose proof (Forall_sizes attrs (fun s => 1 <= s <= 127) Hsz) as Hsz'.
  exists d. split; [exact E|]. split.
  - intros ia name s Hia.
    destruct (nth_error_attrs _ _ _ _ Hia) as [Hn Hs].
    assert (Hlt : (ia < List.length (offsets_from 0 (map snd attrs)))%nat).
    { rewrite length_offsets_from, length_map. apply nth_error_Some.
      congruence. }
    destruct (nth_error (offsets_from 0 (map snd attrs)) ia) as [o|] eqn:Ho;
      [|apply nth_error_None in Ho; lia].
    exists o. unfold attribute_offset. rewrite E4, element_of_nat, Ho.
    destruct (offsets_from_aligned _ 0 ltac:(lia) Hsz' ia s o Hs Ho)
      as (H1 & H2 & H3).
    split; [reflexivity|]. split; [exact H1|]. split; [exact H2|].
    intros H. specialize (H3 H).
    assert (Hs1 : 1 <= s <= 127).
    { rewrite Forall_forall in Hsz'. apply Hsz'.
      apply nth_error_In with ia. exact Hs. }
    destruct (Z.eq_dec o 0) as [|Hne]; [assumption|].
    exfalso. rewrite Z.rem_mod_nonneg in H2 by lia.
    rewrite Z.mod_small in H2 by lia. contradiction.
  - intros ia name s name' s' o o' Hia Hia'.
    destruct (nth_error_attrs _ _ _ _ Hia) as [_ Hs].
    destruct (nth_error_attrs _ _ _ _ Hia') as [_ Hs'].
    unfold attribute_offset. rewrite E4, !element_of_nat.
    destruct (nth_error (offsets_from 0 (map snd attrs)) ia) as [x|] eqn:Ho;
      [|discriminate].
    destruct (nth_error (offsets_from 0 (map snd attrs)) (S ia)) as [x'|] eqn:Ho';
      [|discriminate].
    intros H H'. injection H as ->. injection H' as ->.
    exact (offsets_from_consecutive _ 0 ltac:(lia) Hsz' ia s o s' o' Hs Hs' Ho Ho').
Qed.

Lemma sum_and_max_fold (l : list Z) :
  forall s m,
    exists m',
      fold_left (fun sm b => (fst sm + b, Z.max (snd sm) b)) l (s, m) =
        (s + total_size l, m') /\
      m <= m' /\ (forall x, In x l -> x <= m') /\ (m' = m \/ In m' l).
Proof.
  induction l as [|x l IH]; intros s m; simpl.
  - exists m. rewrite Z.add_0_r. split; [reflexivity|]. split; [lia|].
    split; [intros x []|]. left. reflexivity.
  - destruct (IH (s + x) (Z.max m x)) as (m' & E & H1 & H2 & H3).
    exists m'. rewrite E. split; [f_equal; lia|]. split; [lia|].
    split.
    + intros y [<-|Hy]; [lia | apply H2, Hy].
    + destruct H3 as [->|H3]; [|right; right; exact H3].
      destruct (Z.max_spec m x) as [[_ ->]|[_ ->]]; [right; left|left];
        reflexivity.
Qed.

Lemma rounded_bytes_spec (sizes : list Z) :
  Forall (fun s => 1 <= s <= 127) sizes -> sizes <> [] ->
  exists total largest,
    rounded_bytes sizes = Returns total /\
    In largest sizes /\ (forall s, In s sizes -> s <= largest) /\
    Z.rem total largest = 0 /\
    total_size sizes <= total < total_size sizes + largest.
Proof.
  intros Hs Hne. unfold rounded_bytes, sum_and_max.
  destruct (sum_and_max_fold sizes 0 (-1)) as (m & E & H1 & H2 & H3).
  rewrite E. simpl fst.
  assert (Hin : In m sizes).
  { destruct H3 as [->|H3]; [|exact H3].
    destruct sizes as [|x l]; [contradiction|].
    inversion Hs; subst. specialize (H2 x (or_introl eq_refl)). lia. }
  assert (Hm : 1 <= m <= 127).
  { rewrite Forall_forall in Hs. apply Hs, Hin. }
  assert (Hsum : 1 <= total_size sizes).
  { clear - Hs Hne. destruct Hs as [|x l Hx Hl]; [contradiction|].
    simpl. assert (0 <= total_size l).
    { clear - Hl. induction Hl as [|y l Hy _ IH]; simpl; lia. }
    lia. }
  destruct (Z.eqb_spec m 0) as [|_]; [lia|].
  exists ((Z.quot (total_size sizes - 1) m + 1) * m), m.
  split; [reflexivity|]. split; [exact Hin|]. split; [exact H2|].
  rewrite Z.quot_div_nonneg by lia.
  pose proof (Z_div_mod_eq_full (total_size sizes - 1) m) as Hd.
  pose proof (Z.mod_pos_bound (total_size sizes - 1) m ltac:(lia)) as Hb.
  assert (H0 : 0 <= (total_size sizes - 1) / m)
    by (apply Z.div_pos; lia).
  split.
  - rewrite Z.rem_mod_nonneg by nia. apply Z_mod_mult.
  - nia.
Qed.

(** X13. [attribute_bytes(it)] of an interleaved type with at least
    one attribute, all of sizes between 1 and 127, is the sum of the
    sizes rounded up to a multiple of the largest size: it is a
    multiple of the largest size, at least the sum and less than the
    sum plus the largest size. *)
Theorem attribute_bytes_rounded (cello_check : bool) (names : list string)
    (it : Z) (attrs : list (string * Z)) :
  NoDup names ->
  0 <= it < Z.of_nat (List.length names) ->
  Forall (fun a => 1 <= snd a <= 127) attrs ->
  attrs <> [] ->
  exists d total largest,
    declare cello_check names it attrs = Returns d /\
    attribute_bytes_of_type d it = Returns total /\
    In largest (map snd attrs) /\
    (forall s, In s (map snd attrs) -> s <= largest) /\
    Z.rem total largest = 0 /\
    total_size (map snd attrs) <= total
      < total_size (map snd attrs) + largest.
Proof.
  intros Hnd Hit Hsz Hne.
  destruct (declare_slot cello_check names it attrs Hnd Hit (sizes_nonzero _ Hsz))
    as (d & index & E & Sl & N & I & J).
  destruct (slot_parts _ _ _ _ _ _ _ Sl) as (E1 & E2 & E3 & E4 & E5).
  pose proof (Forall_sizes attrs (fun s => 1 <= s <= 127) Hsz) as Hsz'.
  rewrite (map_to_char_small _ Hsz') in E3.
  destruct (rounded_bytes_spec (map snd attrs) Hsz') as (total & largest & R).
  { destruct attrs; [contradiction | discriminate]. }
  exists d, total, largest. split; [exact E|].
  unfold attribute_bytes_of_type. rewrite E3. exact R.
Qed.

(** X14. For a type without attributes, [attribute_bytes(it)] returns
    [-2]: the loop leaves the sum at 0 and the maximum at -1. *)
Theorem attribute_bytes_without_attributes (cello_check : bool)
    (names : list string) (ids : list Z) (d : descr) (it : Z) :
  new_types cello_check new_descr names = Returns (ids, d) ->
  0 <= it < num_types d ->
  num_attributes d it = Returns 0 /\
  attribute_bytes_of_type d it = Returns (-2).
Proof.
  intros E Hit.
  destruct (new_types_shape _ _ _ _ _ new_descr_fresh E) as [F _].
  destruct (slot_parts _ _ _ _ _ _ _ (fresh_slot d it F Hit))
    as (E1 & E2 & E3 & E4 & E5).
  unfold num_attributes, attribute_bytes_of_type. rewrite E1, E3.
  split; reflexivity.
Qed.

Lemma in_small_range (s : Z) :
  1 <= s <= 127 -> In s (map Z.of_nat (seq 1 127)).
Proof.
  intros H. apply in_map_iff. exists (Z.to_nat s). split; [lia|].
  apply in_seq. lia.
Qed.

Lemma small_powers_of_two (s : Z) :
  1 <= s <= 127 -> is_power_of_two s = true ->
  In s [1; 2; 4; 8; 16; 32; 64].
Proof.
  intros H Hp.
  assert (Hall : forallb (fun s => implb (is_power_of_two s)
                            (existsb (Z.eqb s) [1; 2; 4; 8; 16; 32; 64]))
                   (map Z.of_nat (seq 1 127)) = true)
    by (vm_compute; reflexivity).
  rewrite forallb_forall in Hall.
  specialize (Hall s (in_small_range s H)). rewrite Hp in Hall.
  unfold implb in Hall. apply existsb_exists in Hall.
  destruct Hall as (x & Hx & Ex). apply Z.eqb_eq in Ex. subst x. exact Hx.
Qed.

Lemma small_powers_divide (s l : Z) :
  In s [1; 2; 4; 8; 16; 32; 64] -> In l [1; 2; 4; 8; 16; 32; 64] ->
  s <= l -> exists j, l = j * s.
Proof.
  intros Hs Hl Hle. exists (l / s).
  simpl in Hs, Hl.
  repeat (destruct Hs as [<-|Hs]); try contradiction;
  repeat (destruct Hl as [<-|Hl]); try contradiction;
  try lia; vm_compute; reflexivity.
Qed.

(** X15. When every attribute of an interleaved type has a size that
    is a power of two between 1 and 127, the stride of each attribute
    times its size is [attribute_bytes(it)]: the size of a particle is
    a whole number of items of every attribute. *)
Theorem stride_times_size (cello_check : bool) (names : list string)
    (it : Z) (attrs : list (string * Z)) :
  NoDup names ->
  0 <= it < Z.of_nat (List.length names) ->
  Forall (fun a => 1 <= snd a <= 127) attrs ->
  Forall (fun a => is_power_of_two (snd a) = true) attrs ->
  exists d,
    declare cello_check names it attrs = Returns d /\
    forall ia name s,
      nth_error attrs ia = Some (name, s) ->
      exists total q,
        attribute_bytes_of_type d it = Returns total /\
        stride d it (Z.of_nat ia) = Returns q /\
        1 <= q /\ q * s = total.
Proof.
  intros Hnd Hit Hsz Hpw.
  destruct (declare_slot cello_check names it attrs Hnd Hit (sizes_nonzero _ Hsz))
    as (d & index & E & Sl & N & I & J).
  destruct (slot_parts _ _ _ _ _ _ _ Sl) as (E1 & E2 & E3 & E4 & E5).
  pose proof (Forall_sizes attrs (fun s => 1 <= s <= 127) Hsz) as Hsz'.
  pose proof (Forall_sizes attrs (fun s => is_power_of_two s = true) Hpw)
    as Hpw'.
  rewrite (map_to_char_small _ Hsz') in E3.
  exists d. split; [exact E|].
  intros ia name s Hia.
  destruct (nth_error_attrs _ _ _ _ Hia) as [_ Hs].
  destruct (rounded_bytes_spec (map snd attrs) Hsz')
    as (total & largest & R & Hin & Hmax & Hrem & Hrange).
  { destruct attrs; [destruct ia; discriminate | discriminate]. }
  assert (Hins : In s (map snd attrs)) by (apply nth_error_In with ia; exact Hs).
  rewrite Forall_forall in Hsz', Hpw'.
  pose proof (Hsz' s Hins) as Hs1. pose proof (Hsz' largest Hin) as Hl1.
  destruct (small_powers_divide s largest
              (small_powers_of_two s Hs1 (Hpw' s Hins))
              (small_powers_of_two largest Hl1 (Hpw' largest Hin))
              (Hmax s Hins)) as (j & Hj).
  assert (Hsum : s <= total_size (map snd attrs)).
  { clear - Hins Hsz'. induction (map snd attrs) as [|x l IH];
      [contradiction|].
    simpl. assert (0 <= total_size l).
    { clear - Hsz'. induction l as [|y l IH]; simpl; [lia|].
      assert (1 <= y <= 127) by (apply Hsz'; right; left; reflexivity).
      assert (0 <= total_size l).
      { apply IH. intros z [Hz|Hz]; apply Hsz'; [left | right; right];
          assumption. }
      lia. }
    destruct Hins as [->|Hins]; [lia|].
    assert (s <= total_size l).
    { apply IH; [|exact Hins]. intros z Hz. apply Hsz'. right. exact Hz. }
    assert (1 <= x <= 127) by (apply Hsz'; left; reflexivity). lia. }
  rewrite Z.rem_mod_nonneg in Hrem by lia.
  apply Z_div_exact_full_2 in Hrem; [|lia].
  assert (Htot : total = (total / largest * j) * s).
  { rewrite Hrem at 1. rewrite Hj at 1. ring. }
  exists total, (total / largest * j).
  unfold stride, attribute_bytes_of_type, attribute_bytes.
  rewrite E5, E3, R, element_of_nat, Hs.
  destruct (Z.eqb_spec s 0) as [|_]; [lia|].
  split; [reflexivity|]. split.
  - f_equal. rewrite Htot at 1. apply Z.quot_mul. lia.
  - split; [nia | symmetry; exact Htot].
Qed.

(** X16. [index] splits a particle index by the batch size set with
    [set_batch_size].  For an [int] index and a nonzero [int] batch
    size other than [INT_MIN] with [-1], the two parts are [int]s that
    recombine to the index, the index in the batch is smaller in
    magnitude than the batch size, and for a non-negative index and a
    positive batch size it lies in [0, mb).  A new descriptor has
    batch size 1, so the index in the batch is 0.  For the index
    [INT_MIN] and the batch size [-1] the division is undefined. *)
Theorem index_splits (d : descr) (mb i : Z) :
  mb <> 0 ->
  -2147483648 <= i <= 2147483647 ->
  -2147483648 <= mb <= 2147483647 ->
  i <> -2147483648 \/ mb <> -1 ->
  batch_size (set_batch_size d mb) = mb /\
  index new_descr i = Returns (i, 0) /\
  index (set_batch_size d (-1)) (-2147483648) = Undefined /\
  exists ib ip,
    index (set_batch_size d mb) i = Returns (ib, ip) /\
    ib * mb + ip = i /\
    Z.abs ip < Z.abs mb /\
    -2147483648 <= ib <= 2147483647 /\
    (0 <= i -> 0 < mb -> 0 <= ib /\ 0 <= ip < mb) /\
    (i < 0 -> ip <= 0).
Proof.
  intros Hmb Hi Hr Hx. split; [reflexivity|]. split.
  { unfold index. simpl batch_size_.
    destruct (Z.eqb_spec 1 0) as [|_]; [discriminate|].
    replace (1 =? -1) with false by reflexivity. rewrite andb_false_r.
    rewrite Z.quot_1_r, Z.rem_1_r. reflexivity. }
  split; [reflexivity|].
  exists (Z.quot i mb), (Z.rem i mb). unfold index. simpl batch_size_.
  destruct (Z.eqb_spec mb 0) as [|_]; [contradiction|].
  assert (E : (i =? -2147483648) && (mb =? -1) = false).
  { apply andb_false_iff. destruct Hx as [Hx|Hx]; [left | right];
      apply Z.eqb_neq; exact Hx. }
  rewrite E.
  split; [reflexivity|].
  pose proof (Z.quot_rem' i mb) as Hqr.
  pose proof (Z.rem_bound_abs i mb Hmb) as Hra.
  split; [lia|].
  split; [exact Hra|].
  split.
  - assert (Habs : Z.abs (Z.quot i mb) <= Z.abs i).
    { rewrite <- Z.quot_abs by exact Hmb.
      apply Z.quot_le_upper_bound; [lia|]. nia. }
    destruct (Z.eq_dec mb (-1)) as [->|Hm1].
    + change (-1) with (- (1)).
      rewrite Z.quot_opp_r, Z.quot_1_r by lia. lia.
    + destruct (Z.eq_dec i (-2147483648)) as [->|Hi1]; [|lia].
      destruct (Z.eq_dec mb 1) as [->|Hm2];
        [rewrite Z.quot_1_r; lia|].
      assert (Z.abs (Z.quot (-2147483648) mb) <= 1073741824).
      { rewrite <- Z.quot_abs by exact Hmb.
        apply Z.quot_le_upper_bound; [lia|].
        change (Z.abs (-2147483648)) with 2147483648. lia. }
      lia.
  - split.
    + intros Hi0 Hp. split; [apply Z.quot_pos; lia|].
      apply Z.rem_bound_pos; lia.
    + intros Hi0. apply Z.rem_nonpos; lia.
Qed.

(** ** The properties at work on the example descriptor *)

Lemma example_names_distinct : NoDup example_names.
Proof. repeat constructor; simpl; intuition discriminate. Qed.

Lemma example_attributes_distinct : NoDup (map fst example_attributes).
Proof. repeat constructor; simpl; intuition discriminate. Qed.

Lemma example_attributes_sizes :
  Forall (fun a => 1 <= snd a <= 127) example_attributes.
Proof.
  unfold example_attributes.
  repeat (apply Forall_cons; [simpl; lia|]). apply Forall_nil.
Qed.

Lemma example_attributes_powers :
  Forall (fun a => is_power_of_two (snd a) = true) example_attributes.
Proof.
  unfold example_attributes.
  repeat (apply Forall_cons; [reflexivity|]). apply Forall_nil.
Qed.

Lemma types_round_trip_witness :
  exists d,
    new_types false new_descr example_names = Returns ([0; 1], d) /\
    num_types d = 2.
Proof.
  destruct (types_round_trip false example_names example_names_distinct)
    as (d & E & N & _).
  exists d. split; [exact E | exact N].
Defined.

Lemma new_type_twice_witness :
  new_type true example_types "star" =
    Aborts "Particle type %s already exists".
Proof.
  apply (new_type_twice false example_names [0; 1] example_types 1 "star").
  - exact example_names_distinct.
  - reflexivity.
  - reflexivity.
Defined.

Lemma attribute_needs_interleaved_witness :
  new_attribute example_types 1 "x" 4 =
    Aborts "Non-interleaved particles not implemented".
Proof.
  apply (attribute_needs_interleaved false example_names [0; 1] example_types
           1 0 "x" 4).
  - reflexivity.
  - split; [lia | reflexivity].
Defined.

Lemma attributes_round_trip_witness :
  exists d,
    declare false example_names 1 example_attributes = Returns d /\
    num_attributes d 1 = Returns 4.
Proof.
  destruct (attributes_round_trip false example_names 1 example_attributes)
    as (d & E & _ & N & _).
  - exact example_names_distinct.
  - simpl. lia.
  - exact (sizes_nonzero _ example_attributes_sizes).
  - exact example_attributes_distinct.
  - exists d. split; [exact E | exact N].
Defined.

Lemma attribute_layout_witness :
  exists d,
    declare false example_names 1 example_attributes = Returns d /\
    forall ia name s,
      nth_error example_attributes ia = Some (name, s) ->
      exists o,
        attribute_offset d 1 (Z.of_nat ia) = Returns o /\
        0 <= o /\ Z.rem o s = 0 /\ (ia = 0%nat -> o = 0).
Proof.
  destruct (attribute_layout false example_names 1 example_attributes)
    as (d & E & H & _).
  - exact example_names_distinct.
  - simpl. lia.
  - exact example_attributes_sizes.
  - exists d. split; [exact E | exact H].
Defined.

Lemma attribute_bytes_rounded_witness :
  exists d total,
    declare false example_names 1 example_attributes = Returns d /\
    attribute_bytes_of_type d 1 = Returns total /\
    total_size (map snd example_attributes) <= total.
Proof.
  destruct (attribute_bytes_rounded false example_names 1 example_attributes)
    as (d & total & largest & E & T & _ & _ & _ & H & _).
  - exact example_names_distinct.
  - simpl. lia.
  - exact example_attributes_sizes.
  - discriminate.
  - exists d, total. split; [exact E|]. split; [exact T | exact H].
Defined.

Lemma attribute_bytes_without_attributes_witness :
  attribute_bytes_of_type example_types 0 = Returns (-2).
Proof.
  apply (attribute_bytes_without_attributes false example_names [0; 1]
           example_types 0).
  - reflexivity.
  - split; [lia | reflexivity].
Defined.

Lemma stride_times_size_witness :
  exists d,
    declare false example_names 1 example_attributes = Returns d /\
    forall ia name s,
      nth_error example_attributes ia = Some (name, s) ->
      exists total q,
        attribute_bytes_of_type d 1 = Returns total /\
        stride d 1 (Z.of_nat ia) = Returns q /\
        1 <= q /\ q * s = total.
Proof.
  apply (stride_times_size false example_names 1 example_attributes).
  - exact example_names_distinct.
  - simpl. lia.
  - exact example_attributes_sizes.
  - exact example_attributes_powers.
Defined.

Lemma index_splits_witness :
  exists ib ip,
    index (set_batch_size new_descr 4) 10 = Returns (ib, ip) /\
    ib * 4 + ip = 10.
Proof.
  destruct (index_splits new_descr 4 10)
    as (_ & _ & _ & ib & ip & E & H & _).
  - discriminate.
  - lia.
  - lia.
  - left. discriminate.
  - exists ib, ip. split; [exact E | exact H].
Defined.

End ParticleDescrFacts.
